(** * Route search of the trotro transit planner

    Shallow embedding of [findBestPath] (the priority-generalised search of
    [utils/findBestPath.ts]), of its fare-only predecessor
    ([src/utils/findPath.ts], module [Legacy] below) and of the functions of
    the page and of the map that compute on stops and routes ([App.tsx],
    module [App], and [components/MapView.tsx], module [MapView]), with
    their properties stated and proved over the embedding.

    The file has three parts: the model, transcribed from the source files;
    the vocabulary the properties are stated in; the properties and their
    proofs.

    Numbers.  A JavaScript [number] is modelled by [num]: a rational, one
    of the two infinities, or NaN.  There is a single zero, and the special
    values follow IEEE-754 as JavaScript does ([Infinity - Infinity] is
    [NaN], every comparison with [NaN] is false).  The arithmetic of [nadd],
    [nmul] and [ndiv] on finite values is exact, and [findBestPath] is the
    search in that arithmetic.  The source computes on doubles, whose
    additions round: [toDouble] is the rounding, [dadd] the addition of
    doubles and [findBestPathWith dadd] the search on doubles.  On a graph
    whose costs add without rounding ([exactCosts]) the two searches go
    through the same states ([findBestPath_on_doubles]); otherwise they
    agree as long as no sum is rounded.  The optimality of the result rests
    on the sums being exact and is stated for the search on doubles.
    [Math.sin], [Math.cos], [Math.sqrt], [Math.atan2] and [Math.PI] are
    taken as a parameter ([MathLib]).

    Maps.  A [Map] keyed by stop names is a [gmap string]; the order of its
    entries is never observed by the search.

    Loops.  The [while] loop of the search takes fuel, one unit per
    evaluation of its guard; [OutOfFuel] stands for a call that is still
    running.  The fields of [Route] the search never reads ([id],
    [fromCoords], [toCoords], [intermediates]) are left out, and the
    priority is always passed explicitly. *)

From Stdlib Require Import QArith Lqa.
From stdpp Require Import gmap strings list fin_maps.

Local Open Scope Q_scope.

(** ** JavaScript numbers *)

Inductive num : Type :=
| Fin (q : Q)
| PInf
| NInf
| NaN.

Definition nneg (a : num) : num :=
  match a with
  | Fin q => Fin (- q)
  | PInf => NInf
  | NInf => PInf
  | NaN => NaN
  end.

(** [a + b] in exact arithmetic; [dadd] below is the addition of doubles. *)
Definition nadd (a b : num) : num :=
  match a, b with
  | NaN, _ | _, NaN => NaN
  | Fin x, Fin y => Fin (x + y)
  | PInf, NInf | NInf, PInf => NaN
  | PInf, _ | _, PInf => PInf
  | NInf, _ | _, NInf => NInf
  end.

(** [a - b] *)
Definition nsub (a b : num) : num := nadd a (nneg b).

(** Sign of a number that is not NaN; zero counts as positive zero. *)
Definition nsign (a : num) : comparison :=
  match a with
  | Fin q => q ?= 0
  | PInf => Gt
  | NInf => Lt
  | NaN => Eq
  end.

Definition signed_inf (s t : comparison) : num :=
  match s, t with
  | Eq, _ | _, Eq => NaN
  | Lt, Lt | Gt, Gt => PInf
  | Lt, Gt | Gt, Lt => NInf
  end.

(** [a * b] *)
Definition nmul (a b : num) : num :=
  match a, b with
  | NaN, _ | _, NaN => NaN
  | Fin x, Fin y => Fin (x * y)
  | _, _ => signed_inf (nsign a) (nsign b)
  end.

(** [a / b]; a zero divisor is taken as [+0]. *)
Definition ndiv (a b : num) : num :=
  match a, b with
  | NaN, _ | _, NaN => NaN
  | Fin x, Fin y =>
      if Qeq_bool y 0 then signed_inf (x ?= 0) Gt else Fin (x / y)
  | Fin _, _ => Fin 0
  | _, Fin y => signed_inf (nsign a) (if Qeq_bool y 0 then Gt else y ?= 0)
  | _, _ => NaN
  end.

(** [a === b] on numbers *)
Definition neqb (a b : num) : bool :=
  match a, b with
  | Fin x, Fin y => Qeq_bool x y
  | PInf, PInf | NInf, NInf => true
  | _, _ => false
  end.

(** [a < b] *)
Definition nltb (a b : num) : bool :=
  match a, b with
  | NaN, _ | _, NaN => false
  | Fin x, Fin y => negb (Qle_bool y x)
  | NInf, NInf | PInf, _ | _, NInf => false
  | _, _ => true
  end.

Definition nzero : num := Fin 0.
Definition n_one : num := Fin 1.
Definition nlt0 (a : num) : bool := nltb a nzero.   (* a < 0 *)
Definition ngt0 (a : num) : bool := nltb nzero a.   (* a > 0 *)

(** ** The library functions [haversine] calls *)

Record MathLib : Type := {
  Math_PI : num;
  Math_sin : num -> num;
  Math_cos : num -> num;
  Math_sqrt : num -> num;
  Math_atan2 : num -> num -> num
}.

(** ** Data model ([types.ts]) *)

Definition Coords : Type := (num * num)%type.

Record Stop : Type := { s_name : string; s_coords : Coords }.

(** [distance] is [None] when the field is [null] or [undefined]. *)
Record Route : Type := {
  r_from : string;
  r_to : string;
  r_fare : num;
  r_distance : option num
}.

Record RouteLeg : Type := {
  l_from : string;
  l_to : string;
  l_fare : num;
  l_distance : num
}.

Record PathResult : Type := {
  path : list string;
  legs : list RouteLeg;
  totalFare : num;
  totalDistance : num;
  totalStops : num
}.

(** Entries of the adjacency lists. *)
Record Edge : Type := { e_to : string; e_fare : num; e_distance : num }.

Record Cost : Type := { fare : num; stops : num; distance : num }.

Inductive Priority : Type := ByFare | ByDistance | ByStops.

(** Frontier records. *)
Record Node : Type := {
  node : string;
  n_path : list string;
  n_legs : list RouteLeg;
  cost : Cost
}.

(** What a call does: it returns ([null] is [None]), throws a [TypeError],
    or is still running when the fuel is used up. *)
Inductive outcome (A : Type) : Type :=
| Returned (r : option A)
| Threw
| OutOfFuel.
Arguments Returned {A} r.
Arguments Threw {A}.
Arguments OutOfFuel {A}.

(** ** [haversine] *)

Section Haversine.
Variable M : MathLib.

Definition toRad (x : num) : num := ndiv (nmul x (Math_PI M)) (Fin 180).

Definition sq (x : num) : num := nmul x x.   (* x ** 2 *)

Definition haversine_A (a b : Coords) : num :=
  let lat1 := toRad (fst a) in
  let lon1 := toRad (snd a) in
  let lat2 := toRad (fst b) in
  let lon2 := toRad (snd b) in
  let dLat := nsub lat2 lat1 in
  let dLon := nsub lon2 lon1 in
  nadd (sq (Math_sin M (ndiv dLat (Fin 2))))
       (nmul (nmul (Math_cos M lat1) (Math_cos M lat2))
             (sq (Math_sin M (ndiv dLon (Fin 2))))).

Definition haversine_C (a b : Coords) : num :=
  let A := haversine_A a b in
  nmul (Fin 2) (Math_atan2 M (Math_sqrt M A) (Math_sqrt M (nsub (Fin 1) A))).

Definition haversine (a b : Coords) : num :=
  let R := Fin 6371 in
  nmul R (haversine_C a b).
End Haversine.

(** ** Array.prototype.sort

    The sort is stable and a comparator result that is neither negative nor
    positive (zero or NaN) leaves two elements in their order.  For a
    consistent comparator the result is the one stable sorted arrangement,
    computed here by insertion from the left. *)

Section Sort.
Context {A : Type} (cmp : A -> A -> num).

Fixpoint insertBy (x : A) (l : list A) : list A :=
  match l with
  | [] => [x]
  | y :: l' => if ngt0 (cmp y x) then x :: y :: l' else y :: insertBy x l'
  end.

Definition sortBy (l : list A) : list A :=
  fold_left (fun acc x => insertBy x acc) l [].
End Sort.

(** ** Graph builder (lines 36-53 of [findBestPath]) *)

Definition coordsByName (stopsArr : list Stop) : gmap string Coords :=
  fold_left (fun m s => <[s_name s := s_coords s]> m) stopsArr ∅.

(** [if (!adj.has(k)) adj.set(k, []); adj.get(k)!.push(e)] *)
Definition pushEdge (k : string) (e : Edge)
    (adj : gmap string (list Edge)) : gmap string (list Edge) :=
  let adj1 := match adj !! k with
              | None => <[k := []]> adj
              | Some _ => adj
              end in
  alter (fun l => l ++ [e]) k adj1.

Definition routeDist (M : MathLib) (r : Route) (fromCoords toCoords : Coords) : num :=
  match r_distance r with
  | Some d => d
  | None => haversine M fromCoords toCoords
  end.

Definition addRoute (M : MathLib) (coords : gmap string Coords)
    (adj : gmap string (list Edge)) (r : Route) : gmap string (list Edge) :=
  match coords !! r_from r, coords !! r_to r with
  | Some fromCoords, Some toCoords =>
      let dist := routeDist M r fromCoords toCoords in
      let adj1 :=
        pushEdge (r_from r)
          {| e_to := r_to r; e_fare := r_fare r; e_distance := dist |} adj in
      pushEdge (r_to r)
        {| e_to := r_from r; e_fare := r_fare r; e_distance := dist |} adj1
  | _, _ => adj
  end.

Definition buildAdj (M : MathLib) (stopsArr : list Stop) (routesArr : list Route)
    : gmap string (list Edge) :=
  fold_left (addRoute M (coordsByName stopsArr)) routesArr ∅.

(** [adj.get(k) ?? []] *)
Definition neighborsOf (adj : gmap string (list Edge)) (k : string) : list Edge :=
  default [] (adj !! k).

(** ** Cost comparison *)

Definition cmpCost (priority : Priority) (a b : Cost) : num :=
  match priority with
  | ByFare =>
      if negb (neqb (fare a) (fare b)) then nsub (fare a) (fare b)
      else if negb (neqb (stops a) (stops b)) then nsub (stops a) (stops b)
      else nsub (distance a) (distance b)
  | ByDistance =>
      if negb (neqb (distance a) (distance b)) then nsub (distance a) (distance b)
      else if negb (neqb (fare a) (fare b)) then nsub (fare a) (fare b)
      else nsub (stops a) (stops b)
  | ByStops =>
      if negb (neqb (stops a) (stops b)) then nsub (stops a) (stops b)
      else if negb (neqb (fare a) (fare b)) then nsub (fare a) (fare b)
      else nsub (distance a) (distance b)
  end.

Definition infCost : Cost := {| fare := PInf; stops := PInf; distance := PInf |}.
Definition zeroCost : Cost := {| fare := nzero; stops := nzero; distance := nzero |}.

(** ** The search (lines 74-127 of [findBestPath]) *)

Definition initBest (stopsArr : list Stop) (start : string) : gmap string Cost :=
  <[start := zeroCost]>
    (fold_left (fun b s => <[s_name s := infCost]> b) stopsArr ∅).

Definition startNode (start : string) : Node :=
  {| node := start; n_path := [start]; n_legs := []; cost := zeroCost |}.

Definition stepCost (c : Cost) (edge : Edge) : Cost :=
  {| fare := nadd (fare c) (e_fare edge);
     stops := nadd (stops c) n_one;
     distance := nadd (distance c) (e_distance edge) |}.

(** Body of the loop over the neighbours of [current]. *)
Definition relax (priority : Priority) (current : Node)
    (st : gmap string Cost * list Node) (edge : Edge)
    : gmap string Cost * list Node :=
  let nextName := e_to edge in
  let newCost := stepCost (cost current) edge in
  let bestForNext := default infCost (fst st !! nextName) in
  if nlt0 (cmpCost priority newCost bestForNext) then
    let newLeg := {| l_from := node current; l_to := nextName;
                     l_fare := e_fare edge; l_distance := e_distance edge |} in
    (<[nextName := newCost]> (fst st),
     snd st ++ [ {| node := nextName;
                    n_path := n_path current ++ [nextName];
                    n_legs := n_legs current ++ [newLeg];
                    cost := newCost |} ])
  else st.

Definition resultOf (current : Node) : PathResult :=
  {| path := n_path current;
     legs := n_legs current;
     totalFare := fare (cost current);
     totalDistance := distance (cost current);
     totalStops := stops (cost current) |}.

(** The [while] loop; one unit of fuel per evaluation of its guard.
    [best.get(current.node)!] of an absent key makes [cmpCost] throw. *)
Fixpoint search (fuel : nat) (priority : Priority)
    (adj : gmap string (list Edge)) (end_ : string)
    (best : gmap string Cost) (pq : list Node) : outcome PathResult :=
  match fuel with
  | O => OutOfFuel
  | S fuel' =>
      match sortBy (fun A B => cmpCost priority (cost A) (cost B)) pq with
      | [] => Returned None
      | current :: pq' =>
          match best !! node current with
          | None => Threw
          | Some currentBest =>
              if ngt0 (cmpCost priority (cost current) currentBest) then
                search fuel' priority adj end_ best pq'
              else if String.eqb (node current) end_ then
                Returned (Some (resultOf current))
              else
                let st := fold_left (relax priority current)
                            (neighborsOf adj (node current)) (best, pq') in
                search fuel' priority adj end_ (fst st) (snd st)
          end
      end
  end.

Definition findBestPath (M : MathLib) (fuel : nat)
    (stopsArr : list Stop) (routesArr : list Route)
    (start end_ : string) (priority : Priority) : outcome PathResult :=
  if String.eqb start end_ then
    Returned (Some {| path := [start]; legs := [];
                      totalFare := nzero; totalDistance := nzero;
                      totalStops := nzero |})
  else
    search fuel priority (buildAdj M stopsArr routesArr) end_
      (initBest stopsArr start) [startNode start].

(** ** The fare-only predecessor ([src/utils/findPath.ts]) *)

Module Legacy.

(** The object returned at line 70 has no [totalStops] field. *)
Record PathResult : Type := {
  path : list string;
  legs : list RouteLeg;
  totalFare : num;
  totalDistance : num
}.

Record Node : Type := {
  q_stop : string;
  q_path : list string;
  q_legs : list RouteLeg;
  q_fare : num;
  q_stopsCount : num;
  q_distance : num
}.

Definition haversineDistance (M : MathLib) (a b : Coords) : num :=
  let R := Fin 6371 in
  let lat1 := toRad M (fst a) in
  let lon1 := toRad M (snd a) in
  let lat2 := toRad M (fst b) in
  let lon2 := toRad M (snd b) in
  let dLat := nsub lat2 lat1 in
  let dLon := nsub lon2 lon1 in
  let aa := nadd (sq (Math_sin M (ndiv dLat (Fin 2))))
                 (nmul (nmul (Math_cos M lat1) (Math_cos M lat2))
                       (sq (Math_sin M (ndiv dLon (Fin 2))))) in
  let c := nmul (Fin 2)
             (Math_atan2 M (Math_sqrt M aa) (Math_sqrt M (nsub (Fin 1) aa))) in
  nmul R c.

Definition isBetter (a b : Cost) : bool :=
  if negb (neqb (fare a) (fare b)) then nltb (fare a) (fare b)
  else if negb (neqb (stops a) (stops b)) then nltb (stops a) (stops b)
  else nltb (distance a) (distance b).

Definition costOf (n : Node) : Cost :=
  {| fare := q_fare n; stops := q_stopsCount n; distance := q_distance n |}.

(** [current.fare === currentBest.fare && ...] *)
Definition sameCost (n : Node) (b : Cost) : bool :=
  neqb (q_fare n) (fare b) && neqb (q_stopsCount n) (stops b)
  && neqb (q_distance n) (distance b).

(** The comparator handed to [pq.sort]. *)
Definition cmpNode (A B : Node) : num :=
  if negb (neqb (q_fare A) (q_fare B)) then nsub (q_fare A) (q_fare B)
  else if negb (neqb (q_stopsCount A) (q_stopsCount B))
       then nsub (q_stopsCount A) (q_stopsCount B)
  else nsub (q_distance A) (q_distance B).

(** Lines 87-102 and 112-127; [None] when [isBetter] is handed an absent
    best cost and throws. *)
Definition relax (current : Node) (neighbor : string) (leg : RouteLeg)
    (st : gmap string Cost * list Node)
    : option (gmap string Cost * list Node) :=
  let newFare := nadd (q_fare current) (l_fare leg) in
  let newStops := nadd (q_stopsCount current) n_one in
  let newDist := nadd (q_distance current) (l_distance leg) in
  let candidate := {| fare := newFare; stops := newStops; distance := newDist |} in
  match fst st !! neighbor with
  | None => None
  | Some bestForNeighbor =>
      if isBetter candidate bestForNeighbor then
        Some (<[neighbor := candidate]> (fst st),
              snd st ++ [ {| q_stop := neighbor;
                             q_path := q_path current ++ [neighbor];
                             q_legs := q_legs current ++ [leg];
                             q_fare := newFare;
                             q_stopsCount := newStops;
                             q_distance := newDist |} ])
      else Some st
  end.

(** Lines 106-128: the reverse direction of one route. *)
Definition reversePart (M : MathLib) (coords : gmap string Coords)
    (current : Node) (r : Route) (st : gmap string Cost * list Node)
    : option (gmap string Cost * list Node) :=
  if String.eqb (r_to r) (q_stop current) then
    match coords !! r_to r, coords !! r_from r with
    | Some fromCoords, Some toCoords =>
        let dist := haversineDistance M fromCoords toCoords in
        relax current (r_from r)
          {| l_from := r_to r; l_to := r_from r;
             l_fare := r_fare r; l_distance := dist |} st
    | _, _ => Some st
    end
  else Some st.

(** Lines 79-129: the body run for one route; the [continue] of the
    forward direction skips the reverse direction as well. *)
Definition routeBody (M : MathLib) (coords : gmap string Coords)
    (current : Node) (st : gmap string Cost * list Node) (r : Route)
    : option (gmap string Cost * list Node) :=
  if String.eqb (r_from r) (q_stop current) then
    match coords !! r_from r, coords !! r_to r with
    | Some fromCoords, Some toCoords =>
        let dist := haversineDistance M fromCoords toCoords in
        st' ← relax current (r_to r)
                {| l_from := r_from r; l_to := r_to r;
                   l_fare := r_fare r; l_distance := dist |} st;
        reversePart M coords current r st'
    | _, _ => Some st
    end
  else reversePart M coords current r st.

Definition expand (M : MathLib) (coords : gmap string Coords)
    (routesArr : list Route) (current : Node)
    (st : gmap string Cost * list Node)
    : option (gmap string Cost * list Node) :=
  fold_left (fun acc r => st' ← acc; routeBody M coords current st' r)
    routesArr (Some st).

Definition resultOf (current : Node) : PathResult :=
  {| path := q_path current;
     legs := q_legs current;
     totalFare := q_fare current;
     totalDistance := q_distance current |}.

(** Lines 61-66. *)
Definition skipped (current : Node) (currentBest : Cost) : bool :=
  if negb (isBetter (costOf current) currentBest)
     && negb (sameCost current currentBest)
  then negb (sameCost current currentBest)
  else false.

Fixpoint search (fuel : nat) (M : MathLib) (coords : gmap string Coords)
    (routesArr : list Route) (end_ : string)
    (bestCost : gmap string Cost) (pq : list Node) : outcome PathResult :=
  match fuel with
  | O => OutOfFuel
  | S fuel' =>
      match sortBy cmpNode pq with
      | [] => Returned None
      | current :: pq' =>
          match bestCost !! q_stop current with
          | None => Threw
          | Some currentBest =>
              if skipped current currentBest then
                search fuel' M coords routesArr end_ bestCost pq'
              else if String.eqb (q_stop current) end_ then
                Returned (Some (resultOf current))
              else
                match expand M coords routesArr current (bestCost, pq') with
                | None => Threw
                | Some st =>
                    search fuel' M coords routesArr end_ (fst st) (snd st)
                end
          end
      end
  end.

Definition startNode (start : string) : Node :=
  {| q_stop := start; q_path := [start]; q_legs := [];
     q_fare := nzero; q_stopsCount := nzero; q_distance := nzero |}.

Definition findBestPath (M : MathLib) (fuel : nat)
    (stopsArr : list Stop) (routesArr : list Route)
    (start end_ : string) : outcome PathResult :=
  let coords := coordsByName stopsArr in
  match coords !! start, coords !! end_ with
  | Some _, Some _ =>
      search fuel M coords routesArr end_ (initBest stopsArr start)
        [startNode start]
  | _, _ => Returned None
  end.

End Legacy.

(** Dropping [totalStops], to compare the results of the two versions. *)
Definition forgetStops (r : PathResult) : Legacy.PathResult :=
  {| Legacy.path := path r; Legacy.legs := legs r;
     Legacy.totalFare := totalFare r; Legacy.totalDistance := totalDistance r |}.

(** ** The page ([App.tsx]) and the map ([components/MapView.tsx])

    The functions of the page that compute on stops and routes.  Queries
    to the database and to the routing service are not modelled: what they
    answer is an argument. *)

(** [x || 0] on a number: zero and NaN are falsy. *)
Definition orZero (x : num) : num :=
  match x with
  | Fin q => if Qeq_bool q 0 then nzero else x
  | NaN => nzero
  | _ => x
  end.

(** [Math.min(...xs)]: NaN when an argument is NaN, [Infinity] for no
    argument. *)
Definition Math_min (xs : list num) : num :=
  fold_left (fun lowest x =>
               match lowest, x with
               | NaN, _ | _, NaN => NaN
               | _, _ => if nltb x lowest then x else lowest
               end) xs PInf.

Module App.

(** Entries of [Route.intermediates]. *)
Record Intermediate : Type := { i_name : string; i_coords : Coords }.

(** A route with all the fields of [types.ts]; [a_intermediates] is [None]
    when the field is absent. *)
Record PageRoute : Type := {
  a_id : num;
  a_from : string;
  a_to : string;
  a_fare : num;
  a_distance : num;
  a_fromCoords : Coords;
  a_toCoords : Coords;
  a_intermediates : option (list Intermediate)
}.

(** The same object as [findBestPath] reads it. *)
Definition searchRoute (r : PageRoute) : Route :=
  {| r_from := a_from r; r_to := a_to r; r_fare := a_fare r;
     r_distance := Some (a_distance r) |}.

(** [[r.from, ...(r.intermediates?.map((i) => i.name) ?? []), r.to]]
    (lines 132, 153-157 and 363-367). *)
Definition stopSeq (r : PageRoute) : list string :=
  [a_from r]
  ++ match a_intermediates r with
     | Some l => i_name <$> l
     | None => []
     end
  ++ [a_to r].

(** Lines 152-162: the routes [handleFind] lists. *)
Definition matches (routes : list PageRoute) (from_ to_ : string) : list PageRoute :=
  filter (fun r => stopSeq r !! 0%nat = Some from_
                   /\ stopSeq r !! (length (stopSeq r) - 1)%nat = Some to_) routes.

(** Lines 170-175 and 401-406: the points handed to the map. *)
Definition coords (r : PageRoute) : list Coords :=
  let coords0 := [a_fromCoords r] in
  let coords1 :=
    match a_intermediates r with
    | Some (i :: rest) => coords0 ++ (i_coords <$> (i :: rest))
    | _ => coords0
    end in
  coords1 ++ [a_toCoords r].

(** What [handleFind] sets besides the search result. *)
Record Shown : Type := {
  matchingRoutes : list PageRoute;
  selectedRouteId : option num;
  coordsPath : list Coords
}.

(** Lines 149-185; [None] when the handler returns at once because a name
    is empty. *)
Definition handleFind (M : MathLib) (fuel : nat) (stopsArr : list Stop)
    (routes : list PageRoute) (from_ to_ : string) (priority : Priority)
    : option (Shown * outcome PathResult) :=
  if String.eqb from_ "" || String.eqb to_ "" then None
  else
    let matches := matches routes from_ to_ in
    let shown :=
      match matches with
      | firstRoute :: _ =>
          {| matchingRoutes := matches;
             selectedRouteId := Some (a_id firstRoute);
             coordsPath := coords firstRoute |}
      | [] =>
          {| matchingRoutes := matches; selectedRouteId := None; coordsPath := [] |}
      end in
    Some (shown,
          findBestPath M fuel stopsArr (searchRoute <$> routes) from_ to_ priority).

(** Entries of [segments]; [sg_to] is [None] when [routeStops[idx + 1]] is
    [undefined]. *)
Record Segment : Type := { sg_from : string; sg_to : option string; sg_fare : num }.

(** Lines 374-376. *)
Definition possibleLegs (routes : list PageRoute) (stop : string)
    (nextStop : option string) : list PageRoute :=
  filter (fun r => a_from r = stop /\ Some (a_to r) = nextStop) routes.

(** Lines 379-382. *)
Definition legFare (routes : list PageRoute) (stop : string)
    (nextStop : option string) : num :=
  let possibleLegs := possibleLegs routes stop nextStop in
  if bool_decide (0 < length possibleLegs)%nat
  then Math_min ((fun r => orZero (a_fare r)) <$> possibleLegs)
  else nzero.

(** Lines 363-389. *)
Definition segments (routes : list PageRoute) (route : PageRoute) : list Segment :=
  let routeStops := stopSeq route in
  imap (fun idx stop =>
          let nextStop := routeStops !! (idx + 1)%nat in
          {| sg_from := stop; sg_to := nextStop;
             sg_fare := legFare routes stop nextStop |})
       (take (length routeStops - 1) routeStops).

(** Line 392. *)
Definition totalFare (segments : list Segment) : num :=
  fold_left (fun acc s => nadd acc (sg_fare s)) segments nzero.

(** What the query of lines 100-104 answers: the rows, each with its fare
    ([None] for [null]), and whether an error came back. *)
Record Answer : Type := { data : option (list (option num)); error : bool }.

(** Lines 99-115. *)
Definition fetchLegFare (query : string -> string -> Answer) (from_ to_ : string) : num :=
  let answer := query from_ to_ in
  if error answer then nzero
  else
    match data answer with
    | None => nzero
    | Some d =>
        if bool_decide (length d = 0%nat) then nzero
        else Math_min (default nzero <$> d)
    end.

(** Rows as the queries of lines 27-57 return them. *)
Record StopRow : Type := { sr_name : string; sr_lat : num; sr_lng : num }.

Record RouteStopRow : Type := { rs_stop_order : num; rs_stops : StopRow }.

Record RouteRow : Type := {
  rr_id : num;
  rr_fare : num;
  rr_from_stop : StopRow;
  rr_to_stop : StopRow;
  rr_route_stops : option (list RouteStopRow)
}.

(** The comparator of line 68. *)
Definition byStopOrder (a b : RouteStopRow) : num :=
  nsub (rs_stop_order a) (rs_stop_order b).

(** Lines 69-72. *)
Definition intermediateOf (rs : RouteStopRow) : Intermediate :=
  {| i_name := sr_name (rs_stops rs);
     i_coords := (sr_lat (rs_stops rs), sr_lng (rs_stops rs)) |}.

(** Lines 62-84, for one row; [haversineDistance] is the function of
    [utils/calcDistance]. *)
Definition routeOfRow (haversineDistance : Coords -> Coords -> num) (r : RouteRow)
    : PageRoute :=
  let fromCoords := (sr_lat (rr_from_stop r), sr_lng (rr_from_stop r)) in
  let toCoords := (sr_lat (rr_to_stop r), sr_lng (rr_to_stop r)) in
  let intermediates :=
    match rr_route_stops r with
    | Some l => intermediateOf <$> sortBy byStopOrder l
    | None => []
    end in
  {| a_id := rr_id r;
     a_from := sr_name (rr_from_stop r);
     a_to := sr_name (rr_to_stop r);
     a_fare := rr_fare r;
     a_distance := haversineDistance fromCoords toCoords;
     a_fromCoords := fromCoords;
     a_toCoords := toCoords;
     a_intermediates := Some intermediates |}.

End App.

Module MapView.

(** Line 41: [[lat, lng]] to [[lng, lat]]. *)
Definition coordList (stopsCoords : list Coords) : list (num * num) :=
  (fun c => (snd c, fst c)) <$> stopsCoords.

(** Line 53: [[lng, lat]] back to [[lat, lng]]. *)
Definition line (geom : list (num * num)) : list Coords :=
  (fun pt => (snd pt, fst pt)) <$> geom.

(** Lines 80-84: the polyline on the map, [None] when none is drawn. *)
Definition polyline (roadLine : option (list Coords)) (stopsCoords : list Coords)
    : option (list Coords) :=
  match roadLine with
  | Some l =>
      if bool_decide (1 < length l)%nat then Some l
      else if bool_decide (1 < length stopsCoords)%nat then Some stopsCoords else None
  | None =>
      if bool_decide (1 < length stopsCoords)%nat then Some stopsCoords else None
  end.

End MapView.

(** ** Doubles

    The numbers of the source are IEEE-754 doubles, and the sum of two of
    them is the double nearest to their exact sum.  [toDouble] is that
    rounding and [dadd] the addition it gives.  The search is repeated below
    with the addition of lines 109-111 as a parameter: with [nadd] it is
    [findBestPath] above, with [dadd] it is the search as the source runs
    it.  The subtractions of [cmpCost] are left exact: only their sign is
    read, and rounding keeps the sign of the difference of two doubles. *)

(** The integer nearest to [n / d], the even one of two that are equally
    near ([0 <= n] and [0 < d]). *)
Definition nearestEven (n d : Z) : Z :=
  let fl := (n / d)%Z in
  match (2 * (n mod d) ?= d)%Z with
  | Lt => fl
  | Gt => (fl + 1)%Z
  | Eq => if Z.even fl then fl else (fl + 1)%Z
  end.

(** The double nearest to a rational.  A double is a whole multiple of
    [2^-1074] with at most 53 significant bits: with [N / d] the rational
    in units of [2^-1074], the doubles around it are [2^w] units apart,
    where [w] is 52 less than the binary exponent of [N / d] and not below
    zero.  The nearest of them is taken, the even one of two that are
    equally near, and an infinity from [2^1024] on. *)
Definition toDouble (q : Q) : num :=
  let N := (Z.abs (Qnum q) * 2 ^ 1074)%Z in
  let d := Zpos (Qden q) in
  let w := (Z.max (Z.log2 (N / d)) 52 - 52)%Z in
  let u := (nearestEven N (d * 2 ^ w) * 2 ^ w)%Z in
  if (2 ^ 2098 <=? u)%Z
  then (if (Qnum q <? 0)%Z then NInf else PInf)
  else Fin (Qred (Qmake (if (Qnum q <? 0)%Z then - u else u) (Z.to_pos (2 ^ 1074)))).

(** [a + b] on doubles *)
Definition dadd (a b : num) : num :=
  match a, b with
  | Fin x, Fin y => toDouble (x + y)
  | _, _ => nadd a b
  end.

(** [stepCost], [relax], [search] and [findBestPath] once more, with the
    addition as the parameter [add]. *)
Definition stepCostWith (add : num -> num -> num) (c : Cost) (edge : Edge) : Cost :=
  {| fare := add (fare c) (e_fare edge);
     stops := add (stops c) n_one;
     distance := add (distance c) (e_distance edge) |}.

Definition relaxWith (add : num -> num -> num) (priority : Priority) (current : Node)
    (st : gmap string Cost * list Node) (edge : Edge)
    : gmap string Cost * list Node :=
  let nextName := e_to edge in
  let newCost := stepCostWith add (cost current) edge in
  let bestForNext := default infCost (fst st !! nextName) in
  if nlt0 (cmpCost priority newCost bestForNext) then
    let newLeg := {| l_from := node current; l_to := nextName;
                     l_fare := e_fare edge; l_distance := e_distance edge |} in
    (<[nextName := newCost]> (fst st),
     snd st ++ [ {| node := nextName;
                    n_path := n_path current ++ [nextName];
                    n_legs := n_legs current ++ [newLeg];
                    cost := newCost |} ])
  else st.

Fixpoint searchWith (add : num -> num -> num) (fuel : nat) (priority : Priority)
    (adj : gmap string (list Edge)) (end_ : string)
    (best : gmap string Cost) (pq : list Node) : outcome PathResult :=
  match fuel with
  | O => OutOfFuel
  | S fuel' =>
      match sortBy (fun A B => cmpCost priority (cost A) (cost B)) pq with
      | [] => Returned None
      | current :: pq' =>
          match best !! node current with
          | None => Threw
          | Some currentBest =>
              if ngt0 (cmpCost priority (cost current) currentBest) then
                searchWith add fuel' priority adj end_ best pq'
              else if String.eqb (node current) end_ then
                Returned (Some (resultOf current))
              else
                let st := fold_left (relaxWith add priority current)
                            (neighborsOf adj (node current)) (best, pq') in
                searchWith add fuel' priority adj end_ (fst st) (snd st)
          end
      end
  end.

Definition findBestPathWith (add : num -> num -> num) (M : MathLib) (fuel : nat)
    (stopsArr : list Stop) (routesArr : list Route)
    (start end_ : string) (priority : Priority) : outcome PathResult :=
  if String.eqb start end_ then
    Returned (Some {| path := [start]; legs := [];
                      totalFare := nzero; totalDistance := nzero;
                      totalStops := nzero |})
  else
    searchWith add fuel priority (buildAdj M stopsArr routesArr) end_
      (initBest stopsArr start) [startNode start].

(** * Vocabulary of the properties

    The definitions the statements below are written with: the key
    sequences of the specification, walks of the graph and their cost, the
    invariant of the search loop, and the inputs of the worked examples. *)

(** ** Key sequences and the order they induce *)

Definition isFinite (a : num) : bool :=
  match a with Fin _ => true | _ => false end.

(** The key sequence a priority selects (table of section 4.2 of the
    specification). *)
Definition keys (p : Priority) (c : Cost) : list num :=
  match p with
  | ByFare => [fare c; stops c; distance c]
  | ByDistance => [distance c; fare c; stops c]
  | ByStops => [stops c; fare c; distance c]
  end.

(** "The first differing key of the first argument is smaller": walk down
    the two key sequences while the keys agree ([===]) and compare ([<]) at
    the first place where they do not. *)
Fixpoint firstDiffSmaller (ka kb : list num) : bool :=
  match ka, kb with
  | x :: ka', y :: kb' => if neqb x y then firstDiffSmaller ka' kb' else nltb x y
  | _, _ => false
  end.

(** "The two tuples agree on all keys". *)
Fixpoint agreeAll (ka kb : list num) : bool :=
  match ka, kb with
  | x :: ka', y :: kb' => neqb x y && agreeAll ka' kb'
  | [], [] => true
  | _, _ => false
  end.

(** [a] is strictly better than [b]: [cmpCost(a, b) < 0]. *)
Definition ltC (p : Priority) (a b : Cost) : bool := nlt0 (cmpCost p a b).

(** [cmpCost(a, b) > 0]. *)
Definition gtC (p : Priority) (a b : Cost) : bool := ngt0 (cmpCost p a b).

(** ** Edges of the graph *)

(** The directed edges one route stands for, each with its source stop. *)
Definition routeEdges (M : MathLib) (coords : gmap string Coords) (r : Route)
    : list (string * Edge) :=
  match coords !! r_from r, coords !! r_to r with
  | Some fromCoords, Some toCoords =>
      let dist := routeDist M r fromCoords toCoords in
      [ (r_from r, {| e_to := r_to r; e_fare := r_fare r; e_distance := dist |});
        (r_to r, {| e_to := r_from r; e_fare := r_fare r; e_distance := dist |}) ]
  | _, _ => []
  end.

(** The edges of a list that leave stop [k], in order. *)
Definition outgoing (k : string) (es : list (string * Edge)) : list Edge :=
  snd <$> filter (fun x => fst x = k) es.

(** ** Sorted frontiers *)

(** [lowest x l]: no element of [l] goes strictly before [x]. *)
Definition lowest {A : Type} (cmp : A -> A -> num) (x : A) (l : list A) : Prop :=
  Forall (fun y => ngt0 (cmp x y) = false) l.

Inductive sortedBy {A : Type} (cmp : A -> A -> num) : list A -> Prop :=
| sortedBy_nil : sortedBy cmp []
| sortedBy_cons x l : lowest cmp x l -> sortedBy cmp l -> sortedBy cmp (x :: l).

(** ** Frontier records and results *)

(** The record pushed for [edge] while [current] is expanded. *)
Definition child (current : Node) (edge : Edge) : Node :=
  {| node := e_to edge;
     n_path := n_path current ++ [e_to edge];
     n_legs := n_legs current
               ++ [ {| l_from := node current; l_to := e_to edge;
                       l_fare := e_fare edge; l_distance := e_distance edge |} ];
     cost := stepCost (cost current) edge |}.

Definition sumFares (ls : list RouteLeg) : num :=
  fold_left (fun acc l => nadd acc (l_fare l)) ls nzero.

Definition sumDistances (ls : list RouteLeg) : num :=
  fold_left (fun acc l => nadd acc (l_distance l)) ls nzero.

(** The number [n] as a JavaScript number. *)
Definition ofNat (n : nat) : num := Fin (inject_Z (Z.of_nat n)).

Record shaped (n : Node) : Prop := {
  shaped_path : length (n_path n) = S (length (n_legs n));
  shaped_stops : stops (cost n) = ofNat (length (n_legs n));
  shaped_fare : fare (cost n) = sumFares (n_legs n);
  shaped_distance : distance (cost n) = sumDistances (n_legs n)
}.

(** ** Finite non-negative costs *)

Definition fin3 (f s d : Q) : Cost :=
  {| fare := Fin f; stops := Fin s; distance := Fin d |}.

(** A cost with three finite non-negative keys. *)
Inductive good : Cost -> Prop :=
| good_fin3 f s d : 0 <= f -> 0 <= s -> 0 <= d -> good (fin3 f s d).

(** The costs the table [best] holds: a good one or the initial one. *)
Definition known (c : Cost) : Prop := good c \/ c = infCost.

(** [a] is not worse than [b]. *)
Definition leC (p : Priority) (a b : Cost) : Prop := ltC p b a = false.

Definition lex3 (x1 x2 x3 y1 y2 y3 : Q) : Prop :=
  x1 < y1 \/ (x1 == y1 /\ (x2 < y2 \/ (x2 == y2 /\ x3 < y3))).

Definition qlt (p : Priority) (f s d f' s' d' : Q) : Prop :=
  match p with
  | ByFare => lex3 f s d f' s' d'
  | ByDistance => lex3 d f s d' f' s'
  | ByStops => lex3 s f d s' f' d'
  end.

Definition nonnegb (x : num) : bool :=
  match x with
  | Fin q => Qle_bool 0 q
  | _ => false
  end.

Definition goodEdgeb (e : Edge) : bool := nonnegb (e_fare e) && nonnegb (e_distance e).

(** Every edge of the adjacency map has a finite non-negative fare and
    distance. *)
Definition nonnegCosts (adj : gmap string (list Edge)) : bool :=
  forallb (fun kv => forallb goodEdgeb (snd kv)) (map_to_list adj).

(** ** Walks, and the invariant of the search loop *)

(** [best.get(v) ?? { fare: Infinity, ... }] *)
Definition bestOf (best : gmap string Cost) (v : string) : Cost :=
  default infCost (best !! v).

(** A frontier record for [v] that the duplicate test would let through. *)
Definition liveb (p : Priority) (best : gmap string Cost) (v : string) (n : Node) : bool :=
  bool_decide (node n = v) && negb (gtC p (cost n) (bestOf best v)).

Definition liveCount (p : Priority) (best : gmap string Cost) (v : string)
    (pq : list Node) : nat :=
  length (filter (fun n => liveb p best v n = true) pq).

(** Walks of the graph and what they cost. *)
Fixpoint isWalk (adj : gmap string (list Edge)) (u : string) (es : list Edge)
    (v : string) : Prop :=
  match es with
  | [] => u = v
  | e :: es' => e ∈ neighborsOf adj u /\ isWalk adj (e_to e) es' v
  end.

Definition walkCost (es : list Edge) : Cost := fold_left stepCost es zeroCost.

(** Adjacency entries of the stops that have not been expanded. *)
Definition pendingIn (l : list (string * list Edge)) (done : gset string) : nat :=
  sum_list ((fun kv => if decide (fst kv ∈ done) then 0%nat else length (snd kv)) <$> l).

Definition pending (adj : gmap string (list Edge)) (done : gset string) : nat :=
  pendingIn (map_to_list adj) done.


(** What holds of the table [best] and the frontier [pq] at the head of the
    loop.  [done] is the set of stops expanded so far and [m] the cost of
    the last record expanded. *)
Record Core (p : Priority) (start : string) (done : gset string) (m : Cost)
    (best : gmap string Cost) (pq : list Node) : Prop := {
  core_m : good m;
  core_known : forall v c, best !! v = Some c -> known c;
  core_pq : forall n, n ∈ pq ->
    good (cost n) /\ leC p m (cost n)
    /\ exists c, best !! node n = Some c /\ leC p c (cost n);
  core_live : forall v c, best !! v = Some c -> good c -> v ∉ done ->
    exists n, n ∈ pq /\ node n = v /\ cost n = c;
  core_done : forall v, v ∈ done ->
    exists c, best !! v = Some c /\ good c /\ leC p c m;
  core_start : best !! start = Some zeroCost;
  core_stale : forall v n, v ∈ done -> n ∈ pq -> node n = v ->
    gtC p (cost n) (bestOf best v) = true;
  core_unique : forall v, (liveCount p best v pq <= 1)%nat
}.
Arguments core_m {p start done m best pq} _.
Arguments core_known {p start done m best pq} _.
Arguments core_pq {p start done m best pq} _.
Arguments core_live {p start done m best pq} _.
Arguments core_done {p start done m best pq} _.
Arguments core_start {p start done m best pq} _.
Arguments core_stale {p start done m best pq} _.
Arguments core_unique {p start done m best pq} _.

(** Every edge out of an expanded stop has been relaxed. *)
Definition Relaxed (p : Priority) (adj : gmap string (list Edge))
    (done : gset string) (best : gmap string Cost) : Prop :=
  forall v e, v ∈ done -> e ∈ neighborsOf adj v ->
    leC p (bestOf best (e_to e)) (stepCost (bestOf best v) e).

(** The edge a leg was made from. *)
Definition legEdge (l : RouteLeg) : Edge :=
  {| e_to := l_to l; e_fare := l_fare l; e_distance := l_distance l |}.

(** The legs of a frontier record spell a walk from [start] to its stop,
    and its cost and path are those of the walk. *)
Record tracks (adj : gmap string (list Edge)) (start : string) (n : Node) : Prop := {
  tracks_walk : isWalk adj start (legEdge <$> n_legs n) (node n);
  tracks_cost : cost n = walkCost (legEdge <$> n_legs n);
  tracks_path : n_path n = start :: (l_to <$> n_legs n)
}.

(** What a result is compared by. *)
Definition resultCost (r : PathResult) : Cost :=
  {| fare := totalFare r; stops := totalStops r; distance := totalDistance r |}.

(** ** Inputs of the worked examples *)

(** A library whose functions all answer NaN.  Every route below declares
    its distance, so [haversine] is not evaluated on them. *)
Definition mathNaN : MathLib :=
  {| Math_PI := NaN;
     Math_sin := fun _ => NaN;
     Math_cos := fun _ => NaN;
     Math_sqrt := fun _ => NaN;
     Math_atan2 := fun _ _ => NaN |}.

Definition mkStop (n : string) (lat lng : Q) : Stop :=
  {| s_name := n; s_coords := (Fin lat, Fin lng) |}.

Definition mkRoute (a b : string) (f d : Q) : Route :=
  {| r_from := a; r_to := b; r_fare := Fin f; r_distance := Some (Fin d) |}.

Definition mkEdge (b : string) (f d : Q) : Edge :=
  {| e_to := b; e_fare := Fin f; e_distance := Fin d |}.

Definition mkLeg (a b : string) (f d : Q) : RouteLeg :=
  {| l_from := a; l_to := b; l_fare := Fin f; l_distance := Fin d |}.

(** The scenario of section 8 of the specification. *)
Definition stopsABC : list Stop :=
  [mkStop "A" 0 0; mkStop "B" 0 1; mkStop "C" 0 2].

Definition routesABC : list Route :=
  [mkRoute "A" "B" 1 111; mkRoute "B" "C" 1 111; mkRoute "A" "C" 5 222].

Definition resultABC : PathResult :=
  {| path := ["A"; "B"; "C"];
     legs := [mkLeg "A" "B" 1 111; mkLeg "B" "C" 1 111];
     totalFare := Fin 2; totalDistance := Fin 222; totalStops := Fin 2 |}.

Definition resultAC : PathResult :=
  {| path := ["A"; "C"];
     legs := [mkLeg "A" "C" 5 222];
     totalFare := Fin 5; totalDistance := Fin 222; totalStops := Fin 1 |}.

(** The same stops with a self-loop at A. *)
Definition routesLoop : list Route :=
  mkRoute "A" "A" 0 0 :: routesABC.

(** A route with a negative fare. *)
Definition routesNeg : list Route :=
  [mkRoute "A" "C" 1 1; mkRoute "A" "B" 2 1; mkRoute "B" "C" (-5) 1].

(** One route with a negative fare between A and B: going back and forth
    lowers the fare without end. *)
Definition routesCycle : list Route := [mkRoute "A" "B" (-1) 0].

Definition stopNames (stopsArr : list Stop) : list string := s_name <$> stopsArr.

(** A stand-in library with rational values: [sin x] is [x], [cos x] is 1,
    [sqrt x] is [x], [atan2 y x] is [y].  It makes [haversine] finite,
    non-negative and symmetric, which is all the examples below rely on. *)
Definition mathFlat : MathLib :=
  {| Math_PI := Fin (355 # 113);
     Math_sin := fun x => x;
     Math_cos := fun _ => Fin 1;
     Math_sqrt := fun x => x;
     Math_atan2 := fun y _ => y |}.

(** The "distance fallback" input of section 8: no declared distance. *)
Definition stopsAB : list Stop := [mkStop "A" 0 0; mkStop "B" 0 1].


(** ** Relating the two versions *)




(** The table [best] has an entry for every stop name. *)
Definition covers (stopsArr : list Stop) (best : gmap string Cost) : Prop :=
  forall n, n ∈ stopNames stopsArr -> is_Some (best !! n).


(** The scenario of section 8 without declared distances. *)
Definition routesBare : list Route :=
  [ {| r_from := "A"; r_to := "B"; r_fare := Fin 1; r_distance := None |};
    {| r_from := "B"; r_to := "C"; r_fare := Fin 1; r_distance := None |};
    {| r_from := "A"; r_to := "C"; r_fare := Fin 5; r_distance := None |} ].

(** ** Further vocabulary: results, frontiers and the page *)

(** The call ended in an exception. *)
Definition threw {A : Type} (o : outcome A) : bool :=
  match o with
  | Threw => true
  | _ => false
  end.

(** Every frontier record has an entry in [best]. *)
Definition indexed (best : gmap string Cost) (pq : list Node) : Prop :=
  Forall (fun n => is_Some (best !! node n)) pq.

(** Each leg of a frontier record leaves the stop the one before it
    arrived at. *)
Definition linked (n : Node) : Prop :=
  n_path n = (l_from <$> n_legs n) ++ [node n].

(** The leg [l] runs along the route [r], in one of its two directions,
    with the fare of [r] and the distance [findBestPath.ts] gives it. *)
Definition legOfRoute (M : MathLib) (coords : gmap string Coords)
    (r : Route) (l : RouteLeg) : Prop :=
  exists fc tc,
    coords !! r_from r = Some fc /\ coords !! r_to r = Some tc
    /\ l_fare l = r_fare r
    /\ l_distance l = routeDist M r fc tc
    /\ ((l_from l = r_from r /\ l_to l = r_to r)
        \/ (l_from l = r_to r /\ l_to l = r_from r)).

Definition fromRoutes (M : MathLib) (coords : gmap string Coords)
    (routesArr : list Route) (ls : list RouteLeg) : Prop :=
  Forall (fun l => exists r, r ∈ routesArr /\ legOfRoute M coords r l) ls.

(** The edge [e] out of [k], turned around. *)
Definition reverseEdge (k : string) (e : Edge) : Edge :=
  {| e_to := k; e_fare := e_fare e; e_distance := e_distance e |}.

(** The path of a frontier record visits no stop twice, and every stop on
    it but the last has been expanded. *)
Definition simple (done : gset string) (n : Node) : Prop :=
  NoDup (n_path n) /\ forall v, v ∈ n_path n -> v = node n \/ v ∈ done.


(** The record [findPath.ts] pushes for [leg] towards [neighbor]. *)
Definition legacyChild (n : Legacy.Node) (neighbor : string) (leg : RouteLeg)
    : Legacy.Node :=
  {| Legacy.q_stop := neighbor;
     Legacy.q_path := Legacy.q_path n ++ [neighbor];
     Legacy.q_legs := Legacy.q_legs n ++ [leg];
     Legacy.q_fare := nadd (Legacy.q_fare n) (l_fare leg);
     Legacy.q_stopsCount := nadd (Legacy.q_stopsCount n) n_one;
     Legacy.q_distance := nadd (Legacy.q_distance n) (l_distance leg) |}.

(** The legs of lines 97 and 122 of [findPath.ts]. *)
Definition forwardLeg (M : MathLib) (r : Route) (fromCoords toCoords : Coords)
    : RouteLeg :=
  {| l_from := r_from r; l_to := r_to r; l_fare := r_fare r;
     l_distance := Legacy.haversineDistance M fromCoords toCoords |}.

Definition reverseLeg (M : MathLib) (r : Route) (fromCoords toCoords : Coords)
    : RouteLeg :=
  {| l_from := r_to r; l_to := r_from r; l_fare := r_fare r;
     l_distance := Legacy.haversineDistance M fromCoords toCoords |}.

(** Every name that resolves and every frontier record has an entry in
    [bestCost]. *)
Definition legacyIndexed (coords : gmap string Coords)
    (st : gmap string Cost * list Legacy.Node) : Prop :=
  (forall k, is_Some (coords !! k) -> is_Some (fst st !! k))
  /\ Forall (fun n => is_Some (fst st !! Legacy.q_stop n)) (snd st).


(** The leg [l] runs along the route [r] with the fare of [r] and the
    haversine distance of the coordinates of its two stops. *)
Definition haversineLeg (M : MathLib) (coords : gmap string Coords)
    (r : Route) (l : RouteLeg) : Prop :=
  exists fc tc,
    coords !! l_from l = Some fc /\ coords !! l_to l = Some tc
    /\ l_fare l = r_fare r
    /\ l_distance l = Legacy.haversineDistance M fc tc
    /\ ((l_from l = r_from r /\ l_to l = r_to r)
        \/ (l_from l = r_to r /\ l_to l = r_from r)).

Definition notNaN (x : num) : bool :=
  match x with
  | NaN => false
  | _ => true
  end.

(** [m] is an entry of [xs] and no entry is smaller. *)
Definition leastOf (m : num) (xs : list num) : Prop :=
  m ∈ xs /\ Forall (fun x => nltb x m = false) xs.

(** Page routes over the stops A, B, C: two routes from A to C, the second
    cheaper and calling at B, and the two routes it is made of. *)
Definition mkPageRoute (id : Q) (a b : string) (f d : Q)
    (via : option (list App.Intermediate)) : App.PageRoute :=
  {| App.a_id := Fin id; App.a_from := a; App.a_to := b;
     App.a_fare := Fin f; App.a_distance := Fin d;
     App.a_fromCoords := (Fin 0, Fin 0); App.a_toCoords := (Fin 0, Fin 2);
     App.a_intermediates := via |}.

Definition pageDirect : App.PageRoute := mkPageRoute 1 "A" "C" 5 222 None.

Definition pageVia : App.PageRoute :=
  mkPageRoute 2 "A" "C" 4 222
    (Some [ {| App.i_name := "B"; App.i_coords := (Fin 0, Fin 1) |} ]).

Definition pageRoutes : list App.PageRoute :=
  [pageDirect; pageVia; mkPageRoute 3 "A" "B" 1 111 None;
   mkPageRoute 4 "B" "C" 1 111 None].

(** A row whose route stops come back out of order. *)
Definition rowStops : list App.RouteStopRow :=
  [ {| App.rs_stop_order := Fin 2;
       App.rs_stops := {| App.sr_name := "C"; App.sr_lat := Fin 0; App.sr_lng := Fin 2 |} |};
    {| App.rs_stop_order := Fin 1;
       App.rs_stops := {| App.sr_name := "B"; App.sr_lat := Fin 0; App.sr_lng := Fin 1 |} |} ].

Definition rowAD : App.RouteRow :=
  {| App.rr_id := Fin 7; App.rr_fare := Fin 3;
     App.rr_from_stop := {| App.sr_name := "A"; App.sr_lat := Fin 0; App.sr_lng := Fin 0 |};
     App.rr_to_stop := {| App.sr_name := "D"; App.sr_lat := Fin 0; App.sr_lng := Fin 3 |};
     App.rr_route_stops := Some rowStops |}.

(** ** Costs that add without rounding *)

(** [q] is a whole multiple of [2^-k]. *)
Definition onGrid (k : nat) (q : Q) : bool :=
  ((Qnum q * 2 ^ Z.of_nat k) mod Zpos (Qden q) =? 0)%Z.

(** A finite non-negative whole multiple of [2^-k]. *)
Definition gridb (k : nat) (x : num) : bool :=
  match x with
  | Fin q => Qle_bool 0 q && onGrid k q
  | _ => false
  end.

Definition gridEdgeb (k : nat) (e : Edge) : bool :=
  gridb k (e_fare e) && gridb k (e_distance e).

(** The entries of all adjacency lists. *)
Definition edgesOf (adj : gmap string (list Edge)) : list Edge :=
  map_to_list adj ≫= snd.

Definition finPart (x : num) : Q :=
  match x with
  | Fin q => q
  | _ => 0
  end.

Definition total (f : Edge -> num) (es : list Edge) : Q :=
  fold_right (fun e acc => finPart (f e) + acc) 0 es.

(** [q] is less than [2^53] multiples of [2^-k]. *)
Definition below53 (k : nat) (q : Q) : bool :=
  negb (Qle_bool (inject_Z (2 ^ 53)) (q * inject_Z (2 ^ Z.of_nat k))).

(** The fares and distances of the graph add without rounding: they are
    finite non-negative whole multiples of [2^-k], with [2^-k] not below
    the smallest double, and the fares of all adjacency entries together,
    and their distances, are less than [2^53] such multiples; the entries
    themselves number less than [2^53]. *)
Definition exactCosts (k : nat) (adj : gmap string (list Edge)) : bool :=
  (k <=? 1074)%nat
  && forallb (gridEdgeb k) (edgesOf adj)
  && below53 k (total e_fare (edgesOf adj))
  && below53 k (total e_distance (edgesOf adj))
  && (Z.of_nat (length (edgesOf adj)) <? 2 ^ 53)%Z.

(** The stops the edges of a walk from [u] leave. *)
Fixpoint srcs (u : string) (es : list Edge) : list string :=
  match es with
  | [] => []
  | e :: es' => u :: srcs (e_to e) es'
  end.

(** Two representations of one number. *)
Definition numEq (a b : num) : Prop :=
  match a, b with
  | Fin x, Fin y => x == y
  | PInf, PInf | NInf, NInf | NaN, NaN => True
  | _, _ => False
  end.

Definition costEq (a b : Cost) : Prop :=
  numEq (fare a) (fare b) /\ numEq (stops a) (stops b)
  /\ numEq (distance a) (distance b).

Definition nodeEq (a b : Node) : Prop :=
  node a = node b /\ n_path a = n_path b /\ n_legs a = n_legs b
  /\ costEq (cost a) (cost b).

Definition bestEq (a b : gmap string Cost) : Prop :=
  forall v, option_Forall2 costEq (a !! v) (b !! v).

Definition resultEq (a b : PathResult) : Prop :=
  path a = path b /\ legs a = legs b /\ costEq (resultCost a) (resultCost b).

(** Two calls end the same way, with the same result up to the
    representation of its totals. *)
Definition outcomeEq (a b : outcome PathResult) : Prop :=
  match a, b with
  | Returned (Some r), Returned (Some r') => resultEq r r'
  | Returned None, Returned None | Threw, Threw | OutOfFuel, OutOfFuel => True
  | _, _ => False
  end.

(** [x] is at least [2^53] multiples of [2^-k]. *)
Definition atLeast53 (k : nat) (x : num) : Prop :=
  match x with
  | Fin q => inject_Z (2 ^ 53) <= q * inject_Z (2 ^ Z.of_nat k)
  | PInf => True
  | _ => False
  end.

(** A sum on doubles [x'] against the exact sum [x]: they are one number,
    or both have left the range in which the sums are exact. *)
Definition sameOrBeyond (k : nat) (x' x : num) : Prop :=
  numEq x' x \/ (atLeast53 k x' /\ atLeast53 k x).

(** The cost of a walk with [add] for the addition: with [dadd], what its
    fares and distances come to when they are added one after the other on
    doubles, as the search adds them. *)
Definition walkCostWith (add : num -> num -> num) (es : list Edge) : Cost :=
  fold_left (stepCostWith add) es zeroCost.

(** Four stops and four routes with the fares 0.1, 0.7, 0.8 and 2 (the
    doubles these literals denote), each one kilometre long. *)
Definition stopsSYXT : list Stop :=
  [mkStop "S" 0 0; mkStop "Y" 0 1; mkStop "X" 0 2; mkStop "T" 0 3].

Definition routeOf (a b : string) (f d : num) : Route :=
  {| r_from := a; r_to := b; r_fare := f; r_distance := Some d |}.

Definition routesTenths : list Route :=
  [routeOf "S" "Y" (toDouble (1 # 10)) (Fin 1);
   routeOf "Y" "X" (toDouble (7 # 10)) (Fin 1);
   routeOf "S" "X" (toDouble (8 # 10)) (Fin 1);
   routeOf "X" "T" (Fin 2) (Fin 1)].

(** * Properties *)

(** ** Numbers *)

Lemma Qle_bool_false (x y : Q) : Qle_bool x y = false <-> y < x.
Proof.
  split; intros H.
  - apply Qnot_le_lt. intros Hle. apply Qle_bool_iff in Hle. congruence.
  - destruct (Qle_bool x y) eqn:E; [|reflexivity].
    apply Qle_bool_iff in E. lra.
Qed.

Lemma Qeq_bool_false (x y : Q) : Qeq_bool x y = false <-> ~ x == y.
Proof.
  split; intros H.
  - intros Heq. apply Qeq_bool_iff in Heq. congruence.
  - destruct (Qeq_bool x y) eqn:E; [|reflexivity].
    apply Qeq_bool_iff in E. contradiction.
Qed.

(** Turns every boolean test on rationals in sight into the proposition it
    decides. *)
Ltac qtests :=
  repeat match goal with
  | H : Qle_bool _ _ = true |- _ => apply Qle_bool_iff in H
  | H : Qle_bool _ _ = false |- _ => apply Qle_bool_false in H
  | H : Qeq_bool _ _ = true |- _ => apply Qeq_bool_iff in H
  | H : Qeq_bool _ _ = false |- _ => apply Qeq_bool_false in H
  | |- context [Qeq_bool ?x ?y] => destruct (Qeq_bool x y) eqn:?; simpl
  | |- context [Qle_bool ?x ?y] => destruct (Qle_bool x y) eqn:?; simpl
  | H : context [Qeq_bool ?x ?y] |- _ => destruct (Qeq_bool x y) eqn:?; simpl in H
  | H : context [Qle_bool ?x ?y] |- _ => destruct (Qle_bool x y) eqn:?; simpl in H
  end.

Ltac qsolve := qtests; try discriminate; try reflexivity; try lra.

(** [a - b < 0] is [a < b], also at the infinities and at NaN. *)
Lemma nsub_lt0 (a b : num) : nlt0 (nsub a b) = nltb a b.
Proof. destruct a, b; simpl; try reflexivity; unfold nlt0; simpl; qsolve. Qed.

(** [a - b > 0] is [b < a]. *)
Lemma nsub_gt0 (a b : num) : ngt0 (nsub a b) = nltb b a.
Proof. destruct a, b; simpl; try reflexivity; unfold ngt0; simpl; qsolve. Qed.

Lemma neqb_sym (a b : num) : neqb a b = neqb b a.
Proof. destruct a, b; simpl; try reflexivity; qsolve. Qed.

Lemma nltb_neqb (a b : num) : nltb a b = true -> neqb a b = false.
Proof. destruct a, b; simpl; try reflexivity; try discriminate; qsolve. Qed.

(** [a - b === 0] exactly when [a === b] and they are finite. *)
Lemma nsub_zero (a b : num) :
  neqb (nsub a b) nzero = neqb a b && isFinite a.
Proof. destruct a, b; simpl; try reflexivity; qsolve. Qed.

(** ** The cost order *)

Lemma nltb_last (x y : num) : (if neqb x y then false else nltb x y) = nltb x y.
Proof.
  destruct (neqb x y) eqn:E; [|reflexivity].
  destruct (nltb x y) eqn:L; [|reflexivity].
  apply nltb_neqb in L. congruence.
Qed.

Lemma ltC_lex (p : Priority) (a b : Cost) :
  ltC p a b = firstDiffSmaller (keys p a) (keys p b).
Proof.
  unfold ltC, cmpCost.
  destruct p; simpl; rewrite nltb_last;
    repeat match goal with
           | |- context [neqb ?x ?y] => destruct (neqb x y); simpl
           end; apply nsub_lt0.
Qed.

Lemma gtC_lex (p : Priority) (a b : Cost) :
  gtC p a b = firstDiffSmaller (keys p b) (keys p a).
Proof.
  unfold gtC, cmpCost.
  destruct p; simpl; rewrite nltb_last;
    rewrite ?(neqb_sym (fare b)), ?(neqb_sym (stops b)), ?(neqb_sym (distance b));
    repeat match goal with
           | |- context [neqb ?x ?y] => destruct (neqb x y); simpl
           end; apply nsub_gt0.
Qed.

Lemma gtC_ltC (p : Priority) (a b : Cost) : gtC p a b = ltC p b a.
Proof. now rewrite gtC_lex, ltC_lex. Qed.

(** ** The graph builder *)

Lemma neighborsOf_pushEdge (k : string) (e : Edge)
    (adj : gmap string (list Edge)) (k' : string) :
  neighborsOf (pushEdge k e adj) k' = neighborsOf adj k' ++ outgoing k' [(k, e)].
Proof.
  unfold neighborsOf, pushEdge, outgoing.
  rewrite filter_cons, filter_nil. simpl.
  destruct (decide (k = k')) as [->|Hne].
  - rewrite lookup_alter_eq. simpl.
    destruct (adj !! k') eqn:E; simpl.
    + rewrite E. reflexivity.
    + rewrite lookup_insert_eq. reflexivity.
  - rewrite lookup_alter_ne by done. simpl.
    destruct (adj !! k) eqn:E; simpl.
    + rewrite app_nil_r. reflexivity.
    + rewrite lookup_insert_ne by done. rewrite app_nil_r. reflexivity.
Qed.

Lemma outgoing_app (k : string) (es es' : list (string * Edge)) :
  outgoing k (es ++ es') = outgoing k es ++ outgoing k es'.
Proof. unfold outgoing. now rewrite filter_app, fmap_app. Qed.

Lemma neighborsOf_addRoute (M : MathLib) (coords : gmap string Coords)
    (adj : gmap string (list Edge)) (r : Route) (k : string) :
  neighborsOf (addRoute M coords adj r) k
  = neighborsOf adj k ++ outgoing k (routeEdges M coords r).
Proof.
  unfold addRoute, routeEdges.
  destruct (coords !! r_from r) as [fc|]; [destruct (coords !! r_to r) as [tc|]|].
  - rewrite !neighborsOf_pushEdge, <- app_assoc, <- outgoing_app. reflexivity.
  - unfold outgoing. rewrite filter_nil. simpl. now rewrite app_nil_r.
  - unfold outgoing. rewrite filter_nil. simpl. now rewrite app_nil_r.
Qed.

Lemma neighborsOf_fold (M : MathLib) (coords : gmap string Coords)
    (routesArr : list Route) (adj : gmap string (list Edge)) (k : string) :
  neighborsOf (fold_left (addRoute M coords) routesArr adj) k
  = neighborsOf adj k ++ outgoing k (routesArr ≫= routeEdges M coords).
Proof.
  revert adj. induction routesArr as [|r rs IH]; intros adj; simpl.
  - unfold outgoing. rewrite filter_nil. simpl. now rewrite app_nil_r.
  - rewrite IH, neighborsOf_addRoute, outgoing_app, app_assoc. reflexivity.
Qed.

(** The adjacency list of a stop holds the edges of all routes that leave
    it, in the order of the route list. *)
Lemma neighborsOf_buildAdj (M : MathLib) (stopsArr : list Stop)
    (routesArr : list Route) (k : string) :
  neighborsOf (buildAdj M stopsArr routesArr) k
  = outgoing k (routesArr ≫= routeEdges M (coordsByName stopsArr)).
Proof. unfold buildAdj. rewrite neighborsOf_fold. reflexivity. Qed.

(** ** Claims about [cmpCost] and the degenerate case *)

Lemma agreeAll_keys_last (p : Priority) (a b : Cost) (k : num) :
  last (keys p a) = Some k ->
  neqb (cmpCost p a b) nzero = agreeAll (keys p a) (keys p b) && isFinite k.
Proof.
  intros Hk. unfold cmpCost.
  destruct p; simpl in *; injection Hk as <-;
    repeat match goal with
           | |- context [negb (neqb ?x ?y)] =>
               let E := fresh "E" in
               destruct (neqb x y) eqn:E; simpl;
               [| rewrite nsub_zero, E; reflexivity ]
           end;
    rewrite nsub_zero, ?andb_true_r; reflexivity.
Qed.

(** C3: when the start name equals the end name, [findBestPath] returns at
    once the result with the one-stop path, no legs and all three totals
    zero, whatever the stops, routes and priority are. *)
Theorem findBestPath_same_stop (M : MathLib) (fuel : nat)
    (stopsArr : list Stop) (routesArr : list Route)
    (start : string) (priority : Priority) :
  findBestPath M fuel stopsArr routesArr start start priority
  = Returned (Some {| path := [start]; legs := [];
                      totalFare := nzero; totalDistance := nzero;
                      totalStops := nzero |}).
Proof. unfold findBestPath. now rewrite String.eqb_refl. Qed.

(** C2 as stated fails where two tuples agree on an infinite last key: the
    initial best cost compared with itself gives [Infinity - Infinity], which
    is NaN and not zero. *)
Lemma cmpCost_infinite_tie_not_zero :
  agreeAll (keys ByFare infCost) (keys ByFare infCost) = true
  /\ cmpCost ByFare infCost infCost = NaN
  /\ ~ (neqb (cmpCost ByFare infCost infCost) nzero = true
        <-> agreeAll (keys ByFare infCost) (keys ByFare infCost) = true).
Proof.
  split; [reflexivity|]. split; [reflexivity|].
  intros [_ H]. specialize (H eq_refl). discriminate.
Qed.

(** C2, amended: for every priority [cmpCost] compares by the key sequence
    of that priority; the result is negative exactly when the first
    differing key of the first argument is smaller, positive exactly when
    that of the second argument is smaller, and zero exactly when the tuples
    agree on all three keys and the last key of the sequence is finite.  On
    tuples that agree with an infinite last key the result is NaN, which is
    neither negative nor positive. *)
Theorem cmpCost_by_priority_keys (p : Priority) (a b : Cost) :
  keys p a = match p with
             | ByFare => [fare a; stops a; distance a]
             | ByDistance => [distance a; fare a; stops a]
             | ByStops => [stops a; fare a; distance a]
             end
  /\ nlt0 (cmpCost p a b) = firstDiffSmaller (keys p a) (keys p b)
  /\ ngt0 (cmpCost p a b) = firstDiffSmaller (keys p b) (keys p a)
  /\ (forall k, last (keys p a) = Some k ->
        neqb (cmpCost p a b) nzero
        = agreeAll (keys p a) (keys p b) && isFinite k)
  /\ (forall k, last (keys p a) = Some k ->
        agreeAll (keys p a) (keys p b) = true -> isFinite k = false ->
        cmpCost p a b = NaN).
Proof.
  split; [reflexivity|].
  split; [apply ltC_lex|].
  split; [apply gtC_lex|].
  split; [intros k; apply agreeAll_keys_last|].
  intros k Hk Hag Hfin. unfold cmpCost.
  destruct p; simpl in *; injection Hk as <-;
    apply andb_true_iff in Hag as [H1 Hag];
    apply andb_true_iff in Hag as [H2 Hag];
    apply andb_true_iff in Hag as [H3 _];
    rewrite H1, H2; simpl.
  - destruct (distance a), (distance b); try discriminate; reflexivity.
  - destruct (stops a), (stops b); try discriminate; reflexivity.
  - destruct (distance a), (distance b); try discriminate; reflexivity.
Qed.

(** ** Sorting *)

Section SortFacts.
Context {A : Type} (cmp : A -> A -> num).

Lemma insertBy_perm (x : A) (l : list A) : insertBy cmp x l ≡ₚ x :: l.
Proof.
  induction l as [|y l IH]; simpl; [reflexivity|].
  destruct (ngt0 (cmp y x)); [reflexivity|].
  rewrite IH. apply Permutation_swap.
Qed.

Lemma sortBy_perm_acc (l acc : list A) :
  fold_left (fun acc x => insertBy cmp x acc) l acc ≡ₚ acc ++ l.
Proof.
  revert acc. induction l as [|x l IH]; intros acc; simpl.
  - now rewrite app_nil_r.
  - rewrite IH, insertBy_perm. simpl. apply Permutation_middle.
Qed.

Lemma sortBy_perm (l : list A) : sortBy cmp l ≡ₚ l.
Proof. unfold sortBy. now rewrite sortBy_perm_acc. Qed.

(** The comparator is a total preorder on the elements that satisfy [D]. *)
Variable D : A -> Prop.
Hypothesis cmp_total : forall x y, D x -> D y ->
  ngt0 (cmp x y) = false \/ ngt0 (cmp y x) = false.
Hypothesis cmp_trans : forall x y z, D x -> D y -> D z ->
  ngt0 (cmp x y) = false -> ngt0 (cmp y z) = false -> ngt0 (cmp x z) = false.

Lemma insertBy_sorted (x : A) (l : list A) :
  D x -> Forall D l -> sortedBy cmp l -> sortedBy cmp (insertBy cmp x l).
Proof.
  intros Hx HD Hs. induction Hs as [|y l Hy Hs IH]; simpl.
  - constructor; [constructor|constructor].
  - apply Forall_cons in HD as [Dy HD].
    destruct (ngt0 (cmp y x)) eqn:E.
    + constructor; [|constructor; assumption].
      destruct (cmp_total x y Hx Dy) as [Hxy|Hyx]; [|congruence].
      constructor; [assumption|].
      unfold lowest in *. rewrite Forall_forall in *. intros z Hz.
      apply (cmp_trans x y z); auto.
    + constructor; [|apply IH; assumption].
      unfold lowest. rewrite insertBy_perm. constructor; assumption.
Qed.

Lemma sortBy_sorted_acc (l acc : list A) :
  Forall D l -> Forall D acc -> sortedBy cmp acc ->
  sortedBy cmp (fold_left (fun acc x => insertBy cmp x acc) l acc).
Proof.
  revert acc. induction l as [|x l IH]; intros acc Hl Hacc Hs; simpl; [assumption|].
  apply Forall_cons in Hl as [Hx Hl].
  apply IH; [assumption| |apply insertBy_sorted; assumption].
  rewrite insertBy_perm. constructor; assumption.
Qed.

Lemma sortBy_sorted (l : list A) : Forall D l -> sortedBy cmp (sortBy cmp l).
Proof. intros Hl. apply sortBy_sorted_acc; [assumption|constructor|constructor]. Qed.

(** After the sort, the head is a least element of the frontier. *)
Lemma sortBy_head (l : list A) (x : A) (l' : list A) :
  Forall D l -> sortBy cmp l = x :: l' -> lowest cmp x l' /\ x :: l' ≡ₚ l.
Proof.
  intros Hl E. split.
  - pose proof (sortBy_sorted l Hl) as Hs. rewrite E in Hs.
    inversion Hs; assumption.
  - rewrite <- E. apply sortBy_perm.
Qed.
End SortFacts.

(** ** Frontier records are built by extension *)

Lemma relax_eq (p : Priority) (current : Node)
    (st : gmap string Cost * list Node) (edge : Edge) :
  relax p current st edge
  = if ltC p (stepCost (cost current) edge)
         (default infCost (fst st !! e_to edge))
    then (<[e_to edge := stepCost (cost current) edge]> (fst st),
          snd st ++ [child current edge])
    else st.
Proof. reflexivity. Qed.

Section Closed.
Variable P : Node -> Prop.
Variable adj : gmap string (list Edge).
Hypothesis P_child : forall n e, P n -> e ∈ neighborsOf adj (node n) -> P (child n e).

Lemma relax_closed (p : Priority) (current : Node) (es : list Edge)
    (st : gmap string Cost * list Node) :
  P current -> (forall e, e ∈ es -> e ∈ neighborsOf adj (node current)) ->
  Forall P (snd st) ->
  Forall P (snd (fold_left (relax p current) es st)).
Proof.
  intros Hc. revert st. induction es as [|e es IH]; intros st Hes Hst; simpl; [assumption|].
  apply IH; [intros e' He'; apply Hes; right; assumption|].
  rewrite relax_eq.
  destruct (ltC p _ _); simpl; [|assumption].
  apply Forall_app; split; [assumption|].
  constructor; [apply P_child; [assumption|apply Hes; left]|constructor].
Qed.

(** Whatever the search returns was read off a frontier record that
    satisfies every property the start record has and extension along an
    edge of the graph keeps. *)
Lemma search_returns_closed (fuel : nat) (p : Priority) (end_ : string)
    (best : gmap string Cost) (pq : list Node) (r : PathResult) :
  Forall P pq ->
  search fuel p adj end_ best pq = Returned (Some r) ->
  exists n, P n /\ node n = end_ /\ r = resultOf n.
Proof.
  revert best pq. induction fuel as [|fuel IH]; intros best pq Hpq; simpl; [discriminate|].
  destruct (sortBy _ pq) as [|cur pq'] eqn:Es; [discriminate|].
  assert (Hs : Forall P (cur :: pq')).
  { rewrite <- Es. rewrite sortBy_perm. assumption. }
  apply Forall_cons in Hs as [Hcur Hpq'].
  destruct (best !! node cur) as [cb|]; [|discriminate].
  destruct (ngt0 _); [apply IH; assumption|].
  destruct (String.eqb (node cur) end_) eqn:Ee.
  - intros [= <-]. exists cur. apply String.eqb_eq in Ee. auto.
  - apply IH. apply relax_closed; auto.
Qed.
End Closed.

(** ** Shape and totals of a result *)

Lemma ofNat_succ (n : nat) : nadd (ofNat n) n_one = ofNat (S n).
Proof.
  unfold ofNat, n_one, nadd, Qplus, inject_Z. simpl.
  f_equal. f_equal. lia.
Qed.

Lemma shaped_start (start : string) : shaped (startNode start).
Proof. split; reflexivity. Qed.

Lemma shaped_child (n : Node) (e : Edge) : shaped n -> shaped (child n e).
Proof.
  intros [H1 H2 H3 H4]. split; simpl.
  - rewrite !length_app, H1. simpl. lia.
  - rewrite H2, ofNat_succ, length_app. simpl. f_equal. lia.
  - rewrite H3. unfold sumFares. rewrite fold_left_app. reflexivity.
  - rewrite H4. unfold sumDistances. rewrite fold_left_app. reflexivity.
Qed.

Lemma findBestPath_shaped (M : MathLib) (fuel : nat)
    (stopsArr : list Stop) (routesArr : list Route)
    (start end_ : string) (priority : Priority) (r : PathResult) :
  findBestPath M fuel stopsArr routesArr start end_ priority = Returned (Some r) ->
  exists n, shaped n /\ r = resultOf n.
Proof.
  unfold findBestPath. destruct (String.eqb start end_).
  - intros [= <-]. exists (startNode start). split; [apply shaped_start|reflexivity].
  - intros H.
    apply (search_returns_closed shaped _ (fun n e Hn _ => shaped_child n e Hn))
      in H as (n & Hn & _ & ->).
    + eauto.
    + constructor; [apply shaped_start|constructor].
Qed.

(** C7: in every result the number of legs is the number of path entries
    minus one (the path is never empty), and [totalStops] is the number of
    legs. *)
Theorem result_legs_and_stops (M : MathLib) (fuel : nat)
    (stopsArr : list Stop) (routesArr : list Route)
    (start end_ : string) (priority : Priority) (r : PathResult) :
  findBestPath M fuel stopsArr routesArr start end_ priority = Returned (Some r) ->
  length (legs r) = (length (path r) - 1)%nat
  /\ length (path r) = S (length (legs r))
  /\ totalStops r = ofNat (length (legs r)).
Proof.
  intros H. apply findBestPath_shaped in H as (n & [H1 H2 _ _] & ->). simpl.
  split; [lia|]. split; assumption.
Qed.


(** ** The order on finite costs *)

Lemma ltC_fin3 (p : Priority) (f s d f' s' d' : Q) :
  ltC p (fin3 f s d) (fin3 f' s' d') = true <-> qlt p f s d f' s' d'.
Proof.
  rewrite ltC_lex. unfold qlt, lex3.
  destruct p; simpl; qtests; split; intros H; try discriminate; try reflexivity;
    try lra.
Qed.

Lemma ltC_fin3_false (p : Priority) (f s d f' s' d' : Q) :
  ltC p (fin3 f s d) (fin3 f' s' d') = false <-> ~ qlt p f s d f' s' d'.
Proof.
  rewrite <- ltC_fin3. destruct (ltC p _ _); split; intros H; congruence.
Qed.

Lemma ltC_fin3_inf (p : Priority) (f s d : Q) : ltC p (fin3 f s d) infCost = true.
Proof. destruct p; reflexivity. Qed.

Lemma ltC_inf_l (p : Priority) (c : Cost) : known c -> ltC p infCost c = false.
Proof. intros [[]| ->]; destruct p; reflexivity. Qed.

Lemma ltC_good_inf (p : Priority) (c : Cost) : good c -> ltC p c infCost = true.
Proof. intros []. apply ltC_fin3_inf. Qed.

Lemma ltC_irrefl (p : Priority) (c : Cost) : known c -> ltC p c c = false.
Proof.
  intros [[]| ->]; [|destruct p; reflexivity].
  apply ltC_fin3_false. unfold qlt, lex3. destruct p; lra.
Qed.

Lemma leC_refl (p : Priority) (c : Cost) : known c -> leC p c c.
Proof. apply ltC_irrefl. Qed.

Lemma ltC_leC (p : Priority) (a b : Cost) :
  known a -> known b -> ltC p a b = true -> leC p a b.
Proof.
  unfold leC. intros Ha Hb.
  destruct Ha as [[f s d _ _ _]| ->], Hb as [[f' s' d' _ _ _]| ->]; intros H.
  - apply ltC_fin3 in H. apply ltC_fin3_false.
    unfold qlt, lex3 in *. destruct p; lra.
  - destruct p; reflexivity.
  - destruct p; discriminate.
  - destruct p; reflexivity.
Qed.

Lemma leC_total (p : Priority) (a b : Cost) :
  known a -> known b -> leC p a b \/ leC p b a.
Proof.
  intros Ha Hb. unfold leC. destruct (ltC p b a) eqn:E; [|left; reflexivity].
  right. apply (ltC_leC p b a Hb Ha E).
Qed.

Lemma leC_trans (p : Priority) (a b c : Cost) :
  known a -> known b -> known c -> leC p a b -> leC p b c -> leC p a c.
Proof.
  unfold leC.
  intros Ha Hb Hc.
  destruct Ha as [[f s d _ _ _]| ->], Hb as [[f' s' d' _ _ _]| ->],
    Hc as [[f'' s'' d'' _ _ _]| ->]; intros H1 H2;
    try (destruct p; reflexivity); try (destruct p; discriminate).
  apply ltC_fin3_false in H1, H2. apply ltC_fin3_false.
  unfold qlt, lex3 in *. destruct p; lra.
Qed.

Lemma ltC_leC_trans (p : Priority) (a b c : Cost) :
  known a -> known b -> known c -> ltC p a b = true -> leC p b c -> ltC p a c = true.
Proof.
  intros Ha Hb Hc H1 H2. destruct (ltC p a c) eqn:E; [reflexivity|].
  assert (H : leC p b a) by (apply (leC_trans p b c a); assumption).
  unfold leC in H. congruence.
Qed.

Lemma leC_ltC_trans (p : Priority) (a b c : Cost) :
  known a -> known b -> known c -> leC p a b -> ltC p b c = true -> ltC p a c = true.
Proof.
  intros Ha Hb Hc H1 H2. destruct (ltC p a c) eqn:E; [reflexivity|].
  assert (H : leC p c b) by (apply (leC_trans p c a b); assumption).
  unfold leC in H. congruence.
Qed.

(** A cost below a good one is itself good. *)
Lemma leC_good (p : Priority) (a b : Cost) : known a -> good b -> leC p a b -> good a.
Proof.
  intros [Ha| ->] Hb H; [assumption|].
  unfold leC in H. rewrite ltC_good_inf in H by assumption. discriminate.
Qed.

Lemma leC_zero (p : Priority) (c : Cost) : good c -> leC p zeroCost c.
Proof.
  intros [f s d Hf Hs Hd]. apply (ltC_fin3_false p f s d 0 0 0).
  unfold qlt, lex3. destruct p; lra.
Qed.

Lemma good_zero : good zeroCost.
Proof. apply (good_fin3 0 0 0); lra. Qed.

(** ** Edges with finite non-negative fare and distance *)

Lemma goodEdgeb_fin (e : Edge) :
  goodEdgeb e = true ->
  exists f d, e_fare e = Fin f /\ e_distance e = Fin d /\ 0 <= f /\ 0 <= d.
Proof.
  unfold goodEdgeb, nonnegb. intros H. apply andb_true_iff in H as [H1 H2].
  destruct (e_fare e) as [f| | |]; try discriminate.
  destruct (e_distance e) as [d| | |]; try discriminate.
  exists f, d. qtests. auto.
Qed.

Lemma nonnegCosts_edge (adj : gmap string (list Edge)) (k : string) (e : Edge) :
  nonnegCosts adj = true -> e ∈ neighborsOf adj k -> goodEdgeb e = true.
Proof.
  unfold nonnegCosts, neighborsOf. intros H He.
  destruct (adj !! k) as [es|] eqn:E; simpl in He; [|inversion He].
  rewrite forallb_forall in H.
  specialize (H (k, es)). simpl in H.
  rewrite forallb_forall in H.
  apply H.
  - apply list_elem_of_In. apply elem_of_map_to_list. assumption.
  - apply list_elem_of_In. assumption.
Qed.

Lemma stepCost_good (c : Cost) (e : Edge) :
  good c -> goodEdgeb e = true -> good (stepCost c e).
Proof.
  intros [f s d Hf Hs Hd] He.
  apply goodEdgeb_fin in He as (ef & ed & E1 & E2 & Hef & Hed).
  unfold stepCost. simpl. rewrite E1, E2. simpl.
  apply (good_fin3 (f + ef) (s + 1) (d + ed)); lra.
Qed.

(** Taking an edge makes a cost strictly worse: the leg count goes up. *)
Lemma stepCost_worse (p : Priority) (c : Cost) (e : Edge) :
  good c -> goodEdgeb e = true -> ltC p c (stepCost c e) = true.
Proof.
  intros [f s d Hf Hs Hd] He.
  apply goodEdgeb_fin in He as (ef & ed & E1 & E2 & Hef & Hed).
  unfold stepCost. simpl. rewrite E1, E2. simpl.
  apply (ltC_fin3 p f s d (f + ef) (s + 1) (d + ed)).
  unfold qlt, lex3. destruct p; lra.
Qed.

(** Taking the same edge keeps the order of two costs. *)
Lemma stepCost_mono (p : Priority) (a b : Cost) (e : Edge) :
  good a -> good b -> goodEdgeb e = true ->
  leC p a b -> leC p (stepCost a e) (stepCost b e).
Proof.
  intros [f s d Hf Hs Hd] [f' s' d' Hf' Hs' Hd'] He H.
  apply goodEdgeb_fin in He as (ef & ed & E1 & E2 & Hef & Hed).
  unfold leC, stepCost in *. simpl. rewrite E1, E2. simpl.
  apply ltC_fin3_false in H.
  apply (ltC_fin3_false p (f' + ef) (s' + 1) (d' + ed) (f + ef) (s + 1) (d + ed)).
  unfold qlt, lex3 in *. destruct p; lra.
Qed.

(** ** The search invariant *)

Lemma pendingIn_cons (k : string) (es : list Edge)
    (l : list (string * list Edge)) (done : gset string) :
  pendingIn ((k, es) :: l) done
  = ((if decide (k ∈ done) then 0 else length es) + pendingIn l done)%nat.
Proof. reflexivity. Qed.







Section Invariant.
Variable p : Priority.
Variable adj : gmap string (list Edge).
Variable start : string.
Hypothesis adj_nonneg : nonnegCosts adj = true.

Lemma bestOf_known (done : gset string) (m : Cost) (best : gmap string Cost)
    (pq : list Node) (v : string) :
  Core p start done m best pq -> known (bestOf best v).
Proof.
  intros HC. unfold bestOf. destruct (best !! v) as [c|] eqn:E; simpl.
  - apply (core_known HC v c E).
  - right. reflexivity.
Qed.

Lemma liveCount_perm (best : gmap string Cost) (v : string) (pq pq' : list Node) :
  pq ≡ₚ pq' -> liveCount p best v pq = liveCount p best v pq'.
Proof. unfold liveCount. intros ->. reflexivity. Qed.

Lemma liveCount_zero (best : gmap string Cost) (v : string) (pq : list Node) (n : Node) :
  liveCount p best v pq = 0%nat -> n ∈ pq -> node n = v ->
  gtC p (cost n) (bestOf best v) = true.
Proof.
  unfold liveCount. intros H Hn Hv.
  apply length_zero_iff_nil in H.
  destruct (gtC p (cost n) (bestOf best v)) eqn:E; [reflexivity|].
  assert (Hin : n ∈ filter (fun n => liveb p best v n = true) pq).
  { apply list_elem_of_filter. split; [|assumption].
    unfold liveb. rewrite E, bool_decide_eq_true_2 by assumption. reflexivity. }
  rewrite H in Hin. inversion Hin.
Qed.

Lemma liveCount_cons (best : gmap string Cost) (v : string) (n : Node) (pq : list Node) :
  liveCount p best v (n :: pq)
  = ((if liveb p best v n then 1 else 0) + liveCount p best v pq)%nat.
Proof.
  unfold liveCount. rewrite filter_cons.
  destruct (decide (liveb p best v n = true)) as [E|E].
  - rewrite E. reflexivity.
  - apply not_true_is_false in E. rewrite E. reflexivity.
Qed.

Lemma liveCount_app (best : gmap string Cost) (v : string) (pq pq' : list Node) :
  liveCount p best v (pq ++ pq')
  = (liveCount p best v pq + liveCount p best v pq')%nat.
Proof. unfold liveCount. now rewrite filter_app, length_app. Qed.

(** Records that are all stale for [v] count for nothing. *)
Lemma liveCount_stale (best : gmap string Cost) (v : string) (pq : list Node) :
  (forall n, n ∈ pq -> node n = v -> gtC p (cost n) (bestOf best v) = true) ->
  liveCount p best v pq = 0%nat.
Proof.
  induction pq as [|n pq IH]; intros H; [reflexivity|].
  rewrite liveCount_cons, IH.
  - unfold liveb. destruct (bool_decide (node n = v)) eqn:E; simpl; [|reflexivity].
    apply bool_decide_eq_true_1 in E. rewrite (H n) by (assumption || left).
    reflexivity.
  - intros n' Hn'. apply H. right. assumption.
Qed.

(** The count for [v] looks at [best] only at [v]. *)
Lemma liveCount_ext (best best' : gmap string Cost) (v : string) (pq : list Node) :
  best' !! v = best !! v -> liveCount p best' v pq = liveCount p best v pq.
Proof.
  intros E. induction pq as [|n pq IH]; [reflexivity|].
  rewrite !liveCount_cons, IH. unfold liveb, bestOf. rewrite E. reflexivity.
Qed.

(** Dropping a record the duplicate test rejects. *)
Lemma Core_skip (done : gset string) (m : Cost) (best : gmap string Cost)
    (pq : list Node) (cur : Node) (pq' : list Node) :
  Core p start done m best pq -> cur :: pq' ≡ₚ pq ->
  gtC p (cost cur) (bestOf best (node cur)) = true ->
  Core p start done m best pq'.
Proof.
  intros HC Hperm Hgt.
  assert (Hsub : forall n, n ∈ pq' -> n ∈ pq).
  { intros n Hn. rewrite <- Hperm. right. assumption. }
  split.
  - apply (core_m HC).
  - apply (core_known HC).
  - intros n Hn. apply (core_pq HC). auto.
  - intros v c Hb Hg Hv.
    destruct (core_live HC v c Hb Hg Hv) as (n & Hn & Hnv & Hnc).
    rewrite <- Hperm in Hn. apply elem_of_cons in Hn as [->|Hn]; [|eauto].
    exfalso. unfold bestOf in Hgt. rewrite Hnv, Hb, Hnc in Hgt. simpl in Hgt.
    rewrite gtC_ltC, ltC_irrefl in Hgt; [discriminate|left; assumption].
  - apply (core_done HC).
  - apply (core_start HC).
  - intros v n Hv Hn. apply (core_stale HC); auto.
  - intros v. pose proof (core_unique HC v) as H.
    rewrite <- (liveCount_perm best v _ _ Hperm), liveCount_cons in H. lia.
Qed.

(** Taking out the least record when the duplicate test accepts it: its
    stop has not been expanded before and joins [done]. *)
Lemma Core_pop (done : gset string) (m : Cost) (best : gmap string Cost)
    (pq : list Node) (cur : Node) (pq' : list Node) :
  Core p start done m best pq -> cur :: pq' ≡ₚ pq ->
  (forall n, n ∈ pq' -> leC p (cost cur) (cost n)) ->
  gtC p (cost cur) (bestOf best (node cur)) = false ->
  (node cur ∉ done) /\ Core p start (done ∪ {[node cur]}) (cost cur) best pq'.
Proof.
  intros HC Hperm Hlow Hgt.
  assert (Hsub : forall n, n ∈ pq' -> n ∈ pq).
  { intros n Hn. rewrite <- Hperm. right. assumption. }
  assert (Hcur : cur ∈ pq) by (rewrite <- Hperm; left).
  destruct (core_pq HC cur Hcur) as (Hgood & Hm & cb & Hcb & Hle).
  assert (Hnot : node cur ∉ done).
  { intros Hin. rewrite (core_stale HC (node cur) cur) in Hgt by auto.
    discriminate. }
  split; [assumption|]. split.
  - assumption.
  - apply (core_known HC).
  - intros n Hn. destruct (core_pq HC n (Hsub n Hn)) as (Hg & _ & Hc).
    auto.
  - intros v c Hb Hg Hv.
    destruct (core_live HC v c Hb Hg) as (n & Hn & Hnv & Hnc);
      [set_solver|].
    rewrite <- Hperm in Hn. apply elem_of_cons in Hn as [->|Hn]; [|eauto].
    exfalso. set_solver.
  - intros v Hv. apply elem_of_union in Hv as [Hv|Hv].
    + destruct (core_done HC v Hv) as (c & Hb & Hg & Hc).
      exists c. split; [assumption|]. split; [assumption|].
      apply (leC_trans p c m (cost cur)); auto; left; auto.
      apply (core_m HC).
    + apply elem_of_singleton in Hv as ->.
      exists cb. split; [assumption|].
      assert (Hk : known cb) by apply (core_known HC _ _ Hcb).
      split; [apply (leC_good p cb (cost cur)); assumption|assumption].
  - apply (core_start HC).
  - intros v n Hv Hn Hnv. apply elem_of_union in Hv as [Hv|Hv].
    + apply (core_stale HC); auto.
    + apply elem_of_singleton in Hv as ->.
      apply (liveCount_zero best (node cur) pq'); [|assumption|assumption].
      pose proof (core_unique HC (node cur)) as H.
      rewrite <- (liveCount_perm best _ _ _ Hperm), liveCount_cons in H.
      unfold liveb in H. rewrite Hgt, bool_decide_eq_true_2 in H by reflexivity.
      simpl in H. lia.
  - intros v. pose proof (core_unique HC v) as H.
    rewrite <- (liveCount_perm best v _ _ Hperm), liveCount_cons in H. lia.
Qed.

(** One pass of the body of the neighbour loop. *)
Lemma relax_Core (D : gset string) (best : gmap string Cost) (pq : list Node)
    (cur : Node) (e : Edge) :
  Core p start D (cost cur) best pq -> goodEdgeb e = true ->
  Core p start D (cost cur) (fst (relax p cur (best, pq) e)) (snd (relax p cur (best, pq) e))
  /\ leC p (bestOf (fst (relax p cur (best, pq) e)) (e_to e)) (stepCost (cost cur) e)
  /\ (forall v, leC p (bestOf (fst (relax p cur (best, pq) e)) v) (bestOf best v))
  /\ (forall v, v ∈ D -> fst (relax p cur (best, pq) e) !! v = best !! v)
  /\ (length (snd (relax p cur (best, pq) e)) <= S (length pq))%nat.
Proof.
  intros HC He. rewrite relax_eq. cbn [fst snd].
  set (new := stepCost (cost cur) e). set (u := e_to e).
  fold (bestOf best u).
  pose proof (core_m HC) as Hm.
  assert (Hnew : good new) by (apply stepCost_good; assumption).
  assert (Hworse : ltC p (cost cur) new = true) by (apply stepCost_worse; assumption).
  assert (Hkn : forall v, known (bestOf best v)).
  { intros v. apply (bestOf_known D (cost cur) best pq). assumption. }
  destruct (ltC p new (bestOf best u)) eqn:Hlt; cbn [fst snd].
  2: { split; [assumption|]. split; [exact Hlt|].
       split; [intros v; apply leC_refl, Hkn|]. split; [intros; reflexivity|lia]. }
  assert (Hu : u ∉ D).
  { intros Hin. destruct (core_done HC u Hin) as (c & Hb & Hg & Hc).
    unfold bestOf in Hlt. rewrite Hb in Hlt. simpl in Hlt.
    assert (H1 : ltC p c new = true).
    { apply (leC_ltC_trans p c (cost cur) new); auto; left; assumption. }
    apply ltC_leC in H1; [|left; assumption|left; assumption].
    unfold leC in H1. congruence. }
  assert (Hstart : u <> start).
  { intros ->. unfold bestOf in Hlt. rewrite (core_start HC) in Hlt.
    simpl in Hlt. pose proof (leC_zero p new Hnew) as H1.
    unfold leC in H1. congruence. }
  assert (Hbu : bestOf (<[u:=new]> best) u = new).
  { unfold bestOf. rewrite lookup_insert_eq. reflexivity. }
  assert (Hbo : forall v, v <> u -> bestOf (<[u:=new]> best) v = bestOf best v).
  { intros v Hv. unfold bestOf. rewrite lookup_insert_ne by auto. reflexivity. }
  assert (Hold : forall n, n ∈ pq -> node n = u -> ltC p new (cost n) = true).
  { intros n Hn Hnu.
    destruct (core_pq HC n Hn) as (Hg & _ & c0 & Hc0 & Hle).
    rewrite Hnu in Hc0. unfold bestOf in Hlt. rewrite Hc0 in Hlt. simpl in Hlt.
    apply (ltC_leC_trans p new c0 (cost n)); auto; try (left; assumption).
    apply (core_known HC _ _ Hc0). }
  split; [|split; [|split; [|split]]].
  - split.
    + assumption.
    + intros v c Hb. destruct (decide (v = u)) as [->|Hv].
      * rewrite lookup_insert_eq in Hb. injection Hb as <-. left. assumption.
      * rewrite lookup_insert_ne in Hb by auto. apply (core_known HC _ _ Hb).
    + intros n Hn. apply elem_of_app in Hn as [Hn|Hn].
      * destruct (core_pq HC n Hn) as (Hg & Hmn & c0 & Hc0 & Hle).
        split; [assumption|]. split; [assumption|].
        destruct (decide (node n = u)) as [Hnu|Hnu].
        -- exists new. rewrite Hnu, lookup_insert_eq. split; [reflexivity|].
           apply ltC_leC; [left; assumption|left; assumption|]. apply Hold; assumption.
        -- exists c0. rewrite lookup_insert_ne by auto. auto.
      * apply list_elem_of_singleton in Hn as ->. simpl.
        split; [assumption|].
        split; [apply ltC_leC; [left; assumption|left; assumption|assumption]|].
        exists new. fold u. rewrite lookup_insert_eq. split; [reflexivity|].
        apply leC_refl. left. assumption.
    + intros v c Hb Hg Hv. destruct (decide (v = u)) as [->|Hvu].
      * rewrite lookup_insert_eq in Hb. injection Hb as <-.
        exists (child cur e). split; [|split; reflexivity].
        apply elem_of_app. right. left.
      * rewrite lookup_insert_ne in Hb by auto.
        destruct (core_live HC v c Hb Hg Hv) as (n & Hn & Hnv & Hnc).
        exists n. split; [apply elem_of_app; left; assumption|auto].
    + intros v Hv. assert (v <> u) by (intros ->; contradiction).
      rewrite lookup_insert_ne by auto. apply (core_done HC v Hv).
    + rewrite lookup_insert_ne by auto. apply (core_start HC).
    + intros v n Hv Hn Hnv. assert (v <> u) by (intros ->; contradiction).
      rewrite Hbo by assumption.
      apply elem_of_app in Hn as [Hn|Hn].
      * apply (core_stale HC); assumption.
      * apply list_elem_of_singleton in Hn as ->. simpl in Hnv. fold u in Hnv. congruence.
    + intros v. rewrite liveCount_app. destruct (decide (v = u)) as [->|Hvu].
      * rewrite (liveCount_stale _ u pq).
        -- rewrite liveCount_cons.
           change (liveCount p (<[u:=new]> best) u []) with 0%nat.
           destruct (liveb _ _ _ _); simpl; lia.
        -- intros n Hn Hnu. rewrite Hbu, gtC_ltC. apply Hold; assumption.
      * rewrite (liveCount_ext best _ v pq) by (rewrite lookup_insert_ne; auto).
        pose proof (core_unique HC v) as H.
        rewrite liveCount_cons. unfold liveb at 1. simpl.
        rewrite bool_decide_eq_false_2 by (fold u; auto). simpl.
        change (liveCount p (<[u:=new]> best) v []) with 0%nat. lia.
  - rewrite Hbu. apply leC_refl. left. assumption.
  - intros v. destruct (decide (v = u)) as [->|Hvu].
    + rewrite Hbu. apply ltC_leC; [left; assumption|apply Hkn|assumption].
    + rewrite Hbo by assumption. apply leC_refl, Hkn.
  - intros v Hv. assert (v <> u) by (intros ->; contradiction).
    rewrite lookup_insert_ne by auto. reflexivity.
  - rewrite length_app. simpl. lia.
Qed.

(** The whole neighbour loop. *)
Lemma relax_fold_Core (D : gset string) (cur : Node) (es : list Edge)
    (best : gmap string Cost) (pq : list Node) :
  Core p start D (cost cur) best pq ->
  (forall e, e ∈ es -> goodEdgeb e = true) ->
  Core p start D (cost cur) (fst (fold_left (relax p cur) es (best, pq)))
       (snd (fold_left (relax p cur) es (best, pq)))
  /\ (forall e, e ∈ es ->
        leC p (bestOf (fst (fold_left (relax p cur) es (best, pq))) (e_to e))
            (stepCost (cost cur) e))
  /\ (forall v, leC p (bestOf (fst (fold_left (relax p cur) es (best, pq))) v)
                  (bestOf best v))
  /\ (forall v, v ∈ D ->
        fst (fold_left (relax p cur) es (best, pq)) !! v = best !! v)
  /\ (length (snd (fold_left (relax p cur) es (best, pq)))
      <= length pq + length es)%nat.
Proof.
  revert best pq. induction es as [|e es IH]; intros best pq HC Hes; simpl.
  - split; [assumption|]. split; [intros e He; inversion He|].
    split; [|split; [reflexivity|lia]].
    intros v. apply leC_refl. apply (bestOf_known D (cost cur) best pq). assumption.
  - assert (He : goodEdgeb e = true) by (apply Hes; left).
    destruct (relax_Core D best pq cur e HC He) as (HC1 & Hle1 & Hmono1 & Hsame1 & Hlen1).
    destruct (relax p cur (best, pq) e) as [b1 q1]. cbn [fst snd] in *.
    destruct (IH b1 q1 HC1) as (HC2 & Hle2 & Hmono2 & Hsame2 & Hlen2).
    { intros e' He'. apply Hes. right. assumption. }
    set (st := fold_left (relax p cur) es (b1, q1)) in *.
    assert (Hk : forall b q v, Core p start D (cost cur) b q -> known (bestOf b v)).
    { intros b q v H. apply (bestOf_known D (cost cur) b q). assumption. }
    split; [assumption|]. split; [|split; [|split]].
    + intros e' He'. apply elem_of_cons in He' as [->|He']; [|auto].
      apply (leC_trans p _ (bestOf b1 (e_to e))); eauto.
      left. apply stepCost_good; [apply (core_m HC)|assumption].
    + intros v. apply (leC_trans p _ (bestOf b1 v)); eauto.
    + intros v Hv. rewrite Hsame2 by assumption. auto.
    + lia.
Qed.

(** Once the neighbour loop has run for [cur], all expanded stops have
    their edges relaxed. *)
Lemma Relaxed_expand (done : gset string) (cur : Node)
    (best : gmap string Cost) (pq : list Node) :
  Core p start (done ∪ {[node cur]}) (cost cur) best pq ->
  Relaxed p adj done best ->
  gtC p (cost cur) (bestOf best (node cur)) = false ->
  Relaxed p adj (done ∪ {[node cur]})
    (fst (fold_left (relax p cur) (neighborsOf adj (node cur)) (best, pq))).
Proof.
  intros HC HR Hgt.
  assert (Hes : forall v e, e ∈ neighborsOf adj v -> goodEdgeb e = true).
  { intros v e. apply nonnegCosts_edge. assumption. }
  destruct (relax_fold_Core _ cur (neighborsOf adj (node cur)) best pq HC (Hes _))
    as (HC' & Hle & Hmono & Hsame & _).
  set (st := fold_left (relax p cur) (neighborsOf adj (node cur)) (best, pq)) in *.
  assert (Hk : forall v, known (bestOf best v)).
  { intros v. apply (bestOf_known _ _ _ _ v HC). }
  assert (Hk' : forall v, known (bestOf (fst st) v)).
  { intros v. apply (bestOf_known _ _ _ _ v HC'). }
  assert (Hg : forall v, v ∈ done ∪ {[node cur]} -> good (bestOf best v)).
  { intros v Hv. destruct (core_done HC v Hv) as (c & Hb & Hc & _).
    unfold bestOf. rewrite Hb. assumption. }
  assert (Hb : forall v, v ∈ done ∪ {[node cur]} -> bestOf (fst st) v = bestOf best v).
  { intros v Hv. unfold bestOf. rewrite Hsame by assumption. reflexivity. }
  intros v e Hv He. rewrite (Hb v Hv).
  pose proof (Hes v e He) as Hge.
  apply elem_of_union in Hv as [Hv|Hv].
  - apply (leC_trans p _ (bestOf best (e_to e))); auto.
    left. apply stepCost_good; [apply Hg; set_solver|assumption].
  - apply elem_of_singleton in Hv as ->.
    apply (leC_trans p _ (stepCost (cost cur) e)); auto.
    + left. apply stepCost_good; [apply (core_m HC)|assumption].
    + left. apply stepCost_good; [apply Hg; set_solver|assumption].
    + apply stepCost_mono; [apply (core_m HC)|apply Hg; set_solver|assumption|].
      unfold leC. rewrite <- gtC_ltC. assumption.
Qed.

Lemma isWalk_snoc (u : string) (es : list Edge) (e : Edge) (v : string) :
  isWalk adj u (es ++ [e]) v
  <-> exists w, isWalk adj u es w /\ e ∈ neighborsOf adj w /\ e_to e = v.
Proof.
  revert u. induction es as [|e' es IH]; intros u; simpl.
  - split.
    + intros [He Hv]. exists u. auto.
    + intros (w & <- & He & Hv). auto.
  - rewrite IH. split.
    + intros (He' & w & Hw & He & Hv). exists w. auto.
    + intros (w & [He' Hw] & He & Hv). split; [assumption|]. exists w. auto.
Qed.

Lemma walkCost_snoc (es : list Edge) (e : Edge) :
  walkCost (es ++ [e]) = stepCost (walkCost es) e.
Proof. unfold walkCost. rewrite fold_left_app. reflexivity. Qed.

Lemma walkCost_good (u : string) (es : list Edge) (v : string) :
  isWalk adj u es v -> good (walkCost es).
Proof.
  revert v. induction es as [|e es IH] using rev_ind; intros v H.
  - apply good_zero.
  - apply isWalk_snoc in H as (w & Hw & He & _). rewrite walkCost_snoc.
    apply stepCost_good; [apply (IH w Hw)|].
    apply (nonnegCosts_edge adj w); assumption.
Qed.

(** No walk from the start undercuts the least cost [mu] on the frontier,
    unless it ends at an expanded stop, and then it does not undercut what
    [best] has for that stop. *)
Lemma lower_bound (done : gset string) (m : Cost) (best : gmap string Cost)
    (pq : list Node) (mu : Cost) (es : list Edge) (v : string) :
  Core p start done m best pq -> Relaxed p adj done best -> good mu ->
  (forall n, n ∈ pq -> leC p mu (cost n)) ->
  isWalk adj start es v ->
  (v ∈ done /\ leC p (bestOf best v) (walkCost es)) \/ leC p mu (walkCost es).
Proof.
  intros HC HR Hmu Hlow. revert v.
  assert (Hk : forall v, known (bestOf best v)).
  { intros v. apply (bestOf_known _ _ _ _ v HC). }
  induction es as [|e es IH] using rev_ind; intros v Hw.
  - simpl in Hw. subst v. change (walkCost []) with zeroCost.
    destruct (decide (start ∈ done)) as [Hin|Hout].
    + left. split; [assumption|]. unfold bestOf.
      rewrite (core_start HC). apply leC_refl. left. apply good_zero.
    + right.
      destruct (core_live HC start zeroCost (core_start HC)
                  good_zero Hout) as (n & Hn & _ & Hc).
      rewrite <- Hc. apply Hlow. assumption.
  - pose proof (walkCost_good _ _ _ Hw) as Hgood.
    apply isWalk_snoc in Hw as (w & Hw & He & <-).
    pose proof (walkCost_good _ _ _ Hw) as Hgood'.
    pose proof (nonnegCosts_edge adj w e adj_nonneg He) as Hge.
    rewrite walkCost_snoc in *.
    destruct (IH w Hw) as [[Hin Hle]|Hle].
    + assert (Hgw : good (bestOf best w)).
      { destruct (core_done HC w Hin) as (c & Hb & Hc & _).
        unfold bestOf. rewrite Hb. assumption. }
      assert (X : leC p (bestOf best (e_to e)) (stepCost (walkCost es) e)).
      { apply (leC_trans p _ (stepCost (bestOf best w) e)); auto.
        - left. apply stepCost_good; assumption.
        - left. assumption.
        - apply stepCost_mono; assumption. }
      destruct (decide (e_to e ∈ done)) as [Hin'|Hout]; [left; auto|].
      right.
      assert (Hgv : good (bestOf best (e_to e))).
      { apply (leC_good p _ (stepCost (walkCost es) e)); auto. }
      unfold bestOf in Hgv, X.
      destruct (best !! e_to e) as [c|] eqn:Hb; simpl in *; [|inversion Hgv].
      destruct (core_live HC _ c Hb Hgv Hout) as (n & Hn & _ & Hc).
      apply (leC_trans p mu c); auto; try (left; assumption).
      rewrite <- Hc. apply Hlow. assumption.
    + right. apply (leC_trans p mu (walkCost es)); auto; try (left; assumption).
      apply ltC_leC; [left; assumption|left; assumption|].
      apply stepCost_worse; assumption.
Qed.

(** What the sort hands to [shift]. *)
Lemma sorted_frontier (done : gset string) (m : Cost) (best : gmap string Cost)
    (pq : list Node) (cur : Node) (pq' : list Node) :
  Core p start done m best pq ->
  sortBy (fun A B => cmpCost p (cost A) (cost B)) pq = cur :: pq' ->
  cur :: pq' ≡ₚ pq /\ (forall n, n ∈ pq' -> leC p (cost cur) (cost n)).
Proof.
  intros HC Es.
  destruct (sortBy_head (fun A B => cmpCost p (cost A) (cost B))
              (fun n => good (cost n))) with (l := pq) (x := cur) (l' := pq')
    as [Hlow Hperm]; try assumption.
  - intros x y Hx Hy. fold (gtC p (cost x) (cost y)). fold (gtC p (cost y) (cost x)).
    rewrite !gtC_ltC.
    destruct (leC_total p (cost x) (cost y)); auto; left; assumption.
  - intros x y z Hx Hy Hz.
    fold (gtC p (cost x) (cost y)). fold (gtC p (cost y) (cost z)).
    fold (gtC p (cost x) (cost z)). rewrite !gtC_ltC. intros H1 H2.
    apply (leC_trans p (cost x) (cost y) (cost z)); auto; left; assumption.
  - apply Forall_forall. intros n Hn. apply (core_pq HC n Hn).
  - split; [assumption|]. intros n Hn.
    unfold lowest in Hlow. rewrite Forall_forall in Hlow.
    specialize (Hlow n Hn). simpl in Hlow.
    fold (gtC p (cost cur) (cost n)) in Hlow. rewrite gtC_ltC in Hlow. exact Hlow.
Qed.

Variable end_ : string.


Lemma resultCost_resultOf (n : Node) : resultCost (resultOf n) = cost n.
Proof. destruct n as [? ? ? []]. reflexivity. Qed.

Lemma search_optimal (fuel : nat) (done : gset string) (m : Cost)
    (best : gmap string Cost) (pq : list Node) (r : PathResult) (es : list Edge) :
  Core p start done m best pq -> Relaxed p adj done best ->
  search fuel p adj end_ best pq = Returned (Some r) ->
  isWalk adj start es end_ ->
  ltC p (walkCost es) (resultCost r) = false.
Proof.
  revert done m best pq. induction fuel as [|fuel IH]; intros done m best pq HC HR;
    simpl; [discriminate|].
  destruct (sortBy _ pq) as [|cur pq'] eqn:Es; [discriminate|].
  destruct (sorted_frontier _ _ _ _ _ _ HC Es) as [Hperm Hlow].
  assert (Hcur : cur ∈ pq) by (rewrite <- Hperm; left).
  destruct (core_pq HC cur Hcur) as (Hgood & _ & cb & Hcb & Hle).
  rewrite Hcb.
  assert (Hbo : bestOf best (node cur) = cb) by (unfold bestOf; rewrite Hcb; reflexivity).
  fold (gtC p (cost cur) cb). rewrite <- Hbo.
  destruct (gtC p (cost cur) (bestOf best (node cur))) eqn:Hgt.
  - apply (IH done m); [apply (Core_skip _ _ _ pq cur); assumption|assumption].
  - destruct (String.eqb (node cur) end_) eqn:Ee.
    + intros [= <-] Hw. rewrite resultCost_resultOf.
      apply String.eqb_eq in Ee.
      assert (Hall : forall n, n ∈ pq -> leC p (cost cur) (cost n)).
      { intros n Hn. rewrite <- Hperm in Hn.
        apply elem_of_cons in Hn as [->|Hn]; [|auto].
        apply leC_refl. left. assumption. }
      destruct (lower_bound done m best pq (cost cur) es end_ HC HR Hgood Hall Hw)
        as [[_ Hb]|Hb]; [|exact Hb].
      rewrite <- Ee, Hbo in Hb.
      apply (leC_trans p (cost cur) cb (walkCost es)); auto.
      * left. assumption.
      * apply (core_known HC _ _ Hcb).
      * left. apply (walkCost_good _ _ _ Hw).
      * unfold leC. rewrite <- gtC_ltC, <- Hbo. assumption.
    + destruct (Core_pop _ _ _ _ _ _ HC Hperm Hlow Hgt) as [Hnot HC'].
      destruct (relax_fold_Core _ cur (neighborsOf adj (node cur)) best pq' HC')
        as (HC'' & _).
      { intros e. apply nonnegCosts_edge. assumption. }
      apply (IH _ _ _ _ HC'').
      apply Relaxed_expand; assumption.
Qed.
End Invariant.

(** ** The state the search starts from *)

Lemma initInf_lookup (stopsArr : list Stop) (b : gmap string Cost) (v : string) (c : Cost) :
  (forall v c, b !! v = Some c -> c = infCost) ->
  fold_left (fun b s => <[s_name s := infCost]> b) stopsArr b !! v = Some c ->
  c = infCost.
Proof.
  revert b. induction stopsArr as [|s ss IH]; intros b Hb; simpl; [apply Hb|].
  apply IH. intros v' c' H. destruct (decide (s_name s = v')) as [E|Hne].
  - subst v'. rewrite lookup_insert_eq in H. congruence.
  - rewrite lookup_insert_ne in H by assumption. eauto.
Qed.

Lemma initBest_lookup (stopsArr : list Stop) (start v : string) (c : Cost) :
  initBest stopsArr start !! v = Some c ->
  (v = start /\ c = zeroCost) \/ c = infCost.
Proof.
  unfold initBest. destruct (decide (start = v)) as [->|Hne].
  - rewrite lookup_insert_eq. intros [= <-]. auto.
  - rewrite lookup_insert_ne by assumption. intros H. right.
    apply (initInf_lookup stopsArr ∅ v c); [|assumption].
    intros v' c'. rewrite lookup_empty. discriminate.
Qed.

Lemma Core_init (p : Priority) (start : string) (stopsArr : list Stop) :
  Core p start ∅ zeroCost (initBest stopsArr start) [startNode start].
Proof.
  assert (Hs : initBest stopsArr start !! start = Some zeroCost).
  { unfold initBest. apply lookup_insert_eq. }
  split.
  - apply good_zero.
  - intros v c H. apply initBest_lookup in H as [[_ ->]| ->].
    + left. apply good_zero.
    + right. reflexivity.
  - intros n Hn. apply list_elem_of_singleton in Hn as ->. simpl.
    split; [apply good_zero|]. split; [apply leC_refl; left; apply good_zero|].
    exists zeroCost. split; [assumption|]. apply leC_refl. left. apply good_zero.
  - intros v c H Hg _. apply initBest_lookup in H as [[-> ->]| ->].
    + exists (startNode start). split; [left|split; reflexivity].
    + inversion Hg.
  - intros v Hv. set_solver.
  - assumption.
  - intros v n Hv. set_solver.
  - intros v. rewrite liveCount_cons.
    change (liveCount p (initBest stopsArr start) v []) with 0%nat.
    destruct (liveb _ _ _ _); simpl; lia.
Qed.

Lemma Relaxed_init (p : Priority) (adj : gmap string (list Edge))
    (best : gmap string Cost) : Relaxed p adj ∅ best.
Proof. intros v e Hv. set_solver. Qed.

Lemma pending_empty (adj : gmap string (list Edge)) (done : gset string) :
  (pending adj done <= pending adj ∅)%nat.
Proof.
  unfold pending. induction (map_to_list adj) as [|[k es] l IH]; [reflexivity|].
  rewrite !pendingIn_cons. repeat destruct (decide _); try lia. set_solver.
Qed.

(** ** Optimality and termination *)




(** In exact arithmetic, with finite non-negative fares and distances on
    the edges, no walk from the start to the end costs less than the
    result. *)
Lemma exact_search_optimal (M : MathLib) (fuel : nat) (stopsArr : list Stop)
    (routesArr : list Route) (start end_ : string) (p : Priority)
    (r : PathResult) (es : list Edge) :
  nonnegCosts (buildAdj M stopsArr routesArr) = true ->
  findBestPath M fuel stopsArr routesArr start end_ p = Returned (Some r) ->
  isWalk (buildAdj M stopsArr routesArr) start es end_ ->
  firstDiffSmaller (keys p (walkCost es)) (keys p (resultCost r)) = false.
Proof.
  intros Hadj Hr Hw. rewrite <- ltC_lex. unfold findBestPath in Hr.
  destruct (String.eqb start end_) eqn:Ee.
  - injection Hr as <-. apply (leC_zero p).
    apply (walkCost_good _ Hadj _ _ _ Hw).
  - apply (search_optimal p _ start Hadj end_ fuel ∅ zeroCost _ _ r es
             (Core_init p start stopsArr) (Relaxed_init _ _ _) Hr Hw).
Qed.

(** The result is itself a walk of the graph from the start to the end,
    read off its legs, and its totals are the cost of that walk; so under
    the bound on the edges the result is a cheapest walk. *)
Lemma result_is_walk (M : MathLib) (fuel : nat) (stopsArr : list Stop)
    (routesArr : list Route) (start end_ : string) (p : Priority) (r : PathResult) :
  findBestPath M fuel stopsArr routesArr start end_ p = Returned (Some r) ->
  isWalk (buildAdj M stopsArr routesArr) start (legEdge <$> legs r) end_
  /\ resultCost r = walkCost (legEdge <$> legs r)
  /\ path r = start :: (l_to <$> legs r).
Proof.
  unfold findBestPath. destruct (String.eqb_spec start end_) as [<-|Hne].
  - intros [= <-]. repeat split.
  - intros H.
    apply (search_returns_closed (tracks (buildAdj M stopsArr routesArr) start))
      in H as (n & [H1 H2 H3] & <- & ->).
    + rewrite resultCost_resultOf. auto.
    + intros n e [H1 H2 H3] He. split; simpl.
      * rewrite fmap_app. apply isWalk_snoc. exists (node n). simpl.
        destruct e. auto.
      * rewrite fmap_app, fmap_cons, fmap_nil, walkCost_snoc, <- H2.
        destruct e. reflexivity.
      * rewrite H3, fmap_app. reflexivity.
    + constructor; [|constructor]. split; reflexivity.
Qed.

(** ** Worked inputs *)

Example scenario_by_fare :
  findBestPath mathNaN 10 stopsABC routesABC "A" "C" ByFare = Returned (Some resultABC).
Proof. vm_compute. reflexivity. Qed.

Example scenario_by_stops :
  findBestPath mathNaN 10 stopsABC routesABC "A" "C" ByStops = Returned (Some resultAC).
Proof. vm_compute. reflexivity. Qed.

(** C1 as stated fails with a negative fare: the search, exact or on
    doubles, returns the direct route A-C (fare 1) although the walk A-B-C
    costs 2 - 5 = -3. *)
Lemma findBestPath_not_optimal_negative_fare :
  findBestPath mathNaN 10 stopsABC routesNeg "A" "C" ByFare
  = Returned (Some {| path := ["A"; "C"]; legs := [mkLeg "A" "C" 1 1];
                      totalFare := Fin 1; totalDistance := Fin 1;
                      totalStops := Fin 1 |})
  /\ findBestPathWith dadd mathNaN 10 stopsABC routesNeg "A" "C" ByFare
     = Returned (Some {| path := ["A"; "C"]; legs := [mkLeg "A" "C" 1 1];
                         totalFare := Fin 1; totalDistance := Fin 1;
                         totalStops := Fin 1 |})
  /\ isWalk (buildAdj mathNaN stopsABC routesNeg) "A"
       [mkEdge "B" 2 1; mkEdge "C" (-5) 1] "C"
  /\ walkCost [mkEdge "B" 2 1; mkEdge "C" (-5) 1] = fin3 (2 + -5) (0 + 1 + 1) (0 + 1 + 1)
  /\ firstDiffSmaller
       (keys ByFare (walkCost [mkEdge "B" 2 1; mkEdge "C" (-5) 1]))
       (keys ByFare {| fare := Fin 1; stops := Fin 1; distance := Fin 1 |}) = true.
Proof.
  split; [vm_compute; reflexivity|].
  split; [vm_compute; reflexivity|].
  split; [|split; [vm_compute; reflexivity|vm_compute; reflexivity]].
  split; [vm_compute; right; left|].
  split; [vm_compute; right; left|reflexivity].
Qed.

(** Witness of C7. *)
Lemma result_legs_and_stops_witness :
  findBestPath mathNaN 10 stopsABC routesABC "A" "C" ByFare
  = Returned (Some resultABC)
  /\ length (legs resultABC) = (length (path resultABC) - 1)%nat
  /\ length (path resultABC) = S (length (legs resultABC))
  /\ totalStops resultABC = ofNat (length (legs resultABC)).
Proof.
  assert (H : findBestPath mathNaN 10 stopsABC routesABC "A" "C" ByFare
              = Returned (Some resultABC)) by (vm_compute; reflexivity).
  split; [exact H|].
  exact (result_legs_and_stops mathNaN 10 stopsABC routesABC "A" "C" ByFare
           resultABC H).
Defined.



Example self_loop_run :
  findBestPath mathNaN 10 stopsABC routesLoop "A" "C" ByFare = Returned (Some resultABC).
Proof. vm_compute. reflexivity. Qed.

(** ** Stop names and the edges of the graph *)

Lemma coords_fold_None (stopsArr : list Stop) (m : gmap string Coords) (n : string) :
  fold_left (fun m s => <[s_name s := s_coords s]> m) stopsArr m !! n = None
  <-> m !! n = None /\ n ∉ stopNames stopsArr.
Proof.
  revert m. induction stopsArr as [|s ss IH]; intros m; cbn [fold_left].
  - split; [intros H; split; [assumption|apply not_elem_of_nil]|tauto].
  - rewrite IH. unfold stopNames. rewrite fmap_cons, not_elem_of_cons.
    destruct (decide (s_name s = n)) as [E|E].
    + subst n. rewrite lookup_insert_eq. split; [intros [? _]; discriminate|tauto].
    + rewrite lookup_insert_ne by assumption. split; [intros [? ?]|intros [? [? ?]]]; auto.
Qed.

(** A name resolves exactly when some stop carries it. *)
Lemma coordsByName_None (stopsArr : list Stop) (n : string) :
  coordsByName stopsArr !! n = None <-> n ∉ stopNames stopsArr.
Proof.
  unfold coordsByName. rewrite coords_fold_None, lookup_empty. tauto.
Qed.

Lemma coordsByName_Some (stopsArr : list Stop) (n : string) :
  is_Some (coordsByName stopsArr !! n) <-> n ∈ stopNames stopsArr.
Proof.
  rewrite <- not_eq_None_Some, coordsByName_None.
  destruct (decide (n ∈ stopNames stopsArr)); tauto.
Qed.

Lemma routeEdges_resolved (M : MathLib) (coords : gmap string Coords)
    (r : Route) (k : string) (e : Edge) :
  (k, e) ∈ routeEdges M coords r ->
  exists fc tc, coords !! r_from r = Some fc /\ coords !! r_to r = Some tc
    /\ e_fare e = r_fare r /\ e_distance e = routeDist M r fc tc
    /\ ((k = r_from r /\ e_to e = r_to r) \/ (k = r_to r /\ e_to e = r_from r)).
Proof.
  unfold routeEdges.
  destruct (coords !! r_from r) as [fc|]; [|intros H; inversion H].
  destruct (coords !! r_to r) as [tc|]; [|intros H; inversion H].
  intros H. exists fc, tc.
  apply elem_of_cons in H as [H|H]; [|apply list_elem_of_singleton in H];
    injection H as -> ->; simpl; auto 10.
Qed.

Lemma outgoing_elem (k : string) (es : list (string * Edge)) (e : Edge) :
  e ∈ outgoing k es <-> (k, e) ∈ es.
Proof.
  unfold outgoing. rewrite list_elem_of_fmap. split.
  - intros ([k' e'] & -> & H). apply list_elem_of_filter in H as [Hk H].
    simpl in Hk. subst k'. assumption.
  - intros H. exists (k, e). split; [reflexivity|].
    apply list_elem_of_filter. auto.
Qed.

(** Every edge of the graph comes from a route both of whose ends resolve. *)
Lemma buildAdj_edge (M : MathLib) (stopsArr : list Stop) (routesArr : list Route)
    (k : string) (e : Edge) :
  e ∈ neighborsOf (buildAdj M stopsArr routesArr) k
  <-> exists r, r ∈ routesArr /\ (k, e) ∈ routeEdges M (coordsByName stopsArr) r.
Proof.
  rewrite neighborsOf_buildAdj, outgoing_elem, list_elem_of_bind.
  split; intros (r & H1 & H2); exists r; auto.
Qed.

Lemma buildAdj_edge_resolved (M : MathLib) (stopsArr : list Stop)
    (routesArr : list Route) (k : string) (e : Edge) :
  e ∈ neighborsOf (buildAdj M stopsArr routesArr) k ->
  k ∈ stopNames stopsArr /\ e_to e ∈ stopNames stopsArr.
Proof.
  intros H. apply buildAdj_edge in H as (r & _ & H).
  apply routeEdges_resolved in H as (fc & tc & Hf & Ht & _ & _ & H).
  rewrite <- !coordsByName_Some.
  destruct H as [[-> ->]|[-> ->]]; rewrite Hf, Ht; split; eexists; reflexivity.
Qed.

(** ** Claims about the graph builder *)




(** ** Names that are no stop names *)

Lemma search_S (fuel : nat) (p : Priority) (adj : gmap string (list Edge))
    (end_ : string) (best : gmap string Cost) (pq : list Node) :
  search (S fuel) p adj end_ best pq
  = match sortBy (fun A B => cmpCost p (cost A) (cost B)) pq with
    | [] => Returned None
    | current :: pq' =>
        match best !! node current with
        | None => Threw
        | Some currentBest =>
            if ngt0 (cmpCost p (cost current) currentBest) then
              search fuel p adj end_ best pq'
            else if String.eqb (node current) end_ then
              Returned (Some (resultOf current))
            else
              search fuel p adj end_
                (fst (fold_left (relax p current)
                        (neighborsOf adj (node current)) (best, pq')))
                (snd (fold_left (relax p current)
                        (neighborsOf adj (node current)) (best, pq')))
        end
    end.
Proof. reflexivity. Qed.




Lemma initBest_start (stopsArr : list Stop) (start : string) :
  initBest stopsArr start !! start = Some zeroCost.
Proof. unfold initBest. apply lookup_insert_eq. Qed.






Example absent_end_returns_null :
  findBestPath mathNaN 10 stopsABC routesABC "A" "Z" ByFare = Returned None.
Proof. vm_compute. reflexivity. Qed.

(** ** The two versions side by side *)




Lemma haversineDistance_haversine (M : MathLib) (a b : Coords) :
  Legacy.haversineDistance M a b = haversine M a b.
Proof. reflexivity. Qed.









Lemma initBest_covers (stopsArr : list Stop) (start : string) :
  covers stopsArr (initBest stopsArr start).
Proof.
  intros n Hn. unfold initBest.
  destruct (decide (start = n)) as [->|Hne]; [rewrite lookup_insert_eq; eauto|].
  rewrite lookup_insert_ne by assumption.
  assert (H : forall b : gmap string Cost,
            is_Some (b !! n) \/ n ∈ stopNames stopsArr ->
            is_Some (fold_left (fun b s => <[s_name s := infCost]> b) stopsArr b !! n)).
  { clear Hn. induction stopsArr as [|s ss IH]; intros b Hb; simpl.
    - destruct Hb as [Hb|Hb]; [assumption|inversion Hb].
    - apply IH. destruct (decide (s_name s = n)) as [E|E].
      + left. subst n. rewrite lookup_insert_eq. eauto.
      + rewrite lookup_insert_ne by assumption.
        destruct Hb as [Hb|Hb]; [auto|].
        unfold stopNames in Hb. rewrite fmap_cons in Hb.
        apply elem_of_cons in Hb as [Hb|Hb]; [congruence|auto]. }
  apply H. auto.
Qed.






Example versions_agree_run :
  exists r,
    findBestPath mathFlat 10 stopsABC routesBare "A" "C" ByFare = Returned (Some r)
    /\ Legacy.findBestPath mathFlat 10 stopsABC routesBare "A" "C"
       = Returned (Some (forgetStops r))
    /\ path r = ["A"; "B"; "C"].
Proof. eexists. split; [vm_compute; reflexivity|]. split; vm_compute; reflexivity. Qed.

(** [findPath.ts] does not read the declared distance of a route: on the
    scenario with declared distances the two totals differ. *)
Example legacy_ignores_declared_distance :
  (exists r, findBestPath mathFlat 10 stopsABC routesABC "A" "C" ByFare
             = Returned (Some r) /\ totalDistance r = Fin 222)
  /\ (exists r, Legacy.findBestPath mathFlat 10 stopsABC routesABC "A" "C"
                = Returned (Some r)
                /\ neqb (Legacy.totalDistance r) (Fin 222) = false).
Proof.
  split; eexists; (split; [vm_compute; reflexivity|]); vm_compute; reflexivity.
Qed.

(** X17: [findPath.ts] returns [null] at once, before any loop round, when
    the start name or the end name is no stop name, also when the two names
    are equal, whatever the routes are. *)
Lemma legacy_absent_stop (M : MathLib) (fuel : nat) (stopsArr : list Stop)
    (routesArr : list Route) (start end_ : string) :
  start ∉ stopNames stopsArr \/ end_ ∉ stopNames stopsArr ->
  Legacy.findBestPath M fuel stopsArr routesArr start end_ = Returned None.
Proof.
  rewrite <- !coordsByName_None. unfold Legacy.findBestPath. intros [H|H]; rewrite H.
  - reflexivity.
  - destruct (coordsByName stopsArr !! start); reflexivity.
Qed.

(** X18: when the start name is a stop name and equals the end name,
    [findPath.ts] returns the one-stop result in the first round of its
    loop: the path is the start alone, there are no legs, and both totals
    are zero. *)
Lemma legacy_same_stop (M : MathLib) (fuel : nat) (stopsArr : list Stop)
    (routesArr : list Route) (start : string) :
  start ∈ stopNames stopsArr ->
  Legacy.findBestPath M (S fuel) stopsArr routesArr start start
  = Returned (Some {| Legacy.path := [start]; Legacy.legs := [];
                      Legacy.totalFare := nzero; Legacy.totalDistance := nzero |}).
Proof.
  intros H. apply coordsByName_Some in H as [c Hc].
  unfold Legacy.findBestPath. rewrite Hc.
  cbn [Legacy.search]. unfold sortBy.
  cbn [fold_left insertBy Legacy.startNode Legacy.q_stop].
  rewrite initBest_start. unfold Legacy.skipped, Legacy.isBetter, Legacy.sameCost.
  simpl. rewrite String.eqb_refl. reflexivity.
Qed.

(** ** A search that does not end

    Without the bound on the fares the loop need not end: on a route with
    fare -1 between A and B and an end name that is never reached, every
    round lowers the best fare of one of the two stops and pushes a new
    record. *)

Lemma cycle_neighbors (v other : string) :
  (v = "A" /\ other = "B") \/ (v = "B" /\ other = "A") ->
  neighborsOf (buildAdj mathNaN stopsAB routesCycle) v = [mkEdge other (-1) 0]
  /\ String.eqb v "Z" = false /\ other <> v.
Proof. intros [[-> ->]|[-> ->]]; (split; [reflexivity|split; [reflexivity|discriminate]]). Qed.

Lemma cycle_search_runs (fuel : nat) (best : gmap string Cost) (n : Node)
    (other : string) (f s d : Q) :
  (node n = "A" /\ other = "B") \/ (node n = "B" /\ other = "A") ->
  cost n = fin3 f s d ->
  best !! node n = Some (cost n) ->
  ltC ByFare (fin3 (f + -1) (s + 1) (d + 0)) (bestOf best other) = true ->
  search fuel ByFare (buildAdj mathNaN stopsAB routesCycle) "Z" best [n] = OutOfFuel.
Proof.
  revert best n other f s d.
  induction fuel as [|fuel IH]; intros best n other f s d Hn Hc Hb Hlt; [reflexivity|].
  destruct (cycle_neighbors (node n) other Hn) as (Hadj & Hz & Hne).
  rewrite search_S. unfold sortBy. cbn [fold_left insertBy].
  rewrite Hb. fold (gtC ByFare (cost n) (cost n)). rewrite gtC_ltC, Hc.
  rewrite (proj2 (ltC_fin3_false ByFare f s d f s d))
    by (unfold qlt, lex3; lra).
  rewrite Hz, Hadj. cbn [fold_left]. rewrite relax_eq. cbn [fst snd].
  assert (Hstep : stepCost (cost n) (mkEdge other (-1) 0)
                  = fin3 (f + -1) (s + 1) (d + 0)) by (rewrite Hc; reflexivity).
  rewrite Hstep. change (e_to (mkEdge other (-1) 0)) with other.
  fold (bestOf best other). rewrite Hlt. cbn [fst snd app].
  apply (IH _ _ (node n) (f + -1) (s + 1) (d + 0)).
  - simpl. destruct Hn as [[-> ->]|[-> ->]]; auto.
  - simpl. exact Hstep.
  - simpl. rewrite Hstep. apply lookup_insert_eq.
  - unfold bestOf. simpl. rewrite lookup_insert_ne by assumption. rewrite Hb, Hc. simpl.
    apply ltC_fin3. unfold qlt, lex3. lra.
Qed.

Lemma negative_cycle_never_returns (fuel : nat) :
  findBestPath mathNaN fuel stopsAB routesCycle "A" "Z" ByFare = OutOfFuel.
Proof.
  unfold findBestPath. simpl String.eqb. cbv iota.
  apply (cycle_search_runs fuel _ (startNode "A") "B" 0 0 0).
  - left. split; reflexivity.
  - reflexivity.
  - apply initBest_start.
  - reflexivity.
Qed.

(** ** Exceptions *)

Lemma relax_indexed (p : Priority) (cur : Node)
    (st : gmap string Cost * list Node) (e : Edge) :
  indexed (fst st) (snd st) ->
  indexed (fst (relax p cur st e)) (snd (relax p cur st e)).
Proof.
  unfold indexed. intros H. rewrite relax_eq.
  destruct (ltC p _ _); cbn [fst snd]; [|assumption].
  apply Forall_app. split.
  - eapply Forall_impl; [exact H|]. intros n Hn. cbn beta in *.
    apply lookup_insert_is_Some'. right. assumption.
  - constructor; [|constructor]. simpl. rewrite lookup_insert_eq. eauto.
Qed.

Lemma relax_fold_indexed (p : Priority) (cur : Node) (es : list Edge)
    (st : gmap string Cost * list Node) :
  indexed (fst st) (snd st) ->
  indexed (fst (fold_left (relax p cur) es st)) (snd (fold_left (relax p cur) es st)).
Proof.
  revert st. induction es as [|e es IH]; intros st H; simpl; [assumption|].
  apply IH. apply relax_indexed. assumption.
Qed.

Lemma search_never_throws (fuel : nat) (p : Priority) (adj : gmap string (list Edge))
    (end_ : string) (best : gmap string Cost) (pq : list Node) :
  indexed best pq -> threw (search fuel p adj end_ best pq) = false.
Proof.
  revert best pq. induction fuel as [|fuel IH]; intros best pq H; [reflexivity|].
  rewrite search_S.
  destruct (sortBy _ pq) as [|cur pq'] eqn:Es; [reflexivity|].
  assert (Hs : indexed best (cur :: pq')).
  { unfold indexed. rewrite <- Es, sortBy_perm. exact H. }
  apply Forall_cons in Hs as [[cb Hcb] Hpq']. rewrite Hcb.
  destruct (ngt0 _); [apply IH; assumption|].
  destruct (String.eqb (node cur) end_); [reflexivity|].
  apply IH. apply (relax_fold_indexed p cur _ (best, pq')). assumption.
Qed.

(** X8: [findBestPath] never throws, whatever the stops, routes, names and
    priority: every record taken from the frontier has an entry in [best],
    so the lookup [best.get(current.node)!] of line 87 is never
    [undefined].  This holds with negative, infinite and NaN fares too. *)
Theorem findBestPath_never_throws (M : MathLib) (fuel : nat)
    (stopsArr : list Stop) (routesArr : list Route)
    (start end_ : string) (priority : Priority) :
  threw (findBestPath M fuel stopsArr routesArr start end_ priority) = false.
Proof.
  unfold findBestPath. destruct (String.eqb start end_); [reflexivity|].
  apply search_never_throws.
  constructor; [|constructor]. simpl. rewrite initBest_start. eauto.
Qed.

(** ** Path and legs of a result *)

Lemma linked_child (n : Node) (e : Edge) : linked n -> linked (child n e).
Proof.
  unfold linked. intros H. cbn [child n_path n_legs node].
  rewrite H, fmap_app, <- !app_assoc. reflexivity.
Qed.

(** X1: in every result the path is the start followed by the destination
    of each leg, and also the origin of each leg followed by the end: the
    first stop is the start, the last one the end, and every leg leaves the
    stop the leg before it arrived at.  The legs, read as edges, are a walk
    of the graph from the start to the end. *)
Theorem result_path_follows_legs (M : MathLib) (fuel : nat)
    (stopsArr : list Stop) (routesArr : list Route)
    (start end_ : string) (priority : Priority) (r : PathResult) :
  findBestPath M fuel stopsArr routesArr start end_ priority = Returned (Some r) ->
  path r = start :: (l_to <$> legs r)
  /\ path r = (l_from <$> legs r) ++ [end_]
  /\ isWalk (buildAdj M stopsArr routesArr) start (legEdge <$> legs r) end_.
Proof.
  intros H. split; [|split].
  - apply result_is_walk in H. tauto.
  - unfold findBestPath in H. destruct (String.eqb_spec start end_) as [<-|Hne].
    + injection H as <-. reflexivity.
    + apply (search_returns_closed linked _ (fun n e Hn _ => linked_child n e Hn))
        in H as (n & Hn & <- & ->).
      * exact Hn.
      * constructor; [reflexivity|constructor].
  - apply result_is_walk in H. tauto.
Qed.

(** Witness of X1. *)
Lemma result_path_follows_legs_witness :
  findBestPath mathNaN 10 stopsABC routesABC "A" "C" ByFare
  = Returned (Some resultABC)
  /\ path resultABC = "A" :: (l_to <$> legs resultABC)
  /\ path resultABC = (l_from <$> legs resultABC) ++ ["C"]
  /\ isWalk (buildAdj mathNaN stopsABC routesABC) "A"
       (legEdge <$> legs resultABC) "C".
Proof.
  assert (H : findBestPath mathNaN 10 stopsABC routesABC "A" "C" ByFare
              = Returned (Some resultABC)) by (vm_compute; reflexivity).
  split; [exact H|].
  exact (result_path_follows_legs mathNaN 10 stopsABC routesABC "A" "C" ByFare
           resultABC H).
Defined.

Lemma fromRoutes_child (M : MathLib) (stopsArr : list Stop) (routesArr : list Route)
    (n : Node) (e : Edge) :
  fromRoutes M (coordsByName stopsArr) routesArr (n_legs n) ->
  e ∈ neighborsOf (buildAdj M stopsArr routesArr) (node n) ->
  fromRoutes M (coordsByName stopsArr) routesArr (n_legs (child n e)).
Proof.
  unfold fromRoutes. intros Hn He. cbn [child n_legs].
  apply Forall_app. split; [assumption|]. constructor; [|constructor].
  apply buildAdj_edge in He as (r & Hr & He).
  apply routeEdges_resolved in He as (fc & tc & Hf & Ht & Hfare & Hdist & Hdir).
  exists r. split; [assumption|]. exists fc, tc. simpl. auto 10.
Qed.

(** X2: every leg of a result runs along a route of the route list whose
    two names resolve, forwards or backwards: it has the fare of that route
    and, as its distance, the distance the route declares or else the
    haversine distance of its two stops. *)
Theorem result_legs_are_routes (M : MathLib) (fuel : nat)
    (stopsArr : list Stop) (routesArr : list Route)
    (start end_ : string) (priority : Priority) (r : PathResult) :
  findBestPath M fuel stopsArr routesArr start end_ priority = Returned (Some r) ->
  Forall (fun l => exists rt, rt ∈ routesArr
                     /\ legOfRoute M (coordsByName stopsArr) rt l)
    (legs r).
Proof.
  unfold findBestPath. destruct (String.eqb start end_).
  - intros [= <-]. constructor.
  - intros H.
    apply (search_returns_closed
             (fun n => fromRoutes M (coordsByName stopsArr) routesArr (n_legs n))
             _ (fromRoutes_child M stopsArr routesArr))
      in H as (n & Hn & _ & ->).
    + exact Hn.
    + constructor; [constructor|constructor].
Qed.

(** Witness of X2. *)
Lemma result_legs_are_routes_witness :
  findBestPath mathNaN 10 stopsABC routesABC "A" "C" ByFare
  = Returned (Some resultABC)
  /\ Forall (fun l => exists rt, rt ∈ routesABC
                        /\ legOfRoute mathNaN (coordsByName stopsABC) rt l)
       (legs resultABC).
Proof.
  assert (H : findBestPath mathNaN 10 stopsABC routesABC "A" "C" ByFare
              = Returned (Some resultABC)) by (vm_compute; reflexivity).
  split; [exact H|].
  exact (result_legs_are_routes mathNaN 10 stopsABC routesABC "A" "C" ByFare
           resultABC H).
Defined.

Lemma isWalk_names (M : MathLib) (stopsArr : list Stop) (routesArr : list Route)
    (u : string) (es : list Edge) (v : string) :
  isWalk (buildAdj M stopsArr routesArr) u es v ->
  es <> [] ->
  u ∈ stopNames stopsArr /\ Forall (fun e => e_to e ∈ stopNames stopsArr) es.
Proof.
  revert u. induction es as [|e es IH]; intros u Hw Hne; [contradiction|].
  destruct Hw as [He Hw].
  destruct (buildAdj_edge_resolved M stopsArr routesArr u e He) as [Hu Hto].
  split; [assumption|]. constructor; [assumption|].
  destruct es as [|e' es]; [constructor|].
  apply (IH (e_to e) Hw). discriminate.
Qed.

(** X3: when the start and end names differ, every entry of a returned
    path is the name of a stop of the stop list, the start and the end
    included. *)
Theorem result_visits_stops_only (M : MathLib) (fuel : nat)
    (stopsArr : list Stop) (routesArr : list Route)
    (start end_ : string) (priority : Priority) (r : PathResult) :
  start <> end_ ->
  findBestPath M fuel stopsArr routesArr start end_ priority = Returned (Some r) ->
  Forall (fun s => s ∈ stopNames stopsArr) (path r).
Proof.
  intros Hne H. apply result_is_walk in H as (Hw & _ & Hp). rewrite Hp.
  destruct (legs r) as [|l ls] eqn:El.
  - simpl in Hw. contradiction.
  - apply isWalk_names in Hw as [Hs Hes]; [|discriminate].
    constructor; [assumption|].
    rewrite Forall_fmap in Hes. rewrite Forall_fmap.
    eapply Forall_impl; [exact Hes|]. intros l' Hl'. exact Hl'.
Qed.

(** Witness of X3. *)
Lemma result_visits_stops_only_witness :
  "A" <> "C"
  /\ findBestPath mathNaN 10 stopsABC routesABC "A" "C" ByFare
     = Returned (Some resultABC)
  /\ Forall (fun s => s ∈ stopNames stopsABC) (path resultABC).
Proof.
  assert (H1 : "A" <> "C") by discriminate.
  assert (H2 : findBestPath mathNaN 10 stopsABC routesABC "A" "C" ByFare
               = Returned (Some resultABC)) by (vm_compute; reflexivity).
  split; [exact H1|]. split; [exact H2|].
  exact (result_visits_stops_only mathNaN 10 stopsABC routesABC "A" "C" ByFare
           resultABC H1 H2).
Defined.

(** ** Reachability, simple paths and the number of rounds *)

Section Reach.
Variable p : Priority.
Variable adj : gmap string (list Edge).
Variable start : string.
Hypothesis adj_nonneg : nonnegCosts adj = true.


Variable end_ : string.


(** A relaxation that fires reaches a stop that has not been expanded. *)
Lemma relax_fires_outside (D : gset string) (best : gmap string Cost) (pq : list Node)
    (cur : Node) (e : Edge) :
  Core p start D (cost cur) best pq -> goodEdgeb e = true ->
  ltC p (stepCost (cost cur) e) (bestOf best (e_to e)) = true ->
  e_to e ∉ D.
Proof.
  intros HC He Hlt Hin.
  destruct (core_done HC _ Hin) as (c & Hb & Hg & Hc).
  unfold bestOf in Hlt. rewrite Hb in Hlt. simpl in Hlt.
  pose proof (core_m HC) as Hm.
  assert (Hnew : good (stepCost (cost cur) e)) by (apply stepCost_good; assumption).
  assert (H1 : ltC p c (stepCost (cost cur) e) = true).
  { apply (leC_ltC_trans p c (cost cur)); auto; try (left; assumption).
    apply stepCost_worse; assumption. }
  apply ltC_leC in H1; [|left; assumption|left; assumption].
  unfold leC in H1. congruence.
Qed.

Lemma simple_mono (done done' : gset string) (n : Node) :
  done ⊆ done' -> simple done n -> simple done' n.
Proof.
  intros Hsub [H1 H2]. split; [assumption|].
  intros v Hv. destruct (H2 v Hv) as [|H]; [auto|right; apply Hsub; assumption].
Qed.

Lemma relax_fold_simple (D : gset string) (cur : Node) (es : list Edge)
    (best : gmap string Cost) (pq : list Node) :
  Core p start D (cost cur) best pq ->
  (forall e, e ∈ es -> goodEdgeb e = true) ->
  NoDup (n_path cur) -> (forall v, v ∈ n_path cur -> v ∈ D) ->
  Forall (simple D) pq ->
  Forall (simple D) (snd (fold_left (relax p cur) es (best, pq))).
Proof.
  intros HC Hes Hnd Hin. revert best pq HC.
  induction es as [|e es IH]; intros best pq HC Hpq; [exact Hpq|].
  cbn [fold_left].
  assert (He : goodEdgeb e = true) by (apply Hes; left).
  destruct (relax_Core p start D best pq cur e HC He) as (HC1 & _).
  assert (Hpq1 : Forall (simple D) (snd (relax p cur (best, pq) e))).
  { rewrite relax_eq. cbn [fst snd]. fold (bestOf best (e_to e)).
    destruct (ltC p _ (bestOf best (e_to e))) eqn:Hlt; cbn [snd]; [|assumption].
    pose proof (relax_fires_outside D best pq cur e HC He Hlt) as Hout.
    apply Forall_app. split; [assumption|]. constructor; [|constructor].
    split; cbn [child n_path node].
    - apply NoDup_app. split; [assumption|]. split; [|apply NoDup_singleton].
      intros x Hx Hxu. apply list_elem_of_singleton in Hxu. subst x.
      apply Hout. apply Hin. assumption.
    - intros v Hv. apply elem_of_app in Hv as [Hv|Hv].
      + right. apply Hin. assumption.
      + left. apply list_elem_of_singleton in Hv. assumption. }
  destruct (relax p cur (best, pq) e) as [b1 q1]. cbn [fst snd] in *.
  apply IH; [intros e' He'; apply Hes; right; assumption|assumption|assumption].
Qed.

Lemma search_simple (fuel : nat) (done : gset string) (m : Cost)
    (best : gmap string Cost) (pq : list Node) (r : PathResult) :
  Core p start done m best pq -> Forall (simple done) pq ->
  search fuel p adj end_ best pq = Returned (Some r) ->
  NoDup (path r).
Proof.
  revert done m best pq. induction fuel as [|fuel IH]; intros done m best pq HC Hpq;
    [discriminate|].
  rewrite search_S.
  destruct (sortBy _ pq) as [|cur pq'] eqn:Es; [discriminate|].
  destruct (sorted_frontier p start _ _ _ _ _ _ HC Es) as [Hperm Hlow].
  assert (Hcur : cur ∈ pq) by (rewrite <- Hperm; left).
  assert (Hs : Forall (simple done) (cur :: pq')) by (rewrite Hperm; assumption).
  apply Forall_cons in Hs as [[Hnd Hcs] Hpq'].
  destruct (core_pq HC cur Hcur) as (Hgood & _ & cb & Hcb & Hle).
  rewrite Hcb.
  assert (Hbo : bestOf best (node cur) = cb) by (unfold bestOf; rewrite Hcb; reflexivity).
  fold (gtC p (cost cur) cb). rewrite <- Hbo.
  destruct (gtC p (cost cur) (bestOf best (node cur))) eqn:Hgt.
  - apply (IH done m); [|assumption].
    apply (Core_skip p start _ _ _ pq cur); assumption.
  - destruct (String.eqb (node cur) end_).
    + intros [= <-]. exact Hnd.
    + destruct (Core_pop p adj start adj_nonneg _ _ _ _ _ _ HC Hperm Hlow Hgt)
        as [Hnot HC'].
      destruct (relax_fold_Core p start _ cur (neighborsOf adj (node cur)) best pq' HC')
        as (HC'' & _).
      { intros e. apply nonnegCosts_edge. assumption. }
      apply (IH _ _ _ _ HC'').
      apply relax_fold_simple; try assumption.
      * intros e. apply nonnegCosts_edge. assumption.
      * intros v Hv. rewrite elem_of_union, elem_of_singleton.
        destruct (Hcs v Hv); auto.
      * eapply Forall_impl; [exact Hpq'|]. intros n. apply simple_mono.
        apply union_subseteq_l.
Qed.
End Reach.
















(** ** The search on doubles

    [findBestPath] above adds exactly; the source adds doubles.  This part
    relates the two: with the exact addition the search with a parameter is
    [findBestPath]; on a graph whose costs add without rounding the search
    on doubles goes through the states of the exact search, so that its
    result is optimal; and on fares whose sums round it is not. *)

Lemma searchWith_nadd (fuel : nat) (p : Priority) (adj : gmap string (list Edge))
    (end_ : string) (best : gmap string Cost) (pq : list Node) :
  searchWith nadd fuel p adj end_ best pq = search fuel p adj end_ best pq.
Proof.
  revert best pq. induction fuel as [|fuel IH]; intros best pq; [reflexivity|].
  simpl. destruct (sortBy _ pq) as [|cur pq']; [reflexivity|].
  destruct (best !! node cur); [|reflexivity].
  rewrite !IH. reflexivity.
Qed.

(** With the exact addition the search with a parameter is the search. *)
Lemma findBestPathWith_nadd (M : MathLib) (fuel : nat) (stopsArr : list Stop)
    (routesArr : list Route) (start end_ : string) (p : Priority) :
  findBestPathWith nadd M fuel stopsArr routesArr start end_ p
  = findBestPath M fuel stopsArr routesArr start end_ p.
Proof.
  unfold findBestPathWith, findBestPath. rewrite searchWith_nadd. reflexivity.
Qed.

Lemma exactCosts_nonneg (k : nat) (adj : gmap string (list Edge)) :
  exactCosts k adj = true -> nonnegCosts adj = true.
Proof.
  unfold exactCosts, nonnegCosts. rewrite !andb_true_iff.
  intros [[[[_ H] _] _] _].
  rewrite forallb_forall in H. apply forallb_forall. intros kv Hkv.
  apply forallb_forall. intros e He.
  assert (Hg : gridEdgeb k e = true).
  { apply H. apply list_elem_of_In. unfold edgesOf. apply list_elem_of_bind.
    exists kv. split; apply list_elem_of_In; assumption. }
  unfold gridEdgeb, gridb in Hg. unfold goodEdgeb, nonnegb.
  destruct (e_fare e), (e_distance e); try discriminate; simpl in *;
    try (rewrite ?andb_false_r in Hg; discriminate).
  rewrite !andb_true_iff in Hg. destruct Hg as [[-> _] [-> _]]. reflexivity.
Qed.

(** The doubles nearest to 0.1 and to 0.8, and the double sum of 0.1 and
    0.7, which is 0.7999999999999999 and below the double 0.8; adding 2 to
    either gives the same double. *)
Example doubles_tenths :
  toDouble (1 # 10) = Fin (3602879701896397 # 36028797018963968)
  /\ dadd (toDouble (1 # 10)) (toDouble (7 # 10))
     = Fin (7205759403792793 # 9007199254740992)
  /\ toDouble (8 # 10) = Fin (3602879701896397 # 4503599627370496)
  /\ nltb (dadd (toDouble (1 # 10)) (toDouble (7 # 10))) (toDouble (8 # 10)) = true
  /\ dadd (dadd (toDouble (1 # 10)) (toDouble (7 # 10))) (Fin 2)
     = dadd (toDouble (8 # 10)) (Fin 2).
Proof. vm_compute. repeat split. Qed.

(** ** Sums that are doubles *)

Lemma nearestEven_exact (n d : Z) :
  (0 < d)%Z -> (n mod d = 0)%Z -> nearestEven n d = (n / d)%Z.
Proof.
  intros Hd Hm. unfold nearestEven. rewrite Hm.
  change (2 * 0)%Z with 0%Z. rewrite (proj2 (Z.compare_lt_iff 0 d) Hd). reflexivity.
Qed.

Lemma onGrid_spec (k : nat) (q : Q) :
  onGrid k q = true
  <-> exists M : Z, (Qnum q * 2 ^ Z.of_nat k = M * Zpos (Qden q))%Z.
Proof.
  unfold onGrid. rewrite Z.eqb_eq. split.
  - intros H. exists (Qnum q * 2 ^ Z.of_nat k / Zpos (Qden q))%Z.
    apply Z.div_exact in H; lia.
  - intros [M H]. rewrite H. apply Z.mod_mul. lia.
Qed.

(** A whole number of units [2^(1074 - K)] that is at most [2^53] of them
    is a whole number of the units the doubles around it are apart. *)
Lemma spacing_divides (M K : Z) :
  (0 <= K <= 1074)%Z -> (0 <= M <= 2 ^ 53)%Z ->
  exists j : Z,
    (M * 2 ^ (1074 - K)
     = j * 2 ^ (Z.max (Z.log2 (M * 2 ^ (1074 - K))) 52 - 52))%Z.
Proof.
  intros HK HM.
  destruct (Z.eq_dec M 0%Z) as [->|HM0].
  { exists 0%Z. reflexivity. }
  assert (Hlog : Z.log2 (M * 2 ^ (1074 - K)) = (1074 - K + Z.log2 M)%Z).
  { apply Z.log2_mul_pow2; lia. }
  rewrite Hlog.
  assert (H53 : (Z.log2 M <= 53)%Z).
  { rewrite <- (Z.log2_pow2 53) by lia. apply Z.log2_le_mono. lia. }
  assert (H0 : (0 <= Z.log2 M)%Z) by apply Z.log2_nonneg.
  destruct (Z.max_spec (1074 - K + Z.log2 M)%Z 52%Z) as [[Hlt ->]|[Hle ->]].
  - replace (52 - 52)%Z with 0%Z by lia. exists (M * 2 ^ (1074 - K))%Z.
    rewrite Z.pow_0_r. lia.
  - destruct (Z.eq_dec (Z.log2 M) 53%Z) as [E|E].
    + assert (HM' : M = (2 ^ 53)%Z).
      { pose proof (Z.log2_spec M ltac:(lia)) as [Hl _]. rewrite E in Hl. lia. }
      exists (2 ^ 52)%Z. rewrite E. subst M.
      rewrite <- !Z.pow_add_r by lia. f_equal. lia.
    + exists (M * 2 ^ (1074 - K - (1074 - K + Z.log2 M - 52)))%Z.
      rewrite <- Z.mul_assoc, <- Z.pow_add_r by lia. do 2 f_equal. lia.
Qed.

Lemma toDouble_exact (k : nat) (q : Q) :
  (k <= 1074)%nat -> 0 <= q -> onGrid k q = true ->
  q * inject_Z (2 ^ Z.of_nat k) <= inject_Z (2 ^ 53) ->
  exists r, toDouble q = Fin r /\ r == q.
Proof.
  intros Hk Hq Hg Hb. destruct q as [n d].
  apply onGrid_spec in Hg as [M HM]. cbn [Qnum Qden] in HM.
  assert (HK : (0 <= Z.of_nat k <= 1074)%Z) by lia.
  set (K := Z.of_nat k) in *. clearbody K.
  assert (Hn : (0 <= n)%Z).
  { unfold Qle in Hq. simpl in Hq. lia. }
  assert (HpK : (0 < 2 ^ K)%Z) by (apply Z.pow_pos_nonneg; lia).
  assert (HM0 : (0 <= M)%Z) by nia.
  assert (HM53 : (M <= 2 ^ 53)%Z).
  { unfold Qle in Hb. cbn [Qnum Qden Qmult inject_Z] in Hb.
    rewrite !Z.mul_1_r, Pos.mul_1_r in Hb. rewrite HM in Hb.
    apply Z.mul_le_mono_pos_r in Hb; lia. }
  unfold toDouble. cbn [Qnum Qden]. rewrite (Z.abs_eq n Hn).
  assert (HN : (n * 2 ^ 1074 = M * 2 ^ (1074 - K) * Zpos d)%Z).
  { replace 1074%Z with (K + (1074 - K))%Z at 1 by lia.
    rewrite Z.pow_add_r by lia. rewrite Z.mul_assoc, HM. ring. }
  rewrite HN. rewrite Z.div_mul by lia.
  destruct (spacing_divides M K HK (conj HM0 HM53)) as [j Hj].
  set (S0 := (M * 2 ^ (1074 - K))%Z) in *.
  set (w := (Z.max (Z.log2 S0) 52 - 52)%Z) in *.
  assert (Hw : (0 <= w)%Z) by (unfold w; lia).
  assert (Hpw : (0 < 2 ^ w)%Z) by (apply Z.pow_pos_nonneg; lia).
  assert (Hq1 : (S0 * Zpos d / (Zpos d * 2 ^ w) = j)%Z).
  { rewrite Hj. replace (j * 2 ^ w * Zpos d)%Z with (j * (Zpos d * 2 ^ w))%Z by ring.
    apply Z.div_mul. lia. }
  rewrite nearestEven_exact.
  2: lia.
  2: { rewrite Hj. replace (j * 2 ^ w * Zpos d)%Z with (j * (Zpos d * 2 ^ w))%Z by ring.
       apply Z.mod_mul. lia. }
  rewrite Hq1, <- Hj.
  assert (HS : (S0 < 2 ^ 2098)%Z).
  { unfold S0. apply Z.le_lt_trans with (2 ^ 53 * 2 ^ (1074 - K))%Z.
    - apply Z.mul_le_mono_nonneg_r; [apply Z.pow_nonneg|]; lia.
    - rewrite <- Z.pow_add_r by lia. apply Z.pow_lt_mono_r; lia. }
  destruct (Z.leb_spec (2 ^ 2098)%Z S0) as [Hov|_]; [lia|].
  destruct (Z.ltb_spec n 0%Z) as [Hneg|_]; [lia|].
  eexists. split; [reflexivity|].
  rewrite Qred_correct. unfold Qeq. cbn [Qnum Qden].
  rewrite Z2Pos.id by (apply Z.pow_pos_nonneg; lia). lia.
Qed.

(** ** Representations of one number *)

Lemma numEq_refl (a : num) : numEq a a.
Proof. destruct a; simpl; auto. reflexivity. Qed.

Lemma costEq_refl (c : Cost) : costEq c c.
Proof. repeat split; apply numEq_refl. Qed.

Lemma neqb_numEq (a' a b' b : num) :
  numEq a' a -> numEq b' b -> neqb a' b' = neqb a b.
Proof.
  destruct a, a', b, b'; simpl; try contradiction; try reflexivity.
  intros H1 H2. qtests; try reflexivity; exfalso; lra.
Qed.

Lemma nltb_numEq (a' a b' b : num) :
  numEq a' a -> numEq b' b -> nltb a' b' = nltb a b.
Proof.
  destruct a, a', b, b'; simpl; try contradiction; try reflexivity.
  intros H1 H2. qtests; try reflexivity; exfalso; lra.
Qed.

Lemma firstDiffSmaller_numEq (ka' ka kb' kb : list num) :
  Forall2 numEq ka' ka -> Forall2 numEq kb' kb ->
  firstDiffSmaller ka' kb' = firstDiffSmaller ka kb.
Proof.
  intros Ha. revert kb' kb. induction Ha as [|x' x ka' ka Hx Ha IH]; intros kb' kb Hb.
  - reflexivity.
  - destruct Hb as [|y' y kb' kb Hy Hb]; [reflexivity|]. simpl.
    rewrite (neqb_numEq _ _ _ _ Hx Hy), (nltb_numEq _ _ _ _ Hx Hy), (IH _ _ Hb).
    reflexivity.
Qed.

Lemma keys_costEq (p : Priority) (a' a : Cost) :
  costEq a' a -> Forall2 numEq (keys p a') (keys p a).
Proof. intros (H1 & H2 & H3). destruct p; simpl; repeat constructor; assumption. Qed.

Lemma ltC_costEq (p : Priority) (a' a b' b : Cost) :
  costEq a' a -> costEq b' b -> ltC p a' b' = ltC p a b.
Proof.
  intros Ha Hb. rewrite !ltC_lex.
  apply firstDiffSmaller_numEq; apply keys_costEq; assumption.
Qed.

Lemma gtC_costEq (p : Priority) (a' a b' b : Cost) :
  costEq a' a -> costEq b' b -> gtC p a' b' = gtC p a b.
Proof. intros Ha Hb. rewrite !gtC_ltC. apply ltC_costEq; assumption. Qed.

(** ** The sort on two frontiers that hold the same records *)

Section SortSim.
Context {A : Type} (R : A -> A -> Prop) (cmp : A -> A -> num).
Hypothesis cmp_R : forall x' x y' y,
  R x' x -> R y' y -> ngt0 (cmp x' y') = ngt0 (cmp x y).

Lemma insertBy_sim (x' x : A) (l' l : list A) :
  R x' x -> Forall2 R l' l -> Forall2 R (insertBy cmp x' l') (insertBy cmp x l).
Proof.
  intros Hx Hl. induction Hl as [|y' y l' l Hy Hl IH]; simpl.
  - repeat constructor; assumption.
  - rewrite (cmp_R y' y x' x Hy Hx).
    destruct (ngt0 (cmp y x)); repeat constructor; assumption.
Qed.

Lemma sortBy_sim (l' l : list A) :
  Forall2 R l' l -> Forall2 R (sortBy cmp l') (sortBy cmp l).
Proof.
  unfold sortBy. intros Hl.
  assert (H : Forall2 R (@nil A) []) by constructor.
  revert H. generalize (@nil A) at 1 3. generalize (@nil A).
  induction Hl as [|y' y l' l Hy Hl IH]; intros acc acc' Hacc; simpl; [assumption|].
  apply IH. apply insertBy_sim; assumption.
Qed.
End SortSim.

(** ** Totals over the edges of the graph *)

Lemma total_app (f : Edge -> num) (l1 l2 : list Edge) :
  total f (l1 ++ l2) == total f l1 + total f l2.
Proof.
  induction l1 as [|e l1 IH]; simpl; [lra|]. rewrite IH. lra.
Qed.

Lemma total_perm (f : Edge -> num) (l l' : list Edge) :
  l ≡ₚ l' -> total f l == total f l'.
Proof.
  induction 1; simpl; try lra.
Qed.

Lemma total_nonneg (f : Edge -> num) (l : list Edge) :
  (forall x, x ∈ l -> 0 <= finPart (f x)) -> 0 <= total f l.
Proof.
  induction l as [|e l IH]; intros H; simpl; [lra|].
  assert (0 <= finPart (f e)) by (apply H; left).
  assert (0 <= total f l) by (apply IH; intros x Hx; apply H; right; assumption).
  lra.
Qed.

Lemma total_elem (f : Edge -> num) (l : list Edge) (e : Edge) :
  (forall x, x ∈ l -> 0 <= finPart (f x)) -> e ∈ l -> finPart (f e) <= total f l.
Proof.
  induction l as [|y l IH]; intros H He; [inversion He|]. simpl.
  assert (Hy : 0 <= finPart (f y)) by (apply H; left).
  assert (Hl : 0 <= total f l).
  { apply total_nonneg. intros x Hx. apply H. right. assumption. }
  apply elem_of_cons in He as [->|He]; [lra|].
  assert (finPart (f e) <= total f l).
  { apply IH; [|assumption]. intros x Hx. apply H. right. assumption. }
  lra.
Qed.

Lemma total_length (l : list Edge) :
  total (fun _ => n_one) l == inject_Z (Z.of_nat (length l)).
Proof.
  induction l as [|e l IH]; [reflexivity|].
  cbn [total fold_right length]. fold (total (fun _ => n_one) l). rewrite IH.
  rewrite Nat2Z.inj_succ. unfold Z.succ. rewrite inject_Z_plus.
  change (finPart n_one) with 1. change (inject_Z 1) with 1. lra.
Qed.

Lemma edgesOf_delete (adj : gmap string (list Edge)) (k : string) (l : list Edge) :
  adj !! k = Some l -> edgesOf adj ≡ₚ l ++ edgesOf (delete k adj).
Proof.
  intros H. unfold edgesOf. rewrite <- (map_to_list_delete adj k l H).
  reflexivity.
Qed.

Lemma neighborsOf_edgesOf (adj : gmap string (list Edge)) (k : string) (e : Edge) :
  e ∈ neighborsOf adj k -> e ∈ edgesOf adj.
Proof.
  unfold neighborsOf, edgesOf. intros He.
  destruct (adj !! k) as [l|] eqn:E; simpl in He; [|inversion He].
  apply list_elem_of_bind. exists (k, l). split; [assumption|].
  apply elem_of_map_to_list. assumption.
Qed.

Lemma neighborsOf_delete (adj : gmap string (list Edge)) (k k' : string) :
  k' <> k -> neighborsOf (delete k adj) k' = neighborsOf adj k'.
Proof. intros H. unfold neighborsOf. rewrite lookup_delete_ne by congruence. reflexivity. Qed.

Lemma isWalk_delete (adj : gmap string (list Edge)) (k : string) (es : list Edge)
    (u v : string) :
  isWalk adj u es v -> k ∉ srcs u es -> isWalk (delete k adj) u es v.
Proof.
  revert u. induction es as [|e es IH]; intros u; simpl; [auto|].
  intros [He Hw] Hk. apply not_elem_of_cons in Hk as [Hku Hk].
  split; [|apply IH; assumption].
  rewrite neighborsOf_delete by congruence. assumption.
Qed.

(** The edges of a walk that leaves no stop twice are so many different
    entries of the adjacency lists: what they add up to is at most what all
    entries add up to. *)
Lemma walk_bound (f : Edge -> num) (es : list Edge) :
  forall (adj : gmap string (list Edge)) (u v : string),
    (forall e, e ∈ edgesOf adj -> 0 <= finPart (f e)) ->
    isWalk adj u es v -> NoDup (srcs u es) ->
    total f es <= total f (edgesOf adj).
Proof.
  induction es as [|e es IH]; intros adj u v Hnn Hw Hnd.
  - simpl. apply total_nonneg. assumption.
  - simpl in Hw. destruct Hw as [He Hw]. simpl in Hnd.
    apply NoDup_cons in Hnd as [Hu Hnd].
    assert (Hl : exists l, adj !! u = Some l).
    { unfold neighborsOf in He. destruct (adj !! u) as [l|]; [eauto|inversion He]. }
    destruct Hl as [l Hl].
    assert (Hel : e ∈ l).
    { unfold neighborsOf in He. rewrite Hl in He. exact He. }
    pose proof (edgesOf_delete adj u l Hl) as Hp.
    assert (Hnn' : forall x, x ∈ edgesOf (delete u adj) -> 0 <= finPart (f x)).
    { intros x Hx. apply Hnn. rewrite Hp. apply elem_of_app. right. assumption. }
    assert (Hnl : forall x, x ∈ l -> 0 <= finPart (f x)).
    { intros x Hx. apply Hnn. rewrite Hp. apply elem_of_app. left. assumption. }
    pose proof (IH (delete u adj) (e_to e) v Hnn'
                  (isWalk_delete adj u es (e_to e) v Hw Hu) Hnd) as H1.
    pose proof (total_elem f l e Hnl Hel) as H2.
    rewrite (total_perm f _ _ Hp), total_app.
    cbn [total fold_right]. fold (total f es). lra.
Qed.

Lemma srcs_snoc (u : string) (es : list Edge) (e : Edge) :
  srcs u (es ++ [e]) = u :: (e_to <$> es).
Proof.
  revert u. induction es as [|e' es IH]; intros u; simpl; [reflexivity|].
  rewrite IH. reflexivity.
Qed.

(** ** Whole multiples of [2^-k] *)

Lemma onGrid_iff (k : nat) (q : Q) :
  onGrid k q = true
  <-> exists M : Z, q * inject_Z (2 ^ Z.of_nat k) == inject_Z M.
Proof.
  rewrite onGrid_spec. destruct q as [n d].
  split; intros [M H]; exists M; unfold Qeq in *;
    cbn [Qnum Qden Qmult inject_Z] in *;
    rewrite ?Pos.mul_1_r, ?Z.mul_1_r in *; lia.
Qed.

Lemma onGrid_Qeq (k : nat) (q q' : Q) :
  q == q' -> onGrid k q = true -> onGrid k q' = true.
Proof.
  intros E. rewrite !onGrid_iff. intros [M H]. exists M. rewrite <- E. exact H.
Qed.

Lemma onGrid_plus (k : nat) (a b : Q) :
  onGrid k a = true -> onGrid k b = true -> onGrid k (a + b) = true.
Proof.
  rewrite !onGrid_iff. intros [M1 H1] [M2 H2]. exists (M1 + M2)%Z.
  rewrite inject_Z_plus, <- H1, <- H2. ring.
Qed.

Lemma onGrid_zero (k : nat) : onGrid k 0 = true.
Proof. apply onGrid_iff. exists 0%Z. ring. Qed.

Lemma gridb_fin (k : nat) (x : num) :
  gridb k x = true -> exists q, x = Fin q /\ 0 <= q /\ onGrid k q = true.
Proof.
  destruct x as [q| | |]; simpl; try discriminate.
  intros H. apply andb_true_iff in H as [H1 H2]. apply Qle_bool_iff in H1. eauto.
Qed.

Lemma total_onGrid (k : nat) (f : Edge -> num) (es : list Edge) :
  (forall e, e ∈ es -> gridb k (f e) = true) -> onGrid k (total f es) = true.
Proof.
  induction es as [|e es IH]; intros H; [apply onGrid_zero|].
  cbn [total fold_right]. fold (total f es). apply onGrid_plus.
  - destruct (gridb_fin k (f e)) as (q & -> & _ & Hq); [apply H; left|]. exact Hq.
  - apply IH. intros x Hx. apply H. right. assumption.
Qed.

Lemma gridb_nonneg (k : nat) (x : num) : gridb k x = true -> 0 <= finPart x.
Proof. intros H. destruct (gridb_fin k x H) as (q & -> & Hq & _). exact Hq. Qed.

Lemma isWalk_edges (adj : gmap string (list Edge)) (es : list Edge) (u v : string) :
  isWalk adj u es v -> forall e, e ∈ es -> e ∈ edgesOf adj.
Proof.
  revert u. induction es as [|x es IH]; intros u Hw e He; [inversion He|].
  destruct Hw as [Hx Hw]. apply elem_of_cons in He as [->|He].
  - apply (neighborsOf_edgesOf adj u). assumption.
  - apply (IH _ Hw). assumption.
Qed.

(** Along a walk that leaves no stop twice, the next double sum is the
    exact sum. *)
Lemma step_exact (k : nat) (f : Edge -> num) (adj : gmap string (list Edge)) :
  (k <= 1074)%nat ->
  (forall e, e ∈ edgesOf adj -> gridb k (f e) = true) ->
  total f (edgesOf adj) * inject_Z (2 ^ Z.of_nat k) <= inject_Z (2 ^ 53) ->
  forall (es : list Edge) (u v : string) (e : Edge) (x x' : Q),
    isWalk adj u es v -> e ∈ neighborsOf adj v -> NoDup (srcs u (es ++ [e])) ->
    x == total f es -> x' == x ->
    numEq (dadd (Fin x') (f e)) (nadd (Fin x) (f e)).
Proof.
  intros Hk Hg Hb es u v e x x' Hw He Hnd Hx Hx'.
  assert (Hw' : isWalk adj u (es ++ [e]) (e_to e)).
  { apply isWalk_snoc. exists v. auto. }
  assert (Hin : forall y, y ∈ es ++ [e] -> gridb k (f y) = true).
  { intros y Hy. apply Hg. apply (isWalk_edges adj _ _ _ Hw'). assumption. }
  destruct (gridb_fin k (f e)) as (y & Ey & Hy0 & Hyg).
  { apply Hin. apply elem_of_app. right. left. }
  rewrite Ey. cbn [dadd nadd].
  assert (Hsum : x' + y == total f (es ++ [e])).
  { rewrite total_app. cbn [total fold_right]. rewrite Ey. cbn [finPart]. lra. }
  assert (Hle : total f (es ++ [e]) <= total f (edgesOf adj)).
  { apply (walk_bound f _ adj u (e_to e)); try assumption.
    intros z Hz. apply (gridb_nonneg k). apply Hg. assumption. }
  assert (H0 : 0 <= total f (es ++ [e])).
  { apply total_nonneg. intros z Hz. apply (gridb_nonneg k). apply Hin. assumption. }
  destruct (toDouble_exact k (x' + y)) as (r & -> & Hr).
  - assumption.
  - lra.
  - apply (onGrid_Qeq k (total f (es ++ [e]))); [symmetry; assumption|].
    apply total_onGrid. assumption.
  - rewrite Hsum. eapply Qle_trans; [|exact Hb].
    apply Qmult_le_compat_r; [assumption|].
    change 0 with (inject_Z 0). rewrite <- Zle_Qle. apply Z.pow_nonneg. lia.
  - simpl. lra.
Qed.

Lemma exactCosts_spec (k : nat) (adj : gmap string (list Edge)) :
  exactCosts k adj = true ->
  (k <= 1074)%nat
  /\ (forall e, e ∈ edgesOf adj -> gridEdgeb k e = true)
  /\ total e_fare (edgesOf adj) * inject_Z (2 ^ Z.of_nat k) < inject_Z (2 ^ 53)
  /\ total e_distance (edgesOf adj) * inject_Z (2 ^ Z.of_nat k) < inject_Z (2 ^ 53)
  /\ total (fun _ => n_one) (edgesOf adj) < inject_Z (2 ^ 53).
Proof.
  unfold exactCosts, below53. rewrite !andb_true_iff, !negb_true_iff.
  intros [[[[H1 H2] H3] H4] H5].
  apply Nat.leb_le in H1. apply Qle_bool_false in H3, H4. apply Z.ltb_lt in H5.
  rewrite forallb_forall in H2.
  repeat split; try assumption.
  - intros e He. apply H2. apply list_elem_of_In. assumption.
  - rewrite total_length. rewrite <- Zlt_Qlt. assumption.
Qed.

Lemma walkCost_total (k : nat) (es : list Edge) :
  (forall e, e ∈ es -> gridEdgeb k e = true) ->
  exists f s d, walkCost es = fin3 f s d
    /\ f == total e_fare es /\ s == total (fun _ => n_one) es
    /\ d == total e_distance es.
Proof.
  induction es as [|e es IH] using rev_ind; intros H.
  - exists 0, 0, 0. repeat split; reflexivity.
  - destruct IH as (f & s & d & E & Hf & Hs & Hd).
    { intros x Hx. apply H. apply elem_of_app. left. assumption. }
    assert (He : gridEdgeb k e = true) by (apply H; apply elem_of_app; right; left).
    unfold gridEdgeb in He. apply andb_true_iff in He as [He1 He2].
    destruct (gridb_fin k _ He1) as (f1 & E1 & _ & _).
    destruct (gridb_fin k _ He2) as (d1 & E2 & _ & _).
    exists (f + f1), (s + 1), (d + d1).
    rewrite walkCost_snoc, E. unfold stepCost, fin3. cbn [fare stops distance].
    rewrite E1, E2. rewrite !total_app. cbn [total fold_right nadd n_one].
    rewrite E1, E2. change (finPart n_one) with 1. cbn [finPart].
    split; [reflexivity|]. repeat split; lra.
Qed.

(** ** The search on doubles and the exact search *)

Section Sim.
Variable p : Priority.
Variable adj : gmap string (list Edge).
Variable start : string.
Variable k : nat.
Hypothesis adj_exact : exactCosts k adj = true.

(** What the record [n] costs one edge further is the same on doubles. *)
Lemma stepCost_exact (n : Node) (e : Edge) (c' : Cost) :
  tracks adj start n -> NoDup (n_path n) -> e ∈ neighborsOf adj (node n) ->
  costEq c' (cost n) ->
  costEq (stepCostWith dadd c' e) (stepCost (cost n) e).
Proof.
  intros [Hw Hc Hp] Hnd He (Hf' & Hs' & Hd').
  destruct (exactCosts_spec k adj adj_exact) as (Hk & Hg & Hbf & Hbd & Hbn).
  set (es := legEdge <$> n_legs n) in *.
  assert (Hsrc : NoDup (srcs start (es ++ [e]))).
  { rewrite srcs_snoc. unfold es. rewrite <- list_fmap_compose.
    change (e_to ∘ legEdge) with l_to. rewrite <- Hp. assumption. }
  destruct (walkCost_total k es) as (f & s & d & E & Hf & Hs & Hd).
  { intros x Hx. apply Hg. apply (isWalk_edges adj _ _ _ Hw). assumption. }
  rewrite Hc, E in *. cbn [fin3 fare stops distance] in Hf', Hs', Hd'.
  destruct c' as [[f'| | |] [s'| | |] [d'| | |]]; cbn in Hf', Hs', Hd'; try contradiction.
  unfold stepCostWith, stepCost, costEq, fin3. cbn [fare stops distance].
  assert (Hgf : forall y, y ∈ edgesOf adj -> gridb k (e_fare y) = true).
  { intros y Hy. specialize (Hg y Hy). unfold gridEdgeb in Hg.
    apply andb_true_iff in Hg. tauto. }
  assert (Hgd : forall y, y ∈ edgesOf adj -> gridb k (e_distance y) = true).
  { intros y Hy. specialize (Hg y Hy). unfold gridEdgeb in Hg.
    apply andb_true_iff in Hg. tauto. }
  assert (Hgn : forall y, y ∈ edgesOf adj -> gridb 0 ((fun _ : Edge => n_one) y) = true).
  { intros y _. reflexivity. }
  assert (Hbn' : total (fun _ => n_one) (edgesOf adj) * inject_Z (2 ^ Z.of_nat 0)
                 <= inject_Z (2 ^ 53)).
  { change (inject_Z (2 ^ Z.of_nat 0)) with 1. apply Qlt_le_weak. lra. }
  split; [|split].
  - exact (step_exact k e_fare adj Hk Hgf (Qlt_le_weak _ _ Hbf)
             es start (node n) e f f' Hw He Hsrc Hf Hf').
  - exact (step_exact 0 (fun _ => n_one) adj (Nat.le_0_l _) Hgn Hbn'
             es start (node n) e s s' Hw He Hsrc Hs Hs').
  - exact (step_exact k e_distance adj Hk Hgd (Qlt_le_weak _ _ Hbd)
             es start (node n) e d d' Hw He Hsrc Hd Hd').
Qed.

Lemma relaxWith_sim (cur' cur : Node) (e : Edge) (best' best : gmap string Cost)
    (pq' pq : list Node) :
  nodeEq cur' cur -> tracks adj start cur -> NoDup (n_path cur) ->
  e ∈ neighborsOf adj (node cur) ->
  bestEq best' best -> Forall2 nodeEq pq' pq ->
  bestEq (fst (relaxWith dadd p cur' (best', pq') e)) (fst (relax p cur (best, pq) e))
  /\ Forall2 nodeEq (snd (relaxWith dadd p cur' (best', pq') e))
       (snd (relax p cur (best, pq) e)).
Proof.
  intros (Hn & Hp & Hl & Hc) Ht Hnd He Hb Hq.
  assert (Hs : costEq (stepCostWith dadd (cost cur') e) (stepCost (cost cur) e))
    by (apply stepCost_exact; assumption).
  assert (Hbf : costEq (default infCost (best' !! e_to e))
                  (default infCost (best !! e_to e))).
  { destruct (Hb (e_to e)); simpl; [assumption|apply costEq_refl]. }
  unfold relaxWith, relax. cbn [fst snd].
  change (nlt0 (cmpCost p (stepCostWith dadd (cost cur') e)
                  (default infCost (best' !! e_to e))))
    with (ltC p (stepCostWith dadd (cost cur') e) (default infCost (best' !! e_to e))).
  change (nlt0 (cmpCost p (stepCost (cost cur) e) (default infCost (best !! e_to e))))
    with (ltC p (stepCost (cost cur) e) (default infCost (best !! e_to e))).
  rewrite (ltC_costEq p _ _ _ _ Hs Hbf).
  destruct (ltC p (stepCost (cost cur) e) (default infCost (best !! e_to e)));
    cbn [fst snd]; [|auto].
  split.
  - intros v. destruct (decide (v = e_to e)) as [->|Hne].
    + rewrite !lookup_insert_eq. constructor. assumption.
    + rewrite !lookup_insert_ne by congruence. apply Hb.
  - apply Forall2_app; [assumption|]. constructor; [|constructor].
    unfold nodeEq. cbn [node n_path n_legs cost]. rewrite Hn, Hp, Hl. auto.
Qed.

Lemma relaxWith_fold_sim (cur' cur : Node) (es : list Edge) :
  nodeEq cur' cur -> tracks adj start cur -> NoDup (n_path cur) ->
  (forall e, e ∈ es -> e ∈ neighborsOf adj (node cur)) ->
  forall (best' best : gmap string Cost) (pq' pq : list Node),
    bestEq best' best -> Forall2 nodeEq pq' pq ->
    bestEq (fst (fold_left (relaxWith dadd p cur') es (best', pq')))
      (fst (fold_left (relax p cur) es (best, pq)))
    /\ Forall2 nodeEq (snd (fold_left (relaxWith dadd p cur') es (best', pq')))
         (snd (fold_left (relax p cur) es (best, pq))).
Proof.
  intros Hn Ht Hnd. induction es as [|e es IH]; intros Hes best' best pq' pq Hb Hq.
  - simpl. auto.
  - cbn [fold_left].
    destruct (relaxWith_sim cur' cur e best' best pq' pq Hn Ht Hnd
                (Hes e ltac:(left)) Hb Hq) as [Hb1 Hq1].
    destruct (relaxWith dadd p cur' (best', pq') e) as [b1' q1'].
    destruct (relax p cur (best, pq) e) as [b1 q1].
    apply IH; [intros x Hx; apply Hes; right; assumption|assumption|assumption].
Qed.

Lemma tracks_child (n : Node) (e : Edge) :
  tracks adj start n -> e ∈ neighborsOf adj (node n) -> tracks adj start (child n e).
Proof.
  intros [H1 H2 H3] He. split; simpl.
  - rewrite fmap_app. apply isWalk_snoc. exists (node n). simpl.
    destruct e. auto.
  - rewrite fmap_app, fmap_cons, fmap_nil, walkCost_snoc, <- H2.
    destruct e. reflexivity.
  - rewrite H3, fmap_app. reflexivity.
Qed.

Variable end_ : string.

(** On a graph whose costs add without rounding the search on doubles goes
    through the states of the exact search. *)
Lemma searchWith_sim (fuel : nat) (done : gset string) (m : Cost)
    (best' best : gmap string Cost) (pq' pq : list Node) :
  Core p start done m best pq -> Forall (simple done) pq ->
  Forall (tracks adj start) pq ->
  bestEq best' best -> Forall2 nodeEq pq' pq ->
  outcomeEq (searchWith dadd fuel p adj end_ best' pq')
    (search fuel p adj end_ best pq).
Proof.
  pose proof (exactCosts_nonneg k adj adj_exact) as adj_nonneg.
  revert done m best' best pq' pq.
  induction fuel as [|fuel IH]; intros done m best' best pq' pq HC Hsim Htr Hb Hq;
    [exact I|].
  rewrite search_S. cbn [searchWith].
  pose proof (sortBy_sim nodeEq (fun A B => cmpCost p (cost A) (cost B))) as Hsort.
  specialize (Hsort ltac:(intros x' x y' y (_ & _ & _ & Hx) (_ & _ & _ & Hy);
                            apply (gtC_costEq p); assumption) pq' pq Hq).
  destruct (sortBy _ pq) as [|cur pqt] eqn:Es.
  { inversion Hsort. exact I. }
  inversion Hsort as [|cur' cur0 pqt' pqt0 Hcur Hpqt E1 E2]; subst cur0 pqt0.
  destruct (sorted_frontier p start _ _ _ _ _ _ HC Es) as [Hperm Hlow].
  assert (Hin : cur ∈ pq) by (rewrite <- Hperm; left).
  assert (Hs : Forall (simple done) (cur :: pqt)) by (rewrite Hperm; assumption).
  apply Forall_cons in Hs as [[Hnd Hcs] Hsimt].
  assert (Ht : Forall (tracks adj start) (cur :: pqt)) by (rewrite Hperm; assumption).
  apply Forall_cons in Ht as [Hcurt Htrt].
  destruct (core_pq HC cur Hin) as (Hgood & _ & cb & Hcb & Hle).
  pose proof Hcur as (Hn & Hp & Hl & Hc).
  rewrite Hn. pose proof (Hb (node cur)) as Hbn. rewrite Hcb in Hbn |- *.
  inversion Hbn as [cb' cb0 Hcbe E3 E4|]; subst cb0.
  assert (Hbo : bestOf best (node cur) = cb) by (unfold bestOf; rewrite Hcb; reflexivity).
  change (ngt0 (cmpCost p (cost cur') cb')) with (gtC p (cost cur') cb').
  change (ngt0 (cmpCost p (cost cur) cb)) with (gtC p (cost cur) cb).
  rewrite (gtC_costEq p _ _ _ _ Hc Hcbe). rewrite <- Hbo.
  destruct (gtC p (cost cur) (bestOf best (node cur))) eqn:Hgt.
  - apply (IH done m); try assumption.
    apply (Core_skip p start _ _ _ pq cur); assumption.
  - destruct (String.eqb (node cur) end_).
    + simpl. unfold resultEq. rewrite !resultCost_resultOf. simpl. auto.
    + destruct (Core_pop p adj start adj_nonneg _ _ _ _ _ _ HC Hperm Hlow Hgt)
        as [Hnot HC'].
      destruct (relax_fold_Core p start _ cur (neighborsOf adj (node cur)) best pqt HC')
        as (HC'' & _).
      { intros e. apply nonnegCosts_edge. assumption. }
      destruct (relaxWith_fold_sim cur' cur (neighborsOf adj (node cur)) Hcur Hcurt Hnd
                  ltac:(auto) best' best pqt' pqt Hb Hpqt) as [Hb1 Hq1].
      apply (IH _ _ _ _ _ _ HC''); try assumption.
      * apply (relax_fold_simple p start); try assumption.
        -- intros e. apply nonnegCosts_edge. assumption.
        -- intros v Hv. rewrite elem_of_union, elem_of_singleton.
           destruct (Hcs v Hv); auto.
        -- eapply Forall_impl; [exact Hsimt|]. intros n. apply simple_mono.
           apply union_subseteq_l.
      * apply (relax_closed (tracks adj start) adj tracks_child); auto.
Qed.
End Sim.

(** ** Sums that leave the exact range *)

Lemma nearestEven_ge (n d : Z) : (n / d <= nearestEven n d)%Z.
Proof.
  unfold nearestEven. destruct (2 * (n mod d) ?= d)%Z; [|lia|lia].
  destruct (Z.even (n / d)); lia.
Qed.

Lemma toDouble_atLeast (k : nat) (q : Q) :
  (k <= 1074)%nat ->
  inject_Z (2 ^ 53) <= q * inject_Z (2 ^ Z.of_nat k) ->
  atLeast53 k (toDouble q).
Proof.
  intros Hk Hq. destruct q as [n d]. unfold atLeast53.
  assert (HK : (0 <= Z.of_nat k <= 1074)%Z) by lia.
  set (K := Z.of_nat k) in *. clearbody K.
  assert (HpK : (0 < 2 ^ K)%Z) by (apply Z.pow_pos_nonneg; lia).
  assert (Hp53 : (0 < 2 ^ 53)%Z) by (apply Z.pow_pos_nonneg; lia).
  assert (Hnd : (2 ^ 53 * Zpos d <= n * 2 ^ K)%Z).
  { unfold Qle in Hq. cbn [Qnum Qden Qmult inject_Z] in Hq.
    rewrite Pos.mul_1_r, Z.mul_1_r in Hq. exact Hq. }
  assert (Hn : (0 < n)%Z) by nia.
  unfold toDouble. cbn [Qnum Qden]. rewrite (Z.abs_eq n) by lia.
  set (b := (1127 - K)%Z).
  assert (Hb : (53 <= b)%Z) by (unfold b; lia).
  assert (HN : (2 ^ b * Zpos d <= n * 2 ^ 1074)%Z).
  { replace (2 ^ 1074)%Z with (2 ^ K * 2 ^ (1074 - K))%Z
      by (rewrite <- Z.pow_add_r by lia; f_equal; lia).
    replace (2 ^ b)%Z with (2 ^ 53 * 2 ^ (1074 - K))%Z
      by (rewrite <- Z.pow_add_r by lia; f_equal; unfold b; lia).
    assert (0 < 2 ^ (1074 - K))%Z by (apply Z.pow_pos_nonneg; lia).
    nia. }
  set (N := (n * 2 ^ 1074)%Z) in *.
  set (X := (N / Zpos d)%Z).
  assert (Hpb : (0 < 2 ^ b)%Z) by (apply Z.pow_pos_nonneg; lia).
  assert (HX : (2 ^ b <= X)%Z).
  { unfold X. apply Z.div_le_lower_bound; lia. }
  assert (HL : (b <= Z.log2 X)%Z).
  { rewrite <- (Z.log2_pow2 b) by lia. apply Z.log2_le_mono. assumption. }
  rewrite Z.max_l by lia.
  set (L := Z.log2 X) in *.
  set (w := (L - 52)%Z).
  assert (Hw : (0 <= w)%Z) by (unfold w; lia).
  assert (Hpw : (0 < 2 ^ w)%Z) by (apply Z.pow_pos_nonneg; lia).
  assert (HXL : (2 ^ L <= X)%Z).
  { unfold L. apply Z.log2_spec. lia. }
  assert (Hm : (2 ^ 52 <= nearestEven N (Zpos d * 2 ^ w))%Z).
  { eapply Z.le_trans; [|apply nearestEven_ge].
    rewrite <- Z.div_div by lia. fold X.
    apply Z.div_le_lower_bound; [lia|].
    replace (2 ^ w * 2 ^ 52)%Z with (2 ^ L)%Z; [assumption|].
    rewrite <- Z.pow_add_r by lia. f_equal. unfold w. lia. }
  set (m := nearestEven N (Zpos d * 2 ^ w)) in *.
  assert (Hu : (2 ^ b <= m * 2 ^ w)%Z).
  { apply Z.le_trans with (2 ^ L)%Z.
    - apply Z.pow_le_mono_r; lia.
    - replace (2 ^ L)%Z with (2 ^ 52 * 2 ^ w)%Z
        by (rewrite <- Z.pow_add_r by lia; f_equal; unfold w; lia).
      apply Z.mul_le_mono_nonneg_r; lia. }
  destruct (Z.ltb_spec n 0%Z) as [Hneg|_]; [lia|].
  destruct (2 ^ 2098 <=? m * 2 ^ w)%Z; [exact I|].
  cbv beta iota. rewrite Qred_correct. unfold Qle.
  cbn [Qnum Qden Qmult inject_Z]. rewrite Z.mul_1_r, Pos.mul_1_r.
  rewrite Z2Pos.id by (apply Z.pow_pos_nonneg; lia).
  replace (2 ^ 53 * 2 ^ 1074)%Z with (2 ^ b * 2 ^ K)%Z
    by (rewrite <- !Z.pow_add_r by lia; f_equal; unfold b; lia).
  apply Z.mul_le_mono_nonneg_r; lia.
Qed.

(** One more addition along a walk. *)
Lemma sameOrBeyond_step (k : nat) (x' : num) (x y : Q) :
  (k <= 1074)%nat -> 0 <= x -> onGrid k x = true -> 0 <= y -> onGrid k y = true ->
  sameOrBeyond k x' (Fin x) ->
  sameOrBeyond k (dadd x' (Fin y)) (Fin (x + y)).
Proof.
  intros Hk Hx Hgx Hy Hgy H.
  assert (Hc : 0 <= inject_Z (2 ^ Z.of_nat k)).
  { change 0 with (inject_Z 0). rewrite <- Zle_Qle. apply Z.pow_nonneg. lia. }
  assert (Hyc : 0 <= y * inject_Z (2 ^ Z.of_nat k)) by (apply Qmult_le_0_compat; assumption).
  destruct H as [H|[H1 H2]].
  - destruct x' as [a| | |]; simpl in H; try contradiction.
    cbn [dadd].
    destruct (Qlt_le_dec (inject_Z (2 ^ 53)) ((x + y) * inject_Z (2 ^ Z.of_nat k)))
      as [Hbig|Hsmall].
    + right. split.
      * apply toDouble_atLeast; [assumption|]. rewrite H. apply Qlt_le_weak. assumption.
      * cbn [atLeast53]. apply Qlt_le_weak. assumption.
    + left. destruct (toDouble_exact k (a + y)) as (r & -> & Hr).
      * assumption.
      * lra.
      * apply (onGrid_Qeq k (x + y)); [rewrite H; reflexivity|].
        apply onGrid_plus; assumption.
      * rewrite H. assumption.
      * simpl. lra.
  - cbn [atLeast53] in H2.
    assert (H3 : inject_Z (2 ^ 53) <= (x + y) * inject_Z (2 ^ Z.of_nat k)).
    { rewrite Qmult_plus_distr_l. lra. }
    right. split; [|exact H3].
    destruct x' as [a| | |]; simpl in H1; try contradiction; [|exact I].
    cbn [dadd]. apply toDouble_atLeast; [assumption|].
    rewrite Qmult_plus_distr_l. lra.
Qed.

Lemma walkCostWith_snoc (add : num -> num -> num) (es : list Edge) (e : Edge) :
  walkCostWith add (es ++ [e]) = stepCostWith add (walkCostWith add es) e.
Proof. unfold walkCostWith. rewrite fold_left_app. reflexivity. Qed.

(** The cost of a walk added on doubles, key by key, against its exact
    cost. *)
Lemma walkCostWith_keys (k : nat) (es : list Edge) :
  (k <= 1074)%nat -> (forall e, e ∈ es -> gridEdgeb k e = true) ->
  exists f s d, walkCost es = fin3 f s d
    /\ sameOrBeyond k (fare (walkCostWith dadd es)) (Fin f)
    /\ sameOrBeyond 0 (stops (walkCostWith dadd es)) (Fin s)
    /\ sameOrBeyond k (distance (walkCostWith dadd es)) (Fin d).
Proof.
  intros Hk. induction es as [|e es IH] using rev_ind; intros H.
  - exists 0, 0, 0. split; [reflexivity|].
    repeat split; left; simpl; reflexivity.
  - assert (Hes : forall x, x ∈ es -> gridEdgeb k x = true).
    { intros x Hx. apply H. apply elem_of_app. left. assumption. }
    destruct (IH Hes) as (f & s & d & E & Hf & Hs & Hd).
    destruct (walkCost_total k es Hes) as (f0 & s0 & d0 & E0 & Hf0 & Hs0 & Hd0).
    rewrite E in E0. injection E0 as <- <- <-.
    assert (He : gridEdgeb k e = true) by (apply H; apply elem_of_app; right; left).
    unfold gridEdgeb in He. apply andb_true_iff in He as [He1 He2].
    destruct (gridb_fin k _ He1) as (f1 & E1 & Hf1 & Hg1).
    destruct (gridb_fin k _ He2) as (d1 & E2 & Hd1 & Hg2).
    assert (Hgf : forall x, x ∈ es -> gridb k (e_fare x) = true).
    { intros x Hx. specialize (Hes x Hx). unfold gridEdgeb in Hes.
      apply andb_true_iff in Hes. tauto. }
    assert (Hgd : forall x, x ∈ es -> gridb k (e_distance x) = true).
    { intros x Hx. specialize (Hes x Hx). unfold gridEdgeb in Hes.
      apply andb_true_iff in Hes. tauto. }
    assert (Hgn : forall x, x ∈ es -> gridb 0 ((fun _ : Edge => n_one) x) = true).
    { intros x _. reflexivity. }
    exists (f + f1), (s + 1), (d + d1).
    rewrite walkCost_snoc, walkCostWith_snoc, E.
    unfold stepCost, stepCostWith, fin3. cbn [fare stops distance].
    rewrite E1, E2. split; [reflexivity|].
    split; [|split].
    + apply sameOrBeyond_step; try assumption.
      * rewrite Hf0. apply total_nonneg. intros x Hx. apply (gridb_nonneg k). auto.
      * apply (onGrid_Qeq k (total e_fare es)); [symmetry; assumption|].
        apply total_onGrid. assumption.
    + apply (sameOrBeyond_step 0 _ s 1); try assumption.
      * lia.
      * rewrite Hs0. apply total_nonneg. intros x Hx. apply (gridb_nonneg 0). auto.
      * apply (onGrid_Qeq 0 (total (fun _ => n_one) es)); [symmetry; assumption|].
        apply total_onGrid. assumption.
      * lra.
      * reflexivity.
    + apply sameOrBeyond_step; try assumption.
      * rewrite Hd0. apply total_nonneg. intros x Hx. apply (gridb_nonneg k). auto.
      * apply (onGrid_Qeq k (total e_distance es)); [symmetry; assumption|].
        apply total_onGrid. assumption.
Qed.

(** Against a key within the exact range, a sum that has left the range
    compares as the exact sum does. *)
Lemma sameOrBeyond_tests (k : nat) (x' x : num) (t : Q) :
  sameOrBeyond k x' x ->
  t * inject_Z (2 ^ Z.of_nat k) < inject_Z (2 ^ 53) ->
  neqb x' (Fin t) = neqb x (Fin t) /\ nltb x' (Fin t) = nltb x (Fin t).
Proof.
  intros [H|[H1 H2]] Ht.
  - split; [apply neqb_numEq|apply nltb_numEq]; try assumption; apply numEq_refl.
  - assert (Hc : 0 < inject_Z (2 ^ Z.of_nat k)).
    { change 0 with (inject_Z 0). rewrite <- Zlt_Qlt. apply Z.pow_pos_nonneg; lia. }
    assert (Hgt : forall q, inject_Z (2 ^ 53) <= q * inject_Z (2 ^ Z.of_nat k) -> t < q).
    { intros q Hq. apply Qnot_le_lt. intros Hle.
      apply (Qmult_le_compat_r _ _ (inject_Z (2 ^ Z.of_nat k))) in Hle; lra. }
    destruct x' as [a| | |], x as [b| | |]; simpl in H1, H2; try contradiction;
      simpl; try (pose proof (Hgt _ H1)); try (pose proof (Hgt _ H2));
      split; try reflexivity; qtests; try reflexivity; exfalso; lra.
Qed.

Lemma firstDiffSmaller_beyond (p : Priority) (k : nat) (c' c r : Cost)
    (tf ts td : Q) :
  sameOrBeyond k (fare c') (fare c) ->
  sameOrBeyond 0 (stops c') (stops c) ->
  sameOrBeyond k (distance c') (distance c) ->
  r = fin3 tf ts td ->
  tf * inject_Z (2 ^ Z.of_nat k) < inject_Z (2 ^ 53) ->
  ts * inject_Z (2 ^ Z.of_nat 0) < inject_Z (2 ^ 53) ->
  td * inject_Z (2 ^ Z.of_nat k) < inject_Z (2 ^ 53) ->
  firstDiffSmaller (keys p c') (keys p r) = firstDiffSmaller (keys p c) (keys p r).
Proof.
  intros Hf Hs Hd -> Htf Hts Htd.
  destruct (sameOrBeyond_tests _ _ _ _ Hf Htf) as [F1 F2].
  destruct (sameOrBeyond_tests _ _ _ _ Hs Hts) as [S1 S2].
  destruct (sameOrBeyond_tests _ _ _ _ Hd Htd) as [D1 D2].
  destruct p; cbn [keys firstDiffSmaller fin3 fare stops distance];
    rewrite F1, F2, S1, S2, D1, D2; reflexivity.
Qed.

(** ** The search on doubles, as a whole *)

Lemma srcs_elem (u : string) (es : list Edge) (x : string) :
  x ∈ srcs u es -> x ∈ u :: (e_to <$> es).
Proof.
  revert u. induction es as [|e es IH]; intros u; simpl; [intros H; inversion H|].
  intros H. apply elem_of_cons in H as [->|H]; [left|].
  right. apply IH. assumption.
Qed.

Lemma srcs_NoDup (u : string) (es : list Edge) :
  NoDup (u :: (e_to <$> es)) -> NoDup (srcs u es).
Proof.
  revert u. induction es as [|e es IH]; intros u; simpl; [constructor|].
  intros H. apply NoDup_cons in H as [H1 H2]. apply NoDup_cons. split.
  - intros Hin. apply H1. apply srcs_elem. assumption.
  - apply IH. assumption.
Qed.

(** On a graph whose costs add without rounding, the search on doubles
    ends as the exact search does, with the same path, legs and totals. *)
Lemma findBestPath_on_doubles (M : MathLib) (fuel : nat) (stopsArr : list Stop)
    (routesArr : list Route) (start end_ : string) (p : Priority) (k : nat) :
  exactCosts k (buildAdj M stopsArr routesArr) = true ->
  outcomeEq (findBestPathWith dadd M fuel stopsArr routesArr start end_ p)
    (findBestPath M fuel stopsArr routesArr start end_ p).
Proof.
  intros Hex. unfold findBestPathWith, findBestPath.
  destruct (String.eqb start end_).
  - simpl. repeat split; reflexivity.
  - apply (searchWith_sim p _ start k Hex end_ fuel ∅ zeroCost).
    + apply Core_init.
    + constructor; [|constructor]. split; [apply NoDup_singleton|].
      intros v Hv. apply list_elem_of_singleton in Hv. auto.
    + constructor; [|constructor]. split; reflexivity.
    + intros v. destruct (initBest stopsArr start !! v); constructor.
      apply costEq_refl.
    + constructor; [|constructor]. repeat split; reflexivity.
Qed.

(** The totals of a result of the exact search lie within the range in
    which sums are exact. *)
Lemma result_within (M : MathLib) (fuel : nat) (stopsArr : list Stop)
    (routesArr : list Route) (start end_ : string) (p : Priority) (k : nat)
    (r : PathResult) :
  exactCosts k (buildAdj M stopsArr routesArr) = true ->
  findBestPath M fuel stopsArr routesArr start end_ p = Returned (Some r) ->
  exists tf ts td, resultCost r = fin3 tf ts td
    /\ tf * inject_Z (2 ^ Z.of_nat k) < inject_Z (2 ^ 53)
    /\ ts * inject_Z (2 ^ Z.of_nat 0) < inject_Z (2 ^ 53)
    /\ td * inject_Z (2 ^ Z.of_nat k) < inject_Z (2 ^ 53).
Proof.
  intros Hex Hr.
  pose proof (exactCosts_nonneg _ _ Hex) as Hadj.
  destruct (exactCosts_spec _ _ Hex) as (Hk & Hg & Hbf & Hbd & Hbn).
  destruct (result_is_walk M fuel stopsArr routesArr start end_ p r Hr)
    as (Hw & Hc & Hp).
  assert (Hnd : NoDup (path r)).
  { revert Hr. unfold findBestPath. destruct (String.eqb start end_).
    - intros [= <-]. apply NoDup_singleton.
    - apply (search_simple p _ start Hadj end_ fuel ∅ zeroCost).
      + apply Core_init.
      + constructor; [|constructor]. split; [apply NoDup_singleton|].
        intros v Hv. apply list_elem_of_singleton in Hv. auto. }
  set (adj := buildAdj M stopsArr routesArr) in *.
  set (es := legEdge <$> legs r) in *.
  assert (Hsrc : NoDup (srcs start es)).
  { apply srcs_NoDup. unfold es. rewrite <- list_fmap_compose.
    change (e_to ∘ legEdge) with l_to. rewrite <- Hp. assumption. }
  assert (Hes : forall e, e ∈ es -> gridEdgeb k e = true).
  { intros e He. apply Hg. apply (isWalk_edges adj _ _ _ Hw). assumption. }
  destruct (walkCost_total k es Hes) as (f & s & d & E & Hf & Hs & Hd).
  assert (Hc0 : 0 <= inject_Z (2 ^ Z.of_nat k)).
  { change 0 with (inject_Z 0). rewrite <- Zle_Qle. apply Z.pow_nonneg. lia. }
  assert (Hnn : forall g : Edge -> num,
            (forall e, e ∈ edgesOf adj -> exists j, gridb j (g e) = true) ->
            total g es <= total g (edgesOf adj)).
  { intros g Hgg. apply (walk_bound g es adj start end_); try assumption.
    intros e He. destruct (Hgg e He) as [j Hj]. apply (gridb_nonneg j). assumption. }
  exists f, s, d. rewrite Hc. split; [assumption|].
  split; [|split].
  - eapply Qle_lt_trans; [|exact Hbf]. rewrite Hf.
    apply Qmult_le_compat_r; [|assumption]. apply Hnn.
    intros e He. exists k. specialize (Hg e He). unfold gridEdgeb in Hg.
    apply andb_true_iff in Hg. tauto.
  - change (inject_Z (2 ^ Z.of_nat 0)) with 1. rewrite Qmult_1_r, Hs.
    eapply Qle_lt_trans; [|exact Hbn]. apply Hnn.
    intros e He. exists 0%nat. reflexivity.
  - eapply Qle_lt_trans; [|exact Hbd]. rewrite Hd.
    apply Qmult_le_compat_r; [|assumption]. apply Hnn.
    intros e He. exists k. specialize (Hg e He). unfold gridEdgeb in Hg.
    apply andb_true_iff in Hg. tauto.
Qed.

(** C1, amended: let the fares and distances of the graph add without
    rounding ([exactCosts k]: on every edge they are finite non-negative
    whole multiples of [2^-k], and the fares of all edges together, and
    their distances, are less than [2^53] such multiples).  When
    [findBestPath], run on doubles as the source runs it, returns a result,
    no walk of the graph from the start to the end has a (fare, legCount,
    distance) tuple whose first differing key, in the key order of the
    priority, is smaller than that of (totalFare, totalStops,
    totalDistance): neither the tuple of its exact sums nor the tuple the
    same additions give on doubles. *)
Theorem findBestPath_optimal (M : MathLib) (fuel : nat) (stopsArr : list Stop)
    (routesArr : list Route) (start end_ : string) (p : Priority) (k : nat)
    (r : PathResult) (es : list Edge) :
  exactCosts k (buildAdj M stopsArr routesArr) = true ->
  findBestPathWith dadd M fuel stopsArr routesArr start end_ p = Returned (Some r) ->
  isWalk (buildAdj M stopsArr routesArr) start es end_ ->
  firstDiffSmaller (keys p (walkCost es)) (keys p (resultCost r)) = false
  /\ firstDiffSmaller (keys p (walkCostWith dadd es)) (keys p (resultCost r)) = false.
Proof.
  intros Hex Hr Hw.
  pose proof (findBestPath_on_doubles M fuel stopsArr routesArr start end_ p k Hex) as Hsim.
  rewrite Hr in Hsim.
  destruct (findBestPath M fuel stopsArr routesArr start end_ p) as [[r0|]| |] eqn:Hr0;
    simpl in Hsim; try contradiction.
  destruct Hsim as (_ & _ & Hc).
  pose proof (exact_search_optimal M fuel stopsArr routesArr start end_ p r0 es
                (exactCosts_nonneg _ _ Hex) Hr0 Hw) as Hopt.
  assert (Hkeys : forall c, firstDiffSmaller (keys p c) (keys p (resultCost r))
                            = firstDiffSmaller (keys p c) (keys p (resultCost r0))).
  { intros c. apply firstDiffSmaller_numEq; apply keys_costEq;
      [apply costEq_refl|assumption]. }
  rewrite !Hkeys. split; [assumption|].
  destruct (exactCosts_spec _ _ Hex) as (Hk & Hg & _).
  destruct (walkCostWith_keys k es Hk) as (f & s & d & E & Hf & Hs & Hd).
  { intros e He. apply Hg. apply (isWalk_edges _ _ _ _ Hw). assumption. }
  destruct (result_within M fuel stopsArr routesArr start end_ p k r0 Hex Hr0)
    as (tf & ts & td & Er & Htf & Hts & Htd).
  rewrite <- Hopt.
  apply (firstDiffSmaller_beyond p k _ _ _ tf ts td); try assumption;
    rewrite E; assumption.
Qed.

(** Witness of C1 (amended): the direct walk A-C against the result A-B-C. *)
Lemma findBestPath_optimal_witness :
  exactCosts 0 (buildAdj mathNaN stopsABC routesABC) = true
  /\ findBestPathWith dadd mathNaN 10 stopsABC routesABC "A" "C" ByFare
     = Returned (Some resultABC)
  /\ isWalk (buildAdj mathNaN stopsABC routesABC) "A" [mkEdge "C" 5 222] "C"
  /\ firstDiffSmaller (keys ByFare (walkCost [mkEdge "C" 5 222]))
       (keys ByFare (resultCost resultABC)) = false
  /\ firstDiffSmaller (keys ByFare (walkCostWith dadd [mkEdge "C" 5 222]))
       (keys ByFare (resultCost resultABC)) = false.
Proof.
  assert (H1 : exactCosts 0 (buildAdj mathNaN stopsABC routesABC) = true)
    by (vm_compute; reflexivity).
  assert (H2 : findBestPathWith dadd mathNaN 10 stopsABC routesABC "A" "C" ByFare
               = Returned (Some resultABC)) by (vm_compute; reflexivity).
  assert (H3 : isWalk (buildAdj mathNaN stopsABC routesABC) "A"
                 [mkEdge "C" 5 222] "C").
  { split; [|reflexivity]. vm_compute. right. left. }
  split; [exact H1|]. split; [exact H2|]. split; [exact H3|].
  exact (findBestPath_optimal mathNaN 10 stopsABC routesABC "A" "C" ByFare 0
           resultABC [mkEdge "C" 5 222] H1 H2 H3).
Defined.

(** Fares that do not add exactly: 0.1 + 0.7 is rounded to a double below
    0.8, and that sum and 0.8 are both rounded to 2.8 when 2 is added.  The
    search on doubles therefore takes the three legs S-Y-X-T for cheaper up
    to X and returns them with the total fare 2.8, which the two legs
    S-X-T also cost. *)
Lemma rounding_not_optimal :
  nonnegCosts (buildAdj mathNaN stopsSYXT routesTenths) = true
  /\ findBestPathWith dadd mathNaN 10 stopsSYXT routesTenths "S" "T" ByFare
     = Returned (Some
         {| path := ["S"; "Y"; "X"; "T"];
            legs := [ {| l_from := "S"; l_to := "Y";
                         l_fare := toDouble (1 # 10); l_distance := Fin 1 |};
                      {| l_from := "Y"; l_to := "X";
                         l_fare := toDouble (7 # 10); l_distance := Fin 1 |};
                      {| l_from := "X"; l_to := "T";
                         l_fare := Fin 2; l_distance := Fin 1 |} ];
            totalFare := toDouble (28 # 10); totalDistance := Fin 3;
            totalStops := Fin 3 |})
  /\ isWalk (buildAdj mathNaN stopsSYXT routesTenths) "S"
       [ {| e_to := "X"; e_fare := toDouble (8 # 10); e_distance := Fin 1 |};
         {| e_to := "T"; e_fare := Fin 2; e_distance := Fin 1 |} ] "T"
  /\ walkCostWith dadd
       [ {| e_to := "X"; e_fare := toDouble (8 # 10); e_distance := Fin 1 |};
         {| e_to := "T"; e_fare := Fin 2; e_distance := Fin 1 |} ]
     = {| fare := toDouble (28 # 10); stops := Fin 2; distance := Fin 2 |}
  /\ firstDiffSmaller
       (keys ByFare {| fare := toDouble (28 # 10); stops := Fin 2; distance := Fin 2 |})
       (keys ByFare {| fare := toDouble (28 # 10); stops := Fin 3; distance := Fin 3 |})
     = true.
Proof.
  split; [vm_compute; reflexivity|].
  split; [vm_compute; reflexivity|].
  split; [|split; vm_compute; reflexivity].
  split; [vm_compute; right; left|].
  split; [vm_compute; right; right; left|reflexivity].
Qed.

(** ** The comparator as an order *)

Lemma nltb_irrefl (x : num) : nltb x x = false.
Proof. destruct x; simpl; try reflexivity; qsolve. Qed.

Lemma nltb_asym (x y : num) : nltb x y = true -> nltb y x = false.
Proof. destruct x, y; simpl; try reflexivity; try discriminate; qsolve. Qed.

Lemma nltb_trans (x y z : num) : nltb x y = true -> nltb y z = true -> nltb x z = true.
Proof. destruct x, y, z; simpl; try reflexivity; try discriminate; qsolve. Qed.

Lemma neqb_trans (x y z : num) : neqb x y = true -> neqb y z = true -> neqb x z = true.
Proof. destruct x, y, z; simpl; try reflexivity; try discriminate; qsolve. Qed.

Lemma neqb_nltb (x y z : num) : neqb x y = true -> nltb y z = true -> nltb x z = true.
Proof. destruct x, y, z; simpl; try reflexivity; try discriminate; qsolve. Qed.

Lemma nltb_neqb_r (x y z : num) : nltb x y = true -> neqb y z = true -> nltb x z = true.
Proof. destruct x, y, z; simpl; try reflexivity; try discriminate; qsolve. Qed.

Lemma firstDiffSmaller_irrefl (ka : list num) : firstDiffSmaller ka ka = false.
Proof.
  induction ka as [|x ka IH]; [reflexivity|]. simpl.
  destruct (neqb x x); [exact IH|apply nltb_irrefl].
Qed.

Lemma firstDiffSmaller_asym (ka kb : list num) :
  firstDiffSmaller ka kb = true -> firstDiffSmaller kb ka = false.
Proof.
  revert kb. induction ka as [|x ka IH]; intros [|y kb]; simpl; try discriminate;
    try reflexivity.
  rewrite (neqb_sym y x). destruct (neqb x y); [apply IH|apply nltb_asym].
Qed.

Lemma firstDiffSmaller_trans (ka kb kc : list num) :
  firstDiffSmaller ka kb = true -> firstDiffSmaller kb kc = true ->
  firstDiffSmaller ka kc = true.
Proof.
  revert kb kc. induction ka as [|x ka IH]; intros [|y kb] [|z kc]; simpl;
    try discriminate.
  destruct (neqb x y) eqn:Exy, (neqb y z) eqn:Eyz; intros H1 H2.
  - rewrite (neqb_trans x y z Exy Eyz). apply (IH kb kc H1 H2).
  - pose proof (neqb_nltb x y z Exy H2) as H.
    rewrite (nltb_neqb x z H). exact H.
  - pose proof (nltb_neqb_r x y z H1 Eyz) as H.
    rewrite (nltb_neqb x z H). exact H.
  - pose proof (nltb_trans x y z H1 H2) as H.
    rewrite (nltb_neqb x z H). exact H.
Qed.

(** X9: under every priority "[cmpCost] is negative" is a strict order on
    all cost tuples, infinities and NaN included: no tuple is below itself,
    a tuple below another has that one above it and not below it, and below
    is transitive. *)
Theorem cmpCost_strict_order (p : Priority) (a b c : Cost) :
  nlt0 (cmpCost p a a) = false
  /\ (nlt0 (cmpCost p a b) = true ->
      ngt0 (cmpCost p b a) = true /\ nlt0 (cmpCost p b a) = false)
  /\ (nlt0 (cmpCost p a b) = true -> nlt0 (cmpCost p b c) = true ->
      nlt0 (cmpCost p a c) = true).
Proof.
  change (ltC p a a = false
          /\ (ltC p a b = true -> gtC p b a = true /\ ltC p b a = false)
          /\ (ltC p a b = true -> ltC p b c = true -> ltC p a c = true)).
  rewrite gtC_ltC, !ltC_lex.
  split; [apply firstDiffSmaller_irrefl|]. split.
  - intros H. split; [exact H|apply firstDiffSmaller_asym; exact H].
  - apply firstDiffSmaller_trans.
Qed.

(** ** The graph as a whole *)

(** X10: the graph is undirected over the stop names: every edge out of a
    stop has its reverse, with the same fare and distance, in the adjacency
    list of the stop it leads to, and both of its ends are names of
    stops. *)
Theorem graph_is_undirected (M : MathLib) (stopsArr : list Stop)
    (routesArr : list Route) (k : string) (e : Edge) :
  e ∈ neighborsOf (buildAdj M stopsArr routesArr) k ->
  reverseEdge k e ∈ neighborsOf (buildAdj M stopsArr routesArr) (e_to e)
  /\ k ∈ stopNames stopsArr /\ e_to e ∈ stopNames stopsArr.
Proof.
  intros He. split; [|apply (buildAdj_edge_resolved M stopsArr routesArr k e He)].
  apply buildAdj_edge in He as (r & Hr & He). apply buildAdj_edge.
  exists r. split; [assumption|].
  unfold routeEdges in *.
  destruct (coordsByName stopsArr !! r_from r) as [fc|]; [|inversion He].
  destruct (coordsByName stopsArr !! r_to r) as [tc|]; [|inversion He].
  apply elem_of_cons in He as [He|He]; [|apply list_elem_of_singleton in He];
    injection He as -> ->; unfold reverseEdge; simpl.
  - right. left.
  - left.
Qed.

(** Witness of X10: the edge from A to B of the scenario. *)
Lemma graph_is_undirected_witness :
  mkEdge "B" 1 111 ∈ neighborsOf (buildAdj mathNaN stopsABC routesABC) "A"
  /\ reverseEdge "A" (mkEdge "B" 1 111)
       ∈ neighborsOf (buildAdj mathNaN stopsABC routesABC) "B".
Proof.
  assert (H : mkEdge "B" 1 111 ∈ neighborsOf (buildAdj mathNaN stopsABC routesABC) "A")
    by (vm_compute; left).
  split; [exact H|].
  exact (proj1 (graph_is_undirected mathNaN stopsABC routesABC "A" (mkEdge "B" 1 111) H)).
Defined.

Lemma coords_fold_last (stopsArr : list Stop) (m : gmap string Coords) (n : string) :
  fold_left (fun m s => <[s_name s := s_coords s]> m) stopsArr m !! n
  = match last (filter (fun s => s_name s = n) stopsArr) with
    | Some s => Some (s_coords s)
    | None => m !! n
    end.
Proof.
  revert m. induction stopsArr as [|s ss IH]; intros m; [reflexivity|].
  cbn [fold_left]. rewrite IH, filter_cons.
  destruct (decide (s_name s = n)) as [E|E].
  - destruct (filter _ ss) as [|s' l] eqn:El.
    + simpl. subst n. apply lookup_insert_eq.
    + rewrite last_cons_cons. destruct (last (s' :: l)) eqn:E'; [reflexivity|].
      apply last_None in E'. discriminate.
  - destruct (last (filter _ ss)); [reflexivity|].
    apply lookup_insert_ne. assumption.
Qed.

(** X11: a name resolves to the coordinates of the last stop of the stop
    list that carries it, and to nothing when no stop carries it: of two
    stops with one name the later one wins. *)
Theorem coordsByName_last_wins (stopsArr : list Stop) (n : string) :
  coordsByName stopsArr !! n
  = s_coords <$> last (filter (fun s => s_name s = n) stopsArr).
Proof.
  unfold coordsByName. rewrite coords_fold_last, lookup_empty.
  destruct (last _); reflexivity.
Qed.

Lemma addRoute_declared (M M' : MathLib) (coords : gmap string Coords)
    (adj : gmap string (list Edge)) (r : Route) :
  is_Some (r_distance r) -> addRoute M coords adj r = addRoute M' coords adj r.
Proof.
  intros [d Hd]. unfold addRoute, routeDist. rewrite Hd. reflexivity.
Qed.

Lemma buildAdj_declared (M M' : MathLib) (stopsArr : list Stop) (routesArr : list Route) :
  Forall (fun r => is_Some (r_distance r)) routesArr ->
  buildAdj M stopsArr routesArr = buildAdj M' stopsArr routesArr.
Proof.
  unfold buildAdj. generalize (∅ : gmap string (list Edge)).
  induction routesArr as [|r rs IH]; intros adj H; [reflexivity|].
  apply Forall_cons in H as [Hr Hrs]. cbn [fold_left].
  rewrite (addRoute_declared M M' _ adj r Hr). apply IH. assumption.
Qed.

(** X12: when every route declares its distance, [findBestPath] does not
    depend on [haversine]: with any two versions of the [Math] functions it
    does the same, round for round. *)
Theorem declared_distances_bypass_haversine (M M' : MathLib) (fuel : nat)
    (stopsArr : list Stop) (routesArr : list Route)
    (start end_ : string) (priority : Priority) :
  Forall (fun r => is_Some (r_distance r)) routesArr ->
  findBestPath M fuel stopsArr routesArr start end_ priority
  = findBestPath M' fuel stopsArr routesArr start end_ priority.
Proof.
  intros H. unfold findBestPath.
  rewrite (buildAdj_declared M M' stopsArr routesArr H). reflexivity.
Qed.

(** Witness of X12: the scenario, whose routes all declare a distance. *)
Lemma declared_distances_bypass_haversine_witness :
  Forall (fun r => is_Some (r_distance r)) routesABC
  /\ findBestPath mathNaN 10 stopsABC routesABC "A" "C" ByFare
     = findBestPath mathFlat 10 stopsABC routesABC "A" "C" ByFare.
Proof.
  assert (H : Forall (fun r => is_Some (r_distance r)) routesABC).
  { unfold routesABC.
    repeat (apply Forall_cons_2; [eexists; reflexivity|]). apply Forall_nil_2. }
  split; [exact H|].
  exact (declared_distances_bypass_haversine mathNaN mathFlat 10 stopsABC routesABC
           "A" "C" ByFare H).
Defined.

(** ** The predecessor on its own *)

Lemma legacy_relax_eq (current : Legacy.Node) (neighbor : string) (leg : RouteLeg)
    (st : gmap string Cost * list Legacy.Node) :
  Legacy.relax current neighbor leg st
  = match fst st !! neighbor with
    | None => None
    | Some bestForNeighbor =>
        if Legacy.isBetter (Legacy.costOf (legacyChild current neighbor leg))
             bestForNeighbor
        then Some (<[neighbor := Legacy.costOf (legacyChild current neighbor leg)]> (fst st),
                   snd st ++ [legacyChild current neighbor leg])
        else Some st
    end.
Proof. reflexivity. Qed.

Lemma legacy_fold_None {A B : Type} (f : A -> B -> option A) (l : list B) :
  fold_left (fun acc r => st' ← acc; f st' r) l None = None.
Proof. induction l as [|x l IH]; [reflexivity|exact IH]. Qed.

Section LegacyClosed.
Variable M : MathLib.
Variable coords : gmap string Coords.
Variable routesArr : list Route.
Variable P : Legacy.Node -> Prop.
Hypothesis P_forward : forall n r fc tc,
  P n -> r ∈ routesArr -> r_from r = Legacy.q_stop n ->
  coords !! r_from r = Some fc -> coords !! r_to r = Some tc ->
  P (legacyChild n (r_to r) (forwardLeg M r fc tc)).
Hypothesis P_reverse : forall n r fc tc,
  P n -> r ∈ routesArr -> r_to r = Legacy.q_stop n ->
  coords !! r_to r = Some fc -> coords !! r_from r = Some tc ->
  P (legacyChild n (r_from r) (reverseLeg M r fc tc)).

Lemma legacy_relax_closed (cur : Legacy.Node) (neighbor : string) (leg : RouteLeg)
    (st st' : gmap string Cost * list Legacy.Node) :
  P (legacyChild cur neighbor leg) -> Forall P (snd st) ->
  Legacy.relax cur neighbor leg st = Some st' -> Forall P (snd st').
Proof.
  intros Hc Hst. rewrite legacy_relax_eq.
  destruct (fst st !! neighbor); [|discriminate].
  destruct (Legacy.isBetter _ _); intros [= <-]; [|assumption].
  cbn [snd]. apply Forall_app. split; [assumption|]. constructor; [assumption|constructor].
Qed.

Lemma legacy_reversePart_closed (cur : Legacy.Node) (r : Route)
    (st st' : gmap string Cost * list Legacy.Node) :
  P cur -> r ∈ routesArr -> Forall P (snd st) ->
  Legacy.reversePart M coords cur r st = Some st' -> Forall P (snd st').
Proof.
  intros Hcur Hr Hst. unfold Legacy.reversePart.
  destruct (String.eqb_spec (r_to r) (Legacy.q_stop cur)) as [E|E];
    [|intros [= <-]; assumption].
  destruct (coords !! r_to r) as [fc|] eqn:Ef; [|intros [= <-]; assumption].
  destruct (coords !! r_from r) as [tc|] eqn:Et; [|intros [= <-]; assumption].
  apply legacy_relax_closed; [|assumption].
  apply (P_reverse cur r fc tc); assumption.
Qed.

Lemma legacy_routeBody_closed (cur : Legacy.Node) (r : Route)
    (st st' : gmap string Cost * list Legacy.Node) :
  P cur -> r ∈ routesArr -> Forall P (snd st) ->
  Legacy.routeBody M coords cur st r = Some st' -> Forall P (snd st').
Proof.
  intros Hcur Hr Hst. unfold Legacy.routeBody.
  destruct (String.eqb_spec (r_from r) (Legacy.q_stop cur)) as [E|E];
    [|apply legacy_reversePart_closed; assumption].
  destruct (coords !! r_from r) as [fc|] eqn:Ef; [|intros [= <-]; assumption].
  destruct (coords !! r_to r) as [tc|] eqn:Et; [|intros [= <-]; assumption].
  destruct (Legacy.relax cur (r_to r) _ st) as [st1|] eqn:E1; [|discriminate].
  simpl. apply legacy_reversePart_closed; try assumption.
  apply (legacy_relax_closed cur (r_to r) (forwardLeg M r fc tc) st st1);
    [|assumption|exact E1].
  apply (P_forward cur r fc tc); assumption.
Qed.

Lemma legacy_expand_closed (cur : Legacy.Node) (rs : list Route)
    (st st' : gmap string Cost * list Legacy.Node) :
  P cur -> (forall r, r ∈ rs -> r ∈ routesArr) -> Forall P (snd st) ->
  Legacy.expand M coords rs cur st = Some st' -> Forall P (snd st').
Proof.
  intros Hcur. unfold Legacy.expand. revert st.
  induction rs as [|r rs IH]; intros st Hrs Hst; cbn [fold_left].
  - intros [= <-]. assumption.
  - simpl mbind at 2.
    destruct (Legacy.routeBody M coords cur st r) as [st1|] eqn:E1.
    + apply IH; [intros r' Hr'; apply Hrs; right; assumption|].
      apply (legacy_routeBody_closed cur r st st1); auto. apply Hrs. left.
    + rewrite legacy_fold_None. discriminate.
Qed.

(** Whatever [findPath.ts] returns was read off a frontier record that
    satisfies every property the start record has and the two pushes
    keep. *)
Lemma legacy_search_closed (fuel : nat) (end_ : string)
    (best : gmap string Cost) (pq : list Legacy.Node) (r : Legacy.PathResult) :
  Forall P pq ->
  Legacy.search fuel M coords routesArr end_ best pq = Returned (Some r) ->
  exists n, P n /\ Legacy.q_stop n = end_ /\ r = Legacy.resultOf n.
Proof.
  revert best pq. induction fuel as [|fuel IH]; intros best pq Hpq; [discriminate|].
  cbn [Legacy.search].
  destruct (sortBy _ pq) as [|cur pq'] eqn:Es; [discriminate|].
  assert (Hs : Forall P (cur :: pq')).
  { rewrite <- Es. rewrite sortBy_perm. assumption. }
  apply Forall_cons in Hs as [Hcur Hpq'].
  destruct (best !! Legacy.q_stop cur) as [cb|]; [|discriminate].
  destruct (Legacy.skipped cur cb); [apply IH; assumption|].
  destruct (String.eqb_spec (Legacy.q_stop cur) end_) as [Ee|Ee].
  - intros [= <-]. exists cur. auto.
  - destruct (Legacy.expand M coords routesArr cur (best, pq')) as [st|] eqn:Ex;
      [|discriminate].
    apply IH. apply (legacy_expand_closed cur routesArr (best, pq') st); auto.
Qed.
End LegacyClosed.





(** X15: every leg of a result of [findPath.ts] runs along a route of the
    route list, forwards or backwards, with the fare of that route, and its
    distance is the haversine distance of the coordinates of its two stops:
    a distance declared by the route is never used. *)
Theorem legacy_legs_use_haversine (M : MathLib) (fuel : nat)
    (stopsArr : list Stop) (routesArr : list Route)
    (start end_ : string) (r : Legacy.PathResult) :
  Legacy.findBestPath M fuel stopsArr routesArr start end_ = Returned (Some r) ->
  Forall (fun l => exists rt, rt ∈ routesArr
                     /\ haversineLeg M (coordsByName stopsArr) rt l)
    (Legacy.legs r).
Proof.
  unfold Legacy.findBestPath.
  destruct (coordsByName stopsArr !! start); [|discriminate].
  destruct (coordsByName stopsArr !! end_); [|discriminate].
  intros H.
  apply (legacy_search_closed M (coordsByName stopsArr) routesArr
           (fun n => Forall (fun l => exists rt, rt ∈ routesArr
                               /\ haversineLeg M (coordsByName stopsArr) rt l)
                       (Legacy.q_legs n)))
    in H as (n & Hn & _ & ->).
  - exact Hn.
  - intros n rt fc tc Hn Hrt _ Hf Ht. cbn [legacyChild Legacy.q_legs].
    apply Forall_app. split; [assumption|]. constructor; [|constructor].
    exists rt. split; [assumption|]. exists fc, tc. simpl. auto 10.
  - intros n rt fc tc Hn Hrt _ Hf Ht. cbn [legacyChild Legacy.q_legs].
    apply Forall_app. split; [assumption|]. constructor; [|constructor].
    exists rt. split; [assumption|]. exists fc, tc. simpl. auto 10.
  - constructor; [constructor|constructor].
Qed.

(** Witness of X15: the scenario with declared distances. *)
Lemma legacy_legs_use_haversine_witness :
  exists r,
    Legacy.findBestPath mathFlat 10 stopsABC routesABC "A" "C" = Returned (Some r)
    /\ Forall (fun l => exists rt, rt ∈ routesABC
                          /\ haversineLeg mathFlat (coordsByName stopsABC) rt l)
         (Legacy.legs r).
Proof.
  assert (H : exists r, Legacy.findBestPath mathFlat 10 stopsABC routesABC "A" "C"
                        = Returned (Some r)) by (eexists; vm_compute; reflexivity).
  destruct H as [r H]. exists r. split; [exact H|].
  exact (legacy_legs_use_haversine mathFlat 10 stopsABC routesABC "A" "C" r H).
Defined.

Lemma legacy_relax_indexed (coords : gmap string Coords) (cur : Legacy.Node)
    (neighbor : string) (leg : RouteLeg) (st : gmap string Cost * list Legacy.Node) :
  legacyIndexed coords st -> is_Some (coords !! neighbor) ->
  exists st', Legacy.relax cur neighbor leg st = Some st' /\ legacyIndexed coords st'.
Proof.
  intros [H1 H2] Hn. rewrite legacy_relax_eq.
  destruct (H1 neighbor Hn) as [b Hb]. rewrite Hb.
  destruct (Legacy.isBetter _ b); eexists; (split; [reflexivity|]); [|split; assumption].
  split; cbn [fst snd].
  - intros k Hk. apply lookup_insert_is_Some'. right. auto.
  - apply Forall_app. split.
    + eapply Forall_impl; [exact H2|]. intros n Hk. cbn beta in *.
      apply lookup_insert_is_Some'. right. assumption.
    + constructor; [|constructor]. simpl. rewrite lookup_insert_eq. eauto.
Qed.

Lemma legacy_reversePart_indexed (M : MathLib) (coords : gmap string Coords)
    (cur : Legacy.Node) (r : Route) (st : gmap string Cost * list Legacy.Node) :
  legacyIndexed coords st ->
  exists st', Legacy.reversePart M coords cur r st = Some st' /\ legacyIndexed coords st'.
Proof.
  intros H. unfold Legacy.reversePart.
  destruct (String.eqb (r_to r) (Legacy.q_stop cur)); [|eauto].
  destruct (coords !! r_to r) as [fc|] eqn:Ef; [|eauto].
  destruct (coords !! r_from r) as [tc|] eqn:Et; [|eauto].
  apply legacy_relax_indexed; [assumption|]. rewrite Et. eauto.
Qed.

Lemma legacy_routeBody_indexed (M : MathLib) (coords : gmap string Coords)
    (cur : Legacy.Node) (r : Route) (st : gmap string Cost * list Legacy.Node) :
  legacyIndexed coords st ->
  exists st', Legacy.routeBody M coords cur st r = Some st' /\ legacyIndexed coords st'.
Proof.
  intros H. unfold Legacy.routeBody.
  destruct (String.eqb (r_from r) (Legacy.q_stop cur));
    [|apply legacy_reversePart_indexed; assumption].
  destruct (coords !! r_from r) as [fc|] eqn:Ef; [|eauto].
  destruct (coords !! r_to r) as [tc|] eqn:Et; [|eauto].
  destruct (legacy_relax_indexed coords cur (r_to r) (forwardLeg M r fc tc) st H)
    as (st1 & E1 & H1); [rewrite Et; eauto|].
  unfold forwardLeg in E1. rewrite E1. simpl.
  apply legacy_reversePart_indexed. assumption.
Qed.

Lemma legacy_expand_indexed (M : MathLib) (coords : gmap string Coords)
    (routesArr : list Route) (cur : Legacy.Node)
    (st : gmap string Cost * list Legacy.Node) :
  legacyIndexed coords st ->
  exists st', Legacy.expand M coords routesArr cur st = Some st'
              /\ legacyIndexed coords st'.
Proof.
  unfold Legacy.expand. revert st.
  induction routesArr as [|r rs IH]; intros st H; cbn [fold_left]; [eauto|].
  simpl mbind at 2.
  destruct (legacy_routeBody_indexed M coords cur r st H) as (st1 & E1 & H1).
  rewrite E1. apply IH. assumption.
Qed.

Lemma legacy_search_never_throws (fuel : nat) (M : MathLib)
    (coords : gmap string Coords) (routesArr : list Route) (end_ : string)
    (best : gmap string Cost) (pq : list Legacy.Node) :
  legacyIndexed coords (best, pq) ->
  threw (Legacy.search fuel M coords routesArr end_ best pq) = false.
Proof.
  revert best pq. induction fuel as [|fuel IH]; intros best pq [H1 H2]; [reflexivity|].
  cbn [Legacy.search]. cbn [fst snd] in *.
  destruct (sortBy _ pq) as [|cur pq'] eqn:Es; [reflexivity|].
  assert (Hs : Forall (fun n => is_Some (best !! Legacy.q_stop n)) (cur :: pq')).
  { rewrite <- Es, sortBy_perm. exact H2. }
  apply Forall_cons in Hs as [[cb Hcb] Hpq']. rewrite Hcb.
  destruct (Legacy.skipped cur cb); [apply IH; split; assumption|].
  destruct (String.eqb (Legacy.q_stop cur) end_); [reflexivity|].
  destruct (legacy_expand_indexed M coords routesArr cur (best, pq'))
    as ([b1 q1] & E1 & HI); [split; assumption|].
  rewrite E1. apply IH. exact HI.
Qed.

(** X13: [findPath.ts] never throws either: the non-null assertions of
    lines 59, 91 and 116 are only reached for names that resolve, and every
    such name has an entry in [bestCost]. *)
Theorem legacy_never_throws (M : MathLib) (fuel : nat)
    (stopsArr : list Stop) (routesArr : list Route) (start end_ : string) :
  threw (Legacy.findBestPath M fuel stopsArr routesArr start end_) = false.
Proof.
  unfold Legacy.findBestPath.
  destruct (coordsByName stopsArr !! start) as [cs|] eqn:Es; [|reflexivity].
  destruct (coordsByName stopsArr !! end_) as [ce|]; [|reflexivity].
  apply legacy_search_never_throws. split; cbn [fst snd].
  - intros k Hk. apply initBest_covers. apply coordsByName_Some. assumption.
  - constructor; [|constructor]. simpl. rewrite initBest_start. eauto.
Qed.

(** X16: the order of [findPath.ts] is the order of [findBestPath.ts]
    under the priority "fare", on all numbers: [isBetter(a, b)] holds
    exactly when [cmpCost(a, b)] is negative, and the comparator handed to
    the sort is [cmpCost] on the costs of the two records. *)
Theorem legacy_order_is_fare_priority (a b : Cost) (A B : Legacy.Node) :
  Legacy.isBetter a b = nlt0 (cmpCost ByFare a b)
  /\ Legacy.cmpNode A B = cmpCost ByFare (Legacy.costOf A) (Legacy.costOf B).
Proof.
  split; [|reflexivity].
  unfold Legacy.isBetter, cmpCost.
  repeat match goal with
         | |- context [negb (neqb ?x ?y)] => destruct (neqb x y); simpl
         end; symmetry; apply nsub_lt0.
Qed.

(** Witness of X17: no stop is called "Z". *)
Lemma legacy_absent_stop_witness :
  ("A" ∉ stopNames stopsABC \/ "Z" ∉ stopNames stopsABC)
  /\ Legacy.findBestPath mathNaN 10 stopsABC routesABC "A" "Z" = Returned None.
Proof.
  assert (H : "A" ∉ stopNames stopsABC \/ "Z" ∉ stopNames stopsABC).
  { right. vm_compute. intros H.
    repeat (apply elem_of_cons in H as [H|H]; [discriminate|]).
    inversion H. }
  split; [exact H|].
  exact (legacy_absent_stop mathNaN 10 stopsABC routesABC "A" "Z" H).
Defined.

(** Witness of X18. *)
Lemma legacy_same_stop_witness :
  "A" ∈ stopNames stopsABC
  /\ Legacy.findBestPath mathNaN 1 stopsABC routesABC "A" "A"
     = Returned (Some {| Legacy.path := ["A"]; Legacy.legs := [];
                         Legacy.totalFare := nzero; Legacy.totalDistance := nzero |}).
Proof.
  assert (H : "A" ∈ stopNames stopsABC) by (vm_compute; left).
  split; [exact H|].
  exact (legacy_same_stop mathNaN 0 stopsABC routesABC "A" H).
Defined.

(** ** The page *)

Lemma stopSeq_first (r : App.PageRoute) : App.stopSeq r !! 0%nat = Some (App.a_from r).
Proof. reflexivity. Qed.

Lemma stopSeq_last (r : App.PageRoute) :
  App.stopSeq r !! (length (App.stopSeq r) - 1)%nat = Some (App.a_to r).
Proof.
  unfold App.stopSeq.
  set (mid := match App.a_intermediates r with
              | Some l => App.i_name <$> l
              | None => []
              end).
  rewrite app_assoc. apply list_lookup_middle.
  rewrite !length_app. simpl. lia.
Qed.

(** X19: the routes [handleFind] lists are exactly the routes whose origin
    is the chosen "from" name and whose destination is the chosen "to"
    name; the intermediate stops of a route play no part. *)
Theorem listed_routes_match_ends (routes : list App.PageRoute) (from_ to_ : string)
    (r : App.PageRoute) :
  r ∈ App.matches routes from_ to_
  <-> r ∈ routes /\ App.a_from r = from_ /\ App.a_to r = to_.
Proof.
  unfold App.matches. rewrite list_elem_of_filter, stopSeq_first, stopSeq_last.
  split.
  - intros [[H1 H2] Hr]. injection H1 as H1. injection H2 as H2. auto.
  - intros (Hr & -> & ->). auto.
Qed.

Lemma nltb_nadd_zero (x m : num) : nltb x (nadd nzero m) = nltb x m.
Proof. destruct x, m; simpl; try reflexivity; qsolve. Qed.




(** X21: what [handleFind] sets does not depend on the [haversine] of
    [findBestPath.ts]: the routes of the page all carry a distance, so with
    any two versions of the [Math] functions the handler does the same. *)
Theorem handleFind_ignores_haversine (M M' : MathLib) (fuel : nat)
    (stopsArr : list Stop) (routes : list App.PageRoute) (from_ to_ : string)
    (priority : Priority) :
  App.handleFind M fuel stopsArr routes from_ to_ priority
  = App.handleFind M' fuel stopsArr routes from_ to_ priority.
Proof.
  unfold App.handleFind, findBestPath.
  rewrite (buildAdj_declared M M' stopsArr (App.searchRoute <$> routes)); [reflexivity|].
  apply Forall_fmap, Forall_forall. intros r _. simpl. eauto.
Qed.

(** X22: the points handed to the map for a route are the point of its
    origin, the points of its intermediate stops in order, and the point of
    its destination, with or without intermediate stops: one point for every
    stop of the stop sequence. *)
Theorem map_path_has_a_point_per_stop (r : App.PageRoute) :
  App.coords r
  = [App.a_fromCoords r]
    ++ (App.i_coords <$> default [] (App.a_intermediates r))
    ++ [App.a_toCoords r]
  /\ length (App.coords r) = length (App.stopSeq r).
Proof.
  unfold App.coords, App.stopSeq.
  destruct (App.a_intermediates r) as [[|i rest]|]; simpl; split; try reflexivity.
  rewrite !length_app, !length_fmap. reflexivity.
Qed.

Lemma consecutive_imap {A : Type} (pre l : list A) :
  imap (fun i x => (x, (pre ++ l) !! (length pre + i + 1)%nat)) (take (length l - 1) l)
  = zip l (Some <$> tail l).
Proof.
  revert pre. induction l as [|x l IH]; intros pre; [reflexivity|].
  destruct l as [|y l]; [reflexivity|].
  replace (length (x :: y :: l) - 1)%nat with (S (length (y :: l) - 1))
    by (simpl; lia).
  cbn [take tail]. rewrite imap_cons, fmap_cons.
  change (zip (x :: y :: l) (Some y :: (Some <$> l)))
    with ((x, Some y) :: zip (y :: l) (Some <$> l)).
  f_equal.
  - f_equal. rewrite lookup_app_r by lia.
    replace (length pre + 0 + 1 - length pre)%nat with 1%nat by lia. reflexivity.
  - specialize (IH (pre ++ [x])). cbn [tail] in IH. rewrite <- IH.
    apply imap_ext. intros i z _. unfold compose. f_equal.
    rewrite <- app_assoc, length_app. simpl. f_equal. lia.
Qed.

(** X23: the segments of a route card are the pairs of consecutive stops
    of its stop sequence, in order: the i-th segment runs from the i-th stop
    to the stop after it, which is always defined, and there is one segment
    more than there are intermediate stops. *)
Theorem segments_are_consecutive_stops (routes : list App.PageRoute)
    (route : App.PageRoute) :
  (fun s => (App.sg_from s, App.sg_to s)) <$> App.segments routes route
  = zip (App.stopSeq route) (Some <$> tail (App.stopSeq route))
  /\ length (App.segments routes route)
     = S (length (default [] (App.a_intermediates route))).
Proof.
  assert (H : (fun s => (App.sg_from s, App.sg_to s)) <$> App.segments routes route
              = zip (App.stopSeq route) (Some <$> tail (App.stopSeq route))).
  { unfold App.segments. rewrite fmap_imap.
    rewrite <- (consecutive_imap [] (App.stopSeq route)).
    apply imap_ext. intros i x _. reflexivity. }
  split; [exact H|].
  rewrite <- (length_fmap (fun s => (App.sg_from s, App.sg_to s))), H.
  rewrite length_zip_with, length_fmap. unfold App.stopSeq.
  destruct (App.a_intermediates route) as [l|]; cbn [app tail default];
    cbn [length]; rewrite ?length_app, ?length_fmap; cbn [length]; unfold id; lia.
Qed.

Lemma orZero_notNaN (x : num) : notNaN (orZero x) = true.
Proof. destruct x as [q| | |]; simpl; try reflexivity. destruct (Qeq_bool q 0); reflexivity. Qed.

Lemma nltb_ge_trans (x y z : num) :
  notNaN x = true -> notNaN y = true -> notNaN z = true ->
  nltb y x = false -> nltb z y = false -> nltb z x = false.
Proof.
  destruct x, y, z; simpl; try reflexivity; try discriminate; intros _ _ _; qsolve.
Qed.

Lemma nltb_PInf (x : num) : notNaN x = true -> nltb x PInf = false -> x = PInf.
Proof. destruct x; simpl; try reflexivity; discriminate. Qed.

(** The loop of [Math.min] from a running minimum [acc]. *)
Lemma Math_min_fold (xs : list num) (acc : num) :
  notNaN acc = true -> Forall (fun x => notNaN x = true) xs ->
  let m := fold_left (fun lowest x =>
                        match lowest, x with
                        | NaN, _ | _, NaN => NaN
                        | _, _ => if nltb x lowest then x else lowest
                        end) xs acc in
  notNaN m = true /\ (m = acc \/ m ∈ xs) /\ nltb acc m = false
  /\ Forall (fun x => nltb x m = false) xs.
Proof.
  revert acc. induction xs as [|x xs IH]; intros acc Ha Hxs; cbn zeta; cbn [fold_left].
  - split; [assumption|]. split; [auto|]. split; [apply nltb_irrefl|constructor].
  - apply Forall_cons in Hxs as [Hx Hxs]. cbn beta in Hx.
    set (acc' := match acc, x with
                 | NaN, _ | _, NaN => NaN
                 | _, _ => if nltb x acc then x else acc
                 end).
    assert (Hacc' : acc' = if nltb x acc then x else acc).
    { unfold acc'. destruct acc, x; try reflexivity; discriminate. }
    assert (Hn : notNaN acc' = true).
    { rewrite Hacc'. destruct (nltb x acc); assumption. }
    destruct (IH acc' Hn Hxs) as (Hm & Hin & Hle & Hall).
    set (m := fold_left _ xs acc') in *.
    assert (Hxa : nltb x acc' = false /\ nltb acc acc' = false
                  /\ (acc' = acc \/ acc' = x)).
    { rewrite Hacc'. destruct (nltb x acc) eqn:E.
      - split; [apply nltb_irrefl|]. split; [apply nltb_asym; assumption|auto].
      - split; [assumption|]. split; [apply nltb_irrefl|auto]. }
    destruct Hxa as (Hx1 & Hx2 & Hx3).
    split; [assumption|]. split; [|split].
    + destruct Hin as [Hin|Hin].
      * destruct Hx3 as [E|E]; rewrite Hin, E; [left; reflexivity|right; left].
      * right. right. assumption.
    + apply (nltb_ge_trans m acc' acc); assumption.
    + constructor; [|assumption].
      apply (nltb_ge_trans m acc' x); assumption.
Qed.

Lemma Math_min_least (xs : list num) :
  xs <> [] -> Forall (fun x => notNaN x = true) xs -> leastOf (Math_min xs) xs.
Proof.
  intros Hne Hxs. unfold Math_min.
  destruct (Math_min_fold xs PInf eq_refl Hxs) as (Hm & Hin & _ & Hall).
  cbn zeta in *. set (m := fold_left _ xs PInf) in *.
  split; [|assumption].
  destruct Hin as [E|Hin]; [|assumption].
  destruct xs as [|x xs]; [contradiction|].
  apply Forall_cons in Hall as [Hx _]. apply Forall_cons in Hxs as [Hnx _].
  rewrite E in Hx. apply nltb_PInf in Hx; [|assumption].
  rewrite E, <- Hx. left.
Qed.

Lemma Math_min_NaN (xs : list num) : NaN ∈ xs -> Math_min xs = NaN.
Proof.
  unfold Math_min. generalize PInf.
  induction xs as [|x xs IH]; intros acc H; [inversion H|].
  cbn [fold_left]. apply elem_of_cons in H as [<-|H].
  - replace (match acc, NaN with
             | NaN, _ | _, NaN => NaN
             | _, _ => if nltb NaN acc then NaN else acc
             end) with NaN by (destruct acc; reflexivity).
    clear. induction xs as [|y ys IH]; [reflexivity|exact IH].
  - apply IH. assumption.
Qed.

Lemma legFare_least (routes : list App.PageRoute) (stop : string)
    (nextStop : option string) :
  App.possibleLegs routes stop nextStop <> [] ->
  leastOf (App.legFare routes stop nextStop)
    ((fun r => orZero (App.a_fare r)) <$> App.possibleLegs routes stop nextStop).
Proof.
  intros Hne. unfold App.legFare.
  destruct (App.possibleLegs routes stop nextStop) as [|r0 rs] eqn:E; [contradiction|].
  rewrite bool_decide_eq_true_2 by (simpl; lia).
  apply Math_min_least; [discriminate|].
  apply Forall_fmap, Forall_forall. intros r _. apply orZero_notNaN.
Qed.

(** X24: the fare shown for a segment is zero when no route runs from its
    first stop to its second; otherwise it is the fare of one of the routes
    that do, and no such route has a smaller one, a fare of zero or NaN
    counting as zero.  Routes in the opposite direction are not looked
    at. *)
Theorem segment_fare_is_cheapest_direct (routes : list App.PageRoute) (stop : string)
    (nextStop : option string) :
  (App.possibleLegs routes stop nextStop = [] ->
   App.legFare routes stop nextStop = nzero)
  /\ (App.possibleLegs routes stop nextStop <> [] ->
      (exists r, r ∈ routes /\ App.a_from r = stop /\ Some (App.a_to r) = nextStop
                 /\ App.legFare routes stop nextStop = orZero (App.a_fare r))
      /\ (forall r, r ∈ routes -> App.a_from r = stop -> Some (App.a_to r) = nextStop ->
            nltb (orZero (App.a_fare r)) (App.legFare routes stop nextStop) = false)).
Proof.
  split.
  - unfold App.legFare. intros ->. reflexivity.
  - intros Hne. destruct (legFare_least routes stop nextStop Hne) as [Hin Hall].
    split.
    + apply list_elem_of_fmap in Hin as (r & Hr & Hrin).
      apply list_elem_of_filter in Hrin as [[H1 H2] H3].
      exists r. auto.
    + intros r Hr H1 H2. rewrite Forall_fmap, Forall_forall in Hall.
      apply Hall. apply list_elem_of_filter. auto.
Qed.

(** X25: for a route of the route list without intermediate stops, the
    total on its card is zero plus the cheapest fare among all routes with
    its origin and destination, so it is never above the fare of the route
    itself, a fare of zero or NaN counting as zero. *)
Theorem direct_route_total_is_cheapest (routes : list App.PageRoute)
    (route : App.PageRoute) :
  default [] (App.a_intermediates route) = [] ->
  route ∈ routes ->
  App.totalFare (App.segments routes route)
  = nadd nzero (App.legFare routes (App.a_from route) (Some (App.a_to route)))
  /\ nltb (orZero (App.a_fare route))
          (App.totalFare (App.segments routes route)) = false.
Proof.
  intros Hdirect Hin.
  assert (E : App.totalFare (App.segments routes route)
              = nadd nzero (App.legFare routes (App.a_from route)
                              (Some (App.a_to route)))).
  { unfold App.segments, App.stopSeq.
    destruct (App.a_intermediates route) as [l|]; simpl in Hdirect;
      [subst l|]; reflexivity. }
  split; [exact E|]. rewrite E, nltb_nadd_zero.
  assert (Hleg : route ∈ App.possibleLegs routes (App.a_from route)
                           (Some (App.a_to route))).
  { apply list_elem_of_filter. auto. }
  destruct (legFare_least routes (App.a_from route) (Some (App.a_to route)))
    as [_ Hall].
  { intros Hnil. rewrite Hnil in Hleg. inversion Hleg. }
  rewrite Forall_fmap, Forall_forall in Hall. apply Hall. assumption.
Qed.

(** Witness of X25: the direct route from A to C. *)
Lemma direct_route_total_is_cheapest_witness :
  default [] (App.a_intermediates pageDirect) = []
  /\ pageDirect ∈ pageRoutes
  /\ nltb (orZero (App.a_fare pageDirect))
          (App.totalFare (App.segments pageRoutes pageDirect)) = false.
Proof.
  assert (H1 : default [] (App.a_intermediates pageDirect) = []) by reflexivity.
  assert (H2 : pageDirect ∈ pageRoutes) by left.
  split; [exact H1|]. split; [exact H2|].
  exact (proj2 (direct_route_total_is_cheapest pageRoutes pageDirect H1 H2)).
Defined.

(** X26: [fetchLegFare] answers zero when the query reports an error and
    when it returns no rows.  Otherwise a row whose fare is NaN makes the
    answer NaN, and without such a row the answer is the fare of one of the
    rows, a missing fare counting as zero, and no row has a smaller one. *)
Theorem fetchLegFare_answers (query : string -> string -> App.Answer)
    (from_ to_ : string) :
  (App.error (query from_ to_) = true -> App.fetchLegFare query from_ to_ = nzero)
  /\ (App.error (query from_ to_) = false ->
      (App.data (query from_ to_) = None \/ App.data (query from_ to_) = Some []) ->
      App.fetchLegFare query from_ to_ = nzero)
  /\ (App.error (query from_ to_) = false ->
      forall d, App.data (query from_ to_) = Some d -> d <> [] ->
        (Some NaN ∈ d -> App.fetchLegFare query from_ to_ = NaN)
        /\ (Forall (fun x => notNaN (default nzero x) = true) d ->
            leastOf (App.fetchLegFare query from_ to_) (default nzero <$> d))).
Proof.
  unfold App.fetchLegFare. split; [intros ->; reflexivity|]. split.
  - intros -> [-> | ->]; reflexivity.
  - intros -> d -> Hne.
    rewrite bool_decide_eq_false_2
      by (destruct d; [contradiction|discriminate]).
    split.
    + intros Hin. apply Math_min_NaN.
      apply list_elem_of_fmap. exists (Some NaN). auto.
    + intros Hd. apply Math_min_least.
      * destruct d; [contradiction|discriminate].
      * apply Forall_fmap. exact Hd.
Qed.

Lemma byStopOrder_total (x y : App.RouteStopRow) :
  isFinite (App.rs_stop_order x) = true -> isFinite (App.rs_stop_order y) = true ->
  ngt0 (App.byStopOrder x y) = false \/ ngt0 (App.byStopOrder y x) = false.
Proof.
  unfold App.byStopOrder. rewrite !nsub_gt0.
  destruct (App.rs_stop_order x), (App.rs_stop_order y); try discriminate.
  intros _ _. simpl. qtests; auto. exfalso. lra.
Qed.

Lemma byStopOrder_trans (x y z : App.RouteStopRow) :
  isFinite (App.rs_stop_order x) = true -> isFinite (App.rs_stop_order y) = true ->
  isFinite (App.rs_stop_order z) = true ->
  ngt0 (App.byStopOrder x y) = false -> ngt0 (App.byStopOrder y z) = false ->
  ngt0 (App.byStopOrder x z) = false.
Proof.
  unfold App.byStopOrder. rewrite !nsub_gt0.
  destruct (App.rs_stop_order x), (App.rs_stop_order y), (App.rs_stop_order z);
    try discriminate.
  intros _ _ _. simpl. qsolve.
Qed.

(** X27: when a row has route stops with finite stop orders, the
    intermediate stops of the route made from it are those route stops,
    each once, arranged so that no stop comes before one with a smaller stop
    order, and the stop sequence of the route is the origin, these stops in
    that order, and the destination. *)
Theorem intermediates_follow_stop_order
    (haversineDistance : Coords -> Coords -> num) (r : App.RouteRow)
    (l : list App.RouteStopRow) :
  App.rr_route_stops r = Some l ->
  Forall (fun rs => isFinite (App.rs_stop_order rs) = true) l ->
  exists sorted,
    sorted ≡ₚ l
    /\ sortedBy App.byStopOrder sorted
    /\ App.a_intermediates (App.routeOfRow haversineDistance r)
       = Some (App.intermediateOf <$> sorted)
    /\ App.stopSeq (App.routeOfRow haversineDistance r)
       = [App.sr_name (App.rr_from_stop r)]
         ++ ((fun rs => App.sr_name (App.rs_stops rs)) <$> sorted)
         ++ [App.sr_name (App.rr_to_stop r)].
Proof.
  intros Hl Hfin. exists (sortBy App.byStopOrder l).
  split; [apply sortBy_perm|]. split.
  - apply (sortBy_sorted App.byStopOrder
             (fun rs => isFinite (App.rs_stop_order rs) = true)).
    + intros x y. apply byStopOrder_total.
    + intros x y z. apply byStopOrder_trans.
    + exact Hfin.
  - unfold App.routeOfRow, App.stopSeq. cbn [App.a_intermediates App.a_from App.a_to].
    rewrite Hl. split; [reflexivity|].
    rewrite <- list_fmap_compose. reflexivity.
Qed.

(** Witness of X27: a row whose two route stops come back out of order. *)
Lemma intermediates_follow_stop_order_witness :
  App.rr_route_stops rowAD = Some rowStops
  /\ Forall (fun rs => isFinite (App.rs_stop_order rs) = true) rowStops
  /\ App.stopSeq (App.routeOfRow (fun _ _ => nzero) rowAD) = ["A"; "B"; "C"; "D"]
  /\ exists sorted,
       sorted ≡ₚ rowStops
       /\ sortedBy App.byStopOrder sorted
       /\ App.a_intermediates (App.routeOfRow (fun _ _ => nzero) rowAD)
          = Some (App.intermediateOf <$> sorted)
       /\ App.stopSeq (App.routeOfRow (fun _ _ => nzero) rowAD)
          = [App.sr_name (App.rr_from_stop rowAD)]
            ++ ((fun rs => App.sr_name (App.rs_stops rs)) <$> sorted)
            ++ [App.sr_name (App.rr_to_stop rowAD)].
Proof.
  assert (H1 : App.rr_route_stops rowAD = Some rowStops) by reflexivity.
  assert (H2 : Forall (fun rs => isFinite (App.rs_stop_order rs) = true) rowStops).
  { unfold rowStops. repeat (apply Forall_cons_2; [reflexivity|]). apply Forall_nil_2. }
  split; [exact H1|]. split; [exact H2|]. split; [vm_compute; reflexivity|].
  exact (intermediates_follow_stop_order (fun _ _ => nzero) rowAD rowStops H1 H2).
Defined.

(** ** The map *)

(** X28: the two coordinate conversions of the map undo each other: the
    points sent to the routing service, read back as a line, are the stops
    as given, a geometry read as a line and sent back is that geometry, and
    the request has one pair for every stop. *)
Theorem ors_coordinates_round_trip (stopsCoords : list Coords) (geom : list (num * num)) :
  MapView.line (MapView.coordList stopsCoords) = stopsCoords
  /\ MapView.coordList (MapView.line geom) = geom
  /\ length (MapView.coordList stopsCoords) = length stopsCoords.
Proof.
  unfold MapView.line, MapView.coordList. split; [|split].
  - rewrite <- list_fmap_compose. rewrite <- (list_fmap_id stopsCoords) at 2.
    apply list_fmap_ext. intros i [a b] _. reflexivity.
  - rewrite <- list_fmap_compose. rewrite <- (list_fmap_id geom) at 2.
    apply list_fmap_ext. intros i [a b] _. reflexivity.
  - apply length_fmap.
Qed.

(** X29: a polyline drawn on the map has at least two points and is the
    road line or the stops as given; none is drawn only when there are fewer
    than two stops and the road line, if there is one, has fewer than two
    points. *)
Theorem polyline_has_two_points (roadLine : option (list Coords))
    (stopsCoords : list Coords) :
  match MapView.polyline roadLine stopsCoords with
  | Some l => (2 <= length l)%nat /\ (roadLine = Some l \/ l = stopsCoords)
  | None => (length stopsCoords <= 1)%nat
            /\ forall l, roadLine = Some l -> (length l <= 1)%nat
  end.
Proof.
  unfold MapView.polyline.
  destruct roadLine as [l|];
    repeat match goal with
           | |- context [bool_decide ?P] => destruct (bool_decide_reflect P)
           end; repeat split; auto; try lia.
  - intros l' [= <-]. lia.
  - intros l' [=].
Qed.
